(** * Election forecast simulator: model of [run-simulations.js]

    A shallow embedding of the modelling-and-simulation core of
    [run-simulations.js]: the probability model with its lookup table, the
    weighted combiner, the Monte Carlo trial loops of the current-day and the
    odds-over-time engines, the rolling poll windows, the seat histograms and
    the columnar encoding of the per-seat series.

    Numbers.  A JavaScript number is modelled by [number]: an exact rational,
    or one of the three non-finite values; zero has no sign.  Stores into a
    [Float32Array] are modelled, by [fround], the rounding to the nearest
    binary32 value with ties to even.  The rounding of the binary64
    operations is modelled, by [f64], where a property is about the values
    computed: in the prefix sums and the means of the rolling windows, and
    in the functions of the module [Binary64], which are [normalizePair],
    [weightedCombine] and the index of [winProbD_fast] with every operation
    rounded.  Elsewhere the arithmetic on finite values is exact: the
    probability model, the trial loops and what is proved of them are about
    order, bounds and counts, which the rounding keeps.

    Randomness.  [Math.random] is modelled by a function from the number of
    draws made so far to the value drawn; every loop threads that counter.

    Platform.  [Math.exp] is not defined by the program; it is a field of the
    class [MathLib], with the properties the proofs rely on. *)

From Stdlib Require Import QArith Qround Qpower Qabs Lqa Lia ZArith Bool.
From stdpp Require Import base option list gmap strings sorting.

Open Scope Q_scope.

(** ** JavaScript numbers *)

Inductive number : Type :=
  | Num (q : Q)
  | PosInf
  | NegInf
  | NaN.

Definition Qltb (a b : Q) : bool := negb (Qle_bool b a).
Definition Qis0 (a : Q) : bool := (Qnum a =? 0)%Z.

Definition isFinite (x : number) : bool :=
  match x with Num _ => true | _ => false end.

Definition jneg (x : number) : number :=
  match x with
  | Num a => Num (- a)
  | PosInf => NegInf
  | NegInf => PosInf
  | NaN => NaN
  end.

Definition jadd (x y : number) : number :=
  match x, y with
  | NaN, _ | _, NaN => NaN
  | Num a, Num b => Num (a + b)
  | PosInf, NegInf | NegInf, PosInf => NaN
  | PosInf, _ | _, PosInf => PosInf
  | NegInf, _ | _, NegInf => NegInf
  end.

Definition jsub (x y : number) : number := jadd x (jneg y).

(** The sign of a number as an infinity: used where an infinity meets a
    finite factor. *)
Definition signed_inf (positive : bool) : number :=
  if positive then PosInf else NegInf.

Definition jmul (x y : number) : number :=
  match x, y with
  | NaN, _ | _, NaN => NaN
  | Num a, Num b => Num (a * b)
  | Num a, PosInf | PosInf, Num a =>
      if Qis0 a then NaN else signed_inf (Qltb 0 a)
  | Num a, NegInf | NegInf, Num a =>
      if Qis0 a then NaN else signed_inf (Qltb a 0)
  | PosInf, PosInf | NegInf, NegInf => PosInf
  | PosInf, NegInf | NegInf, PosInf => NegInf
  end.

Definition jdiv (x y : number) : number :=
  match x, y with
  | NaN, _ | _, NaN => NaN
  | Num a, Num b =>
      if Qis0 b then (if Qis0 a then NaN else signed_inf (Qltb 0 a))
      else Num (a / b)
  | Num _, _ => Num 0
  | PosInf, Num b => signed_inf (Qle_bool 0 b)
  | NegInf, Num b => signed_inf (Qltb b 0)
  | _, _ => NaN
  end.

(** [x < y], [x <= y] and [x > y] of JavaScript: false when an operand is NaN. *)
Definition jlt (x y : number) : bool :=
  match x, y with
  | NaN, _ | _, NaN => false
  | Num a, Num b => Qltb a b
  | NegInf, NegInf => false
  | NegInf, _ => true
  | _, PosInf => match x with PosInf => false | _ => true end
  | _, _ => false
  end.

Definition jle (x y : number) : bool :=
  match x, y with
  | NaN, _ | _, NaN => false
  | Num a, Num b => Qle_bool a b
  | NegInf, _ => true
  | _, PosInf => true
  | _, _ => false
  end.

Definition jgt (x y : number) : bool := jlt y x.
Definition jge (x y : number) : bool := jle y x.

Definition Math_max (x y : number) : number :=
  match x, y with
  | NaN, _ | _, NaN => NaN
  | _, _ => if jlt x y then y else x
  end.

Definition Math_min (x y : number) : number :=
  match x, y with
  | NaN, _ | _, NaN => NaN
  | _, _ => if jlt y x then y else x
  end.

Definition Math_abs (x : number) : number :=
  match x with
  | Num a => Num (Qabs a)
  | PosInf | NegInf => PosInf
  | NaN => NaN
  end.

(** [Math.round]: the nearest integer, a half rounded up. *)
Definition Qround_half_up (a : Q) : Z := Qfloor (a + (1 # 2)).

Definition Math_round (x : number) : number :=
  match x with
  | Num a => Num (inject_Z (Qround_half_up a))
  | _ => x
  end.

Definition Math_floor (x : number) : number :=
  match x with
  | Num a => Num (inject_Z (Qfloor a))
  | _ => x
  end.

(** Equality of numbers as values: finite numbers are compared as rationals. *)
Definition num_eq (x y : number) : Prop :=
  match x, y with
  | Num a, Num b => a == b
  | PosInf, PosInf | NegInf, NegInf | NaN, NaN => True
  | _, _ => False
  end.

(** ** Rounding to binary32 ([Float32Array] stores) *)

(** The exponent [e] with [2^e <= a < 2^(e+1)], for [a > 0]. *)
Definition Qlog2 (a : Q) : Z :=
  let e0 := (Z.log2 (Qnum a) - Z.log2 (Zpos (Qden a)))%Z in
  if Qle_bool (2 ^ e0) a then e0 else (e0 - 1)%Z.

(** The nearest integer, ties to the even one. *)
Definition Qround_half_even (a : Q) : Z :=
  let f := Qfloor a in
  let r := a - inject_Z f in
  if Qltb r (1 # 2) then f
  else if Qltb (1 # 2) r then (f + 1)%Z
  else if Z.even f then f else (f + 1)%Z.

(** binary32: 24 significant bits, least normal exponent -126, overflow at
    [2^128]. *)
Definition f32_exp (a : Q) : Z := Z.max (Qlog2 a) (-126).
Definition f32_ulp (a : Q) : Q := 2 ^ (f32_exp a - 23).

Definition fround_pos (a : Q) : Q :=
  inject_Z (Qround_half_even (a / f32_ulp a)) * f32_ulp a.

Definition fround_Q (a : Q) : number :=
  if Qis0 a then Num 0
  else if Qltb 0 a then
    let r := fround_pos a in
    if Qle_bool (2 ^ 128) r then PosInf else Num r
  else
    let r := fround_pos (- a) in
    if Qle_bool (2 ^ 128) r then NegInf else Num (- r).

Definition fround (x : number) : number :=
  match x with
  | Num a => fround_Q a
  | _ => x
  end.


(** ** Rounding to binary64 (the arithmetic of numbers) *)

(** binary64: 53 significant bits, least normal exponent -1022, overflow at
    [2^1024]; below [2^-1022] the values are the multiples of [2^-1074]. *)
Definition f64_exp (a : Q) : Z := Z.max (Qlog2 a) (-1022).
Definition f64_ulp (a : Q) : Q := 2 ^ (f64_exp a - 52).

Definition f64_pos (a : Q) : Q :=
  inject_Z (Qround_half_even (a / f64_ulp a)) * f64_ulp a.

Definition f64_Q (a : Q) : number :=
  if Qis0 a then Num 0
  else if Qltb 0 a then
    let r := f64_pos a in
    if Qle_bool (2 ^ 1024) r then PosInf else Num r
  else
    let r := f64_pos (- a) in
    if Qle_bool (2 ^ 1024) r then NegInf else Num (- r).

(** The binary64 value nearest to a number, ties to even: what an
    arithmetic operation returns for its exact result. *)
Definition f64 (x : number) : number :=
  match x with
  | Num a => f64_Q a
  | _ => x
  end.

(** A rational that is a binary64 value. *)
Definition binary64 (a : Q) : Prop := num_eq (f64 (Num a)) (Num a).

(** The relative and the absolute rounding error of binary64: half a unit
    in the last place of a normal value, and of a value below the normal
    range. *)
Definition f64_eps : Q := 2 ^ (-53).
Definition f64_eta : Q := 2 ^ (-1075).

(** A multiple of the least positive binary64 value, as every binary64
    value is. *)
Definition quantum (a : Q) : Prop := exists k : Z, a == inject_Z k * 2 ^ (-1074).


(** ** Platform functions *)

(** [Math.exp] on finite arguments.  The program only applies it to
    arguments that are at most 0 (in [erf]).  The properties are those of
    the exponential that hold of a correctly rounded implementation. *)
Class MathLib : Type := {
  exp_Q : Q -> Q;
  exp_Q_proper : forall a b, a == b -> exp_Q a == exp_Q b;
  exp_Q_zero : exp_Q 0 == 1;
  exp_Q_nonneg : forall a, 0 <= exp_Q a;
  exp_Q_mono : forall a b, a <= b -> exp_Q a <= exp_Q b;
}.

Definition Math_exp `{MathLib} (x : number) : number :=
  match x with
  | Num a => Num (exp_Q a)
  | PosInf => PosInf
  | NegInf => Num 0
  | NaN => NaN
  end.

(** [Math.SQRT2], the binary64 value nearest to the square root of 2. *)
Definition Math_SQRT2 : number := Num 1.4142135623730951.

(** ** Configuration *)

Definition NUM_SIMS : nat := Z.to_nat 10000.
Definition PROB_ERROR_SD_PTS : number := Num 7.
Definition HOUSE_MC_SWING_RANGE_PTS : number := Num 7.
Definition SENATE_MC_SWING_RANGE_PTS : number := Num 7.
Definition GB_WINDOW_POLLS : Z := 24.
Definition STATE_POLL_WINDOW : Z := 6.

Record weights := { w_gb : number; w_polls : number; w_ind : number }.
Definition WEIGHTS : weights :=
  {| w_gb := Num 35; w_polls := Num 50; w_ind := Num 15 |}.

Inductive chamber := senate | governor | house.

Record seat_rules := {
  total : Z;
  majorityLine : Z;
  baseR : Z;
  baseD : Z;
}.

Definition SEAT_RULES (c : chamber) : seat_rules :=
  match c with
  | senate => {| total := 100; majorityLine := 51; baseR := 31; baseD := 34 |}
  | governor => {| total := 50; majorityLine := 26; baseR := 8; baseD := 6 |}
  | house => {| total := 435; majorityLine := 218; baseR := 0; baseD := 0 |}
  end.

Definition SENATE_CONTROL_RULE_demAtLeast : Z := 51.
Definition SENATE_CONTROL_RULE_repAtLeast : Z := 50.

(** ** Math helpers *)

Definition clamp (x a b : number) : number := Math_max a (Math_min b x).

Record pair := { D : number; R : number }.

Definition pair_eq (p q : pair) : Prop :=
  num_eq (D p) (D q) /\ num_eq (R p) (R q).

Definition neutral_pair : pair := {| D := Num 50; R := Num 50 |}.

Definition normalizePair (d r : number) : pair :=
  let s := jadd d r in
  if negb (isFinite s) || jle s (Num 0) then neutral_pair
  else {| D := jdiv (jmul (Num 100) d) s; R := jdiv (jmul (Num 100) r) s |}.

Definition marginRD (p : pair) : number := jsub (R p) (D p).

Section WinProbability.
Context `{MathLib}.

Definition erf (x0 : number) : number :=
  let sign := if jlt x0 (Num 0) then Num (-1) else Num 1 in
  let x := Math_abs x0 in
  let a1 := Num 0.254829592 in
  let a2 := Num (-0.284496736) in
  let a3 := Num 1.421413741 in
  let a4 := Num (-1.453152027) in
  let a5 := Num 1.061405429 in
  let p := Num 0.3275911 in
  let t := jdiv (Num 1) (jadd (Num 1) (jmul p x)) in
  let y :=
    jsub (Num 1)
      (jmul
         (jmul
            (jadd (jmul (jadd (jmul (jadd (jmul (jadd (jmul a5 t) a4) t) a3) t) a2) t) a1)
            t)
         (Math_exp (jmul (jneg x) x))) in
  jmul sign y.

Definition normalCDF (x : number) : number :=
  jmul (Num 0.5) (jadd (Num 1) (erf (jdiv x Math_SQRT2))).

Record win_prob := { pD : number; pR : number }.

Definition winProbFromMargin (m : number) : win_prob :=
  let z := jdiv m PROB_ERROR_SD_PTS in
  let pR := clamp (normalCDF z) (Num 0) (Num 1) in
  {| pD := jsub (Num 1) pR; pR := pR |}.

(** The lookup table. *)
Definition WINP_MIN : number := Num (-40).
Definition WINP_MAX : number := Num 40.
Definition WINP_STEP : number := Num 0.1.

(** An integral number as an array index or length; a number that is not
    an integer is no index. *)
Definition to_index (x : number) : option Z :=
  match x with
  | Num a => if Qeq_bool a (inject_Z (Qfloor a)) then Some (Qfloor a) else None
  | _ => None
  end.

Definition WINP_N : nat :=
  match to_index (jadd (Math_round (jdiv (jsub WINP_MAX WINP_MIN) WINP_STEP)) (Num 1)) with
  | Some n => Z.to_nat n
  | None => 0%nat
  end.

(** The value the loop stores at index [i]. *)
Definition WINP_entry (i : nat) : number :=
  let m := jadd WINP_MIN (jmul (Num (inject_Z (Z.of_nat i))) WINP_STEP) in
  fround (pD (winProbFromMargin m)).

Definition WINP_PD_TABLE : list number := map WINP_entry (seq 0 WINP_N).

(** Reading a typed array: [undefined] (here [None]) outside the bounds. *)
Definition array_get {A} (l : list A) (i : option Z) : option A :=
  match i with
  | Some z => if (z <? 0)%Z then None else l !! Z.to_nat z
  | None => None
  end.

Definition winProbD_fast (m : number) : number :=
  if negb (isFinite m) then Num 0.5
  else
    let mm := clamp m WINP_MIN WINP_MAX in
    let idx := Math_round (jdiv (jsub mm WINP_MIN) WINP_STEP) in
    match array_get WINP_PD_TABLE (to_index idx) with
    | Some v => v
    | None => Num 0.5
    end.

End WinProbability.

(** A rational function with the properties [MathLib] asks of [Math.exp]:
    it shows that they can be met, and gives the model an instance to
    evaluate with. *)
Definition exp_model (a : Q) : Q :=
  if Qle_bool 0 a then 1 + a else 1 / (1 - a).

(** ** Data *)

(** A latest poll of a seat, [{D, R, S}]. *)
Record poll_avg := { poll_D : number; poll_R : number; poll_S : number }.

(** One entry of [DATA]: the generic ballot ([null] until loaded), the
    ratios and the latest polls by seat. *)
Record chamber_data := {
  gb : option pair;
  ratios : gmap string pair;
  polls : gmap string poll_avg;
}.

Record data := {
  data_senate : chamber_data;
  data_governor : chamber_data;
  data_house : chamber_data;
}.

Definition DATA_of (dt : data) (c : chamber) : chamber_data :=
  match c with
  | senate => data_senate dt
  | governor => data_governor dt
  | house => data_house dt
  end.

(** A dated poll of [STATE_POLL_DATA].  The date is the time value of its
    [Date]; the shares and sigma are finite (the loader keeps no other). *)
Record state_poll := {
  sp_date : Z;
  sp_D : Q;
  sp_R : Q;
  sp_sigma : Q;
}.

(** ** Model computation *)

Definition computeGenericBallotState (g ratio : pair) : pair :=
  normalizePair (jmul (D g) (D ratio)) (jmul (R g) (R ratio)).

Definition computePollState (poll : option poll_avg) : option pair :=
  match poll with
  | None => None
  | Some p =>
      let d := poll_D p in
      let r := poll_R p in
      if negb (isFinite d) || negb (isFinite r) || jle (jadd d r) (Num 0) then None
      else Some (normalizePair d r)
  end.

Definition computeIndicatorState (indNat ratio : pair) : pair :=
  normalizePair (jmul (D indNat) (D ratio)) (jmul (R indNat) (R ratio)).

(** A component [{pair, w}] of the combiner; the pair may be [null]. *)
Record component := { c_pair : option pair; c_w : number }.

(** The components the loop of [weightedCombine] does not skip. *)
Definition active (c : option component) : option (pair * number) :=
  match c with
  | Some {| c_pair := Some p; c_w := w |} =>
      if negb (isFinite w) || jle w (Num 0) then None else Some (p, w)
  | _ => None
  end.

Record combine_acc := { acc_W : number; acc_D : number; acc_R : number }.

Definition combine_step (a : combine_acc) (c : option component) : combine_acc :=
  match active c with
  | None => a
  | Some (p, w) =>
      {| acc_W := jadd (acc_W a) w;
         acc_D := jadd (acc_D a) (jmul w (D p));
         acc_R := jadd (acc_R a) (jmul w (R p)) |}
  end.

Definition combine_loop (components : list (option component)) : combine_acc :=
  foldl combine_step {| acc_W := Num 0; acc_D := Num 0; acc_R := Num 0 |} components.

Definition weightedCombine (components : list (option component)) : pair :=
  let a := combine_loop components in
  if jle (acc_W a) (Num 0) then neutral_pair
  else normalizePair (jdiv (acc_D a) (acc_W a)) (jdiv (acc_R a) (acc_W a)).

(** Truthiness of an object or [null]. *)
Definition present {A} (o : option A) : bool :=
  match o with Some _ => true | None => false end.

Record seat_model `{MathLib} := { combinedPair : pair; winProb : win_prob }.

Section Models.
Context `{MathLib}.

Definition getStateModel (dt : data) (modeKey : chamber) (st : string)
    (cachedIndNat : option pair) : option seat_model :=
  let g := default neutral_pair (gb (DATA_of dt modeKey)) in
  match ratios (DATA_of dt modeKey) !! st with
  | None => None
  | Some ratio =>
      let gbPair := computeGenericBallotState g ratio in
      let pollRaw := polls (DATA_of dt modeKey) !! st in
      let pollPair : option pair := computePollState pollRaw in
      let indPair : option pair := (fun ind => computeIndicatorState ind ratio) <$> cachedIndNat in
      let comps :=
        [ Some {| c_pair := Some gbPair; c_w := w_gb WEIGHTS |};
          Some {| c_pair := pollPair;
                  c_w := if present pollPair then w_polls WEIGHTS else Num 0 |};
          Some {| c_pair := indPair;
                  c_w := if present indPair then w_ind WEIGHTS else Num 0 |} ] in
      let combined := weightedCombine comps in
      let mFinal := marginRD combined in
      Some {| combinedPair := combined; winProb := winProbFromMargin mFinal |}
  end.

(** [DATA.house.gb || DATA.senate.gb || DATA.governor.gb || {D: 50, R: 50}]. *)
Definition house_gb (dt : data) : pair :=
  match gb (data_house dt), gb (data_senate dt), gb (data_governor dt) with
  | Some g, _, _ => g
  | None, Some g, _ => g
  | None, None, Some g => g
  | None, None, None => neutral_pair
  end.

Definition getHouseModel (dt : data) (did : string) : option seat_model :=
  let g := house_gb dt in
  match ratios (data_house dt) !! did with
  | None => None
  | Some ratio =>
      let combined := computeGenericBallotState g ratio in
      let mFinal := marginRD combined in
      Some {| combinedPair := combined; winProb := winProbFromMargin mFinal |}
  end.
End Models.
(** ** The model computation in binary64

    The pairs of the model computation with every operation rounded as the
    language rounds it.  [Binary64.normalizePair] and
    [Binary64.weightedCombine] are [normalizePair] and [weightedCombine]
    line by line, with [add], [mul] and [div] for [+], [*] and [/]. *)

Module Binary64.

(** The operations [+], [-], [*] and [/] of the language: the exact result,
    rounded to binary64. *)
Definition add (x y : number) : number := f64 (jadd x y).
Definition sub (x y : number) : number := f64 (jsub x y).
Definition mul (x y : number) : number := f64 (jmul x y).
Definition div (x y : number) : number := f64 (jdiv x y).

Definition normalizePair (d r : number) : pair :=
  let s := add d r in
  if negb (isFinite s) || jle s (Num 0) then neutral_pair
  else {| D := div (mul (Num 100) d) s; R := div (mul (Num 100) r) s |}.

Definition computeGenericBallotState (g ratio : pair) : pair :=
  normalizePair (mul (D g) (D ratio)) (mul (R g) (R ratio)).

Definition computePollState (poll : option poll_avg) : option pair :=
  match poll with
  | None => None
  | Some p =>
      let d := poll_D p in
      let r := poll_R p in
      if negb (isFinite d) || negb (isFinite r) || jle (add d r) (Num 0) then None
      else Some (normalizePair d r)
  end.

Definition computeIndicatorState (indNat ratio : pair) : pair :=
  normalizePair (mul (D indNat) (D ratio)) (mul (R indNat) (R ratio)).

Definition combine_step (a : combine_acc) (c : option component) : combine_acc :=
  match active c with
  | None => a
  | Some (p, w) =>
      {| acc_W := add (acc_W a) w;
         acc_D := add (acc_D a) (mul w (D p));
         acc_R := add (acc_R a) (mul w (R p)) |}
  end.

Definition combine_loop (components : list (option component)) : combine_acc :=
  foldl combine_step {| acc_W := Num 0; acc_D := Num 0; acc_R := Num 0 |} components.

(** The step of the loop on a component it does not skip. *)
Definition combine_active (a : combine_acc) (pw : pair * number) : combine_acc :=
  {| acc_W := add (acc_W a) (snd pw);
     acc_D := add (acc_D a) (mul (snd pw) (D (fst pw)));
     acc_R := add (acc_R a) (mul (snd pw) (R (fst pw))) |}.

Definition weightedCombine (components : list (option component)) : pair :=
  let a := combine_loop components in
  if jle (acc_W a) (Num 0) then neutral_pair
  else normalizePair (div (acc_D a) (acc_W a)) (div (acc_R a) (acc_W a)).



(** [WINP_STEP], the binary64 value written [0.1], and the index
    [winProbD_fast] computes: the subtraction and the division are rounded
    before [Math.round]. *)
Definition WINP_STEP : number := f64 (Num 0.1).

Definition WINP_idx (m : number) : number :=
  let mm := clamp m WINP_MIN WINP_MAX in
  Math_round (div (sub mm WINP_MIN) WINP_STEP).

Definition winProbD_fast `{MathLib} (m : number) : number :=
  if negb (isFinite m) then Num 0.5
  else
    match array_get WINP_PD_TABLE (to_index (WINP_idx m)) with
    | Some v => v
    | None => Num 0.5
    end.

End Binary64.

(** The tolerance within which the shares of a pair are what exact
    arithmetic gives, and sum to 100: about 5.7e-14. *)
Definition share_tolerance : Q := 2 ^ (-44).

(** The tolerance for a pair that went through the combiner: about
    9.1e-13. *)
Definition combine_tolerance : Q := 2 ^ (-40).


(** A bound on the absolute rounding error in the error analysis. *)
Definition kappa : Q := 2 ^ (-100).



(** ** Seat keys *)

(** [Object.keys(...).sort()]: the keys in ascending order of their code
    units (the keys are ASCII seat codes). *)
Definition key_le (a b : string) : Prop := Is_true (String.leb a b).

#[export] Instance key_le_dec a b : Decision (key_le a b) := Is_true_dec _.

Definition sorted_keys {A} (m : gmap string A) : list string :=
  merge_sort key_le (map fst (map_to_list m)).

(** ** Monte Carlo trials *)

(** [Math.random]: the value of the draw made after [k] earlier draws. *)
Definition rng : Type := nat -> number.

(** Storing into an [Int16Array]. *)
Definition int16 (z : Z) : Z := ((z + 32768) mod 65536 - 32768)%Z.

(** The number of seats won among the outcomes of a trial. *)
Definition count_wins (wins : list bool) : Z :=
  Z.of_nat (length (filter (fun w => Is_true w) wins)).

(** [stateDemWins[i]++] for every seat won in a trial. *)
Definition add_wins (acc : list Z) (wins : list bool) : list Z :=
  zip_with (fun c (w : bool) => if w then (c + 1)%Z else c) acc wins.

Record trial := {
  t_dSeats : Z;
  t_control : bool;
  t_wins : list bool;
  t_pos : nat;
}.

Record sim_state := {
  s_demControl : Z;
  s_sumDSeats : Z;
  s_samples : list Z;
  s_wins : list Z;
  s_pos : nat;
}.

Section MonteCarlo.
Context `{MathLib}.

(** The loop over the seats of one trial: one draw per seat, compared with
    the win probability at the margin moved by the swing. *)
Fixpoint seat_loop (rnd : rng) (swing : number) (margins : list number)
    (pos : nat) : list bool * nat :=
  match margins with
  | [] => ([], pos)
  | m :: ms =>
      let p := winProbD_fast (jadd m swing) in
      let won := jlt (rnd pos) p in
      let '(rest, pos') := seat_loop rnd swing ms (S pos) in
      (won :: rest, pos')
  end.

Definition draw_swing (rnd : rng) (pos : nat) (range : number) : number :=
  jmul (jsub (jmul (rnd pos) (Num 2)) (Num 1)) range.

Definition swing_range (c : chamber) : number :=
  match c with
  | house => HOUSE_MC_SWING_RANGE_PTS
  | _ => SENATE_MC_SWING_RANGE_PTS
  end.

(** The control test of the current-day simulators:
    [SENATE_CONTROL_RULE.demAtLeast] for the senate, [rules.majorityLine]
    for the governors and the house. *)
Definition current_control_line (c : chamber) : Z :=
  match c with
  | senate => SENATE_CONTROL_RULE_demAtLeast
  | _ => majorityLine (SEAT_RULES c)
  end.

(** One trial of [runSenateSimulation], [runGovernorSimulation] or
    [runHouseSimulation]. *)
Definition sim_trial (c : chamber) (margins : list number) (rnd : rng)
    (pos : nat) : trial :=
  let swing := draw_swing rnd pos (swing_range c) in
  let '(wins, pos') := seat_loop rnd swing margins (S pos) in
  let dSeats := (baseD (SEAT_RULES c) + count_wins wins)%Z in
  {| t_dSeats := dSeats;
     t_control := (current_control_line c <=? dSeats)%Z;
     t_wins := wins;
     t_pos := pos' |}.

(** One trial of [runOddsOverTimeState]. *)
Definition odds_trial (modeKey : chamber) (margins : list number) (rnd : rng)
    (pos : nat) : trial :=
  let rules := SEAT_RULES modeKey in
  let controlLine :=
    match modeKey with
    | senate => SENATE_CONTROL_RULE_demAtLeast
    | _ => majorityLine rules
    end in
  let tieIsDem := match modeKey with governor => true | _ => false end in
  let tieSeat := (majorityLine rules - 1)%Z in
  let swing := draw_swing rnd pos SENATE_MC_SWING_RANGE_PTS in
  let '(wins, pos') := seat_loop rnd swing margins (S pos) in
  let dWins := count_wins wins in
  let dSeats := (baseD rules + dWins)%Z in
  {| t_dSeats := dSeats;
     t_control := (controlLine <=? dSeats)%Z || (tieIsDem && (dSeats =? tieSeat)%Z);
     t_wins := wins;
     t_pos := pos' |}.

(** The loop over the trials.  The two engines share it: the current-day
    simulators keep the samples ([seatSamples[s] = dSeats], an
    [Int16Array]) and not the sum, [runOddsOverTimeState] keeps the sum
    ([sumDSeats]) and not the samples; each reads what it keeps. *)
Definition sim_step (run : rng -> nat -> trial) (rnd : rng) (st : sim_state)
    : sim_state :=
  let t := run rnd (s_pos st) in
  {| s_demControl := if t_control t then (s_demControl st + 1)%Z else s_demControl st;
     s_sumDSeats := (s_sumDSeats st + t_dSeats t)%Z;
     s_samples := s_samples st ++ [int16 (t_dSeats t)];
     s_wins := add_wins (s_wins st) (t_wins t);
     s_pos := t_pos t |}.

Fixpoint sim_loop (n : nat) (run : rng -> nat -> trial) (rnd : rng)
    (st : sim_state) : sim_state :=
  match n with
  | O => st
  | S n' => sim_loop n' run rnd (sim_step run rnd st)
  end.

Definition sim_init (seats : nat) (pos : nat) : sim_state :=
  {| s_demControl := 0; s_sumDSeats := 0; s_samples := [];
     s_wins := replicate seats 0%Z; s_pos := pos |}.
End MonteCarlo.

(** ** Seat histograms *)

Record histogram := {
  counts : list Z;
  h_min : Z;
  h_max : Z;
  h_total : Z;
  h_binSize : Z;
  h_binOffset : option Z;
}.

(** [counts[i]++]. *)
Definition incr (i : Z) (cs : list Z) : list Z :=
  if (i <? 0)%Z then cs else alter Z.succ (Z.to_nat i) cs.

(** [samples.length || 1]. *)
Definition length_or_1 (samples : list Z) : Z :=
  if (Z.of_nat (length samples) =? 0)%Z then 1%Z else Z.of_nat (length samples).

(** The running minimum and maximum, [None] for the infinities the loop
    starts from. *)
Definition min_step (mn : option Z) (v : Z) : option Z :=
  match mn with
  | None => Some v
  | Some m => if (v <? m)%Z then Some v else Some m
  end.

Definition max_step (mx : option Z) (v : Z) : option Z :=
  match mx with
  | None => Some v
  | Some m => if (m <? v)%Z then Some v else Some m
  end.

Definition toBinStart (binSize binOffset v : Z) : Z :=
  ((v - binOffset) / binSize * binSize + binOffset)%Z.

Definition buildBinnedHistogram (samples : list Z) (binSize0 binOffset : Z) : histogram :=
  let binSize := Z.max 1 binSize0 in
  let mn := foldl min_step None samples in
  let mx := foldl max_step None samples in
  let '(mn, mx) :=
    match mn, mx with
    | Some a, Some b => (a, b)
    | _, _ => (0%Z, 0%Z)
    end in
  let minB := toBinStart binSize binOffset mn in
  let maxB := toBinStart binSize binOffset mx in
  let n := Z.max 1 ((maxB - minB) / binSize + 1) in
  let cs :=
    foldl (fun cs v =>
             let b := toBinStart binSize binOffset v in
             let idx := ((b - minB) / binSize)%Z in
             if (0 <=? idx)%Z && (idx <? n)%Z then incr idx cs else cs)
          (replicate (Z.to_nat n) 0%Z) samples in
  {| counts := cs; h_min := minB;
     h_max := (minB + (n - 1) * binSize + (binSize - 1))%Z;
     h_total := length_or_1 samples; h_binSize := binSize;
     h_binOffset := Some binOffset |}.

Definition buildRangeHistogram (samples : list Z) (showMin showMax : Z) : histogram :=
  let cs :=
    foldl (fun cs v =>
             if (v <? showMin)%Z || (showMax <? v)%Z then cs
             else incr (v - showMin) cs)
          (replicate (Z.to_nat (showMax - showMin + 1)) 0%Z) samples in
  {| counts := cs; h_min := showMin; h_max := showMax;
     h_total := length_or_1 samples; h_binSize := 1; h_binOffset := None |}.

Definition upSeats (c : chamber) : Z :=
  (total (SEAT_RULES c) - baseD (SEAT_RULES c) - baseR (SEAT_RULES c))%Z.

Definition buildSeatHistogram (seatSamples : list Z) (modeKey : chamber) : histogram :=
  let rules := SEAT_RULES modeKey in
  match modeKey with
  | house => buildBinnedHistogram seatSamples 12 2
  | senate => buildRangeHistogram seatSamples (baseD rules) (baseD rules + upSeats senate)
  | governor => buildRangeHistogram seatSamples 21 31
  end.

(** ** The current-day simulators *)

Record sim_result := {
  demControl : Z;
  seatSamples : list Z;
  seatWins : list Z;
  sims : nat;
  seatDistribution : histogram;
}.

Section CurrentDay.
Context `{MathLib}.

(** The margin a simulator stores for a seat: [isFinite(m) ? m : 0], in a
    [Float32Array]. *)
Definition stored_margin (m : seat_model) : number :=
  let mg := marginRD (combinedPair m) in
  fround (if isFinite mg then mg else Num 0).

(** The baseline margins: those of the first [upSeats] seats that have a
    model, in key order, then 0 for the seats left. *)
Definition baseline_margins (c : chamber) (models : list (option seat_model))
    : list number :=
  let n := Z.to_nat (upSeats c) in
  let ms := take n (omap (fun m => stored_margin <$> m) models) in
  ms ++ replicate (n - length ms) (Num 0).

Definition chamber_models (dt : data) (c : chamber) (cachedIndNat : option pair)
    : list (option seat_model) :=
  match c with
  | house => map (getHouseModel dt) (sorted_keys (ratios (data_house dt)))
  | _ => map (fun k => getStateModel dt c k cachedIndNat)
           (sorted_keys (ratios (DATA_of dt c)))
  end.

(** [runSenateSimulation], [runGovernorSimulation] and [runHouseSimulation]
    (which takes no indicator): the counts before they are divided by
    [NUM_SIMS] and formatted. *)
Definition runSimulation (c : chamber) (dt : data) (cachedIndNat : option pair)
    (rnd : rng) : sim_result :=
  let margins := baseline_margins c (chamber_models dt c cachedIndNat) in
  let st := sim_loop NUM_SIMS (sim_trial c margins) rnd
              (sim_init (length margins) 0) in
  {| demControl := s_demControl st;
     seatSamples := s_samples st;
     seatWins := s_wins st;
     sims := NUM_SIMS;
     seatDistribution := buildSeatHistogram (s_samples st) c |}.

Definition runSenateSimulation := runSimulation senate.
Definition runGovernorSimulation := runSimulation governor.
Definition runHouseSimulation (dt : data) := runSimulation house dt None.
End CurrentDay.

(** Draws for one trial over 36 seats: the swing draw 0.5 (a swing of 0),
    then 19 seat draws of 0.25 and 17 of 0.75. *)
Definition tie_draws : rng :=
  fun k => if (k =? 0)%nat then Num 0.5
           else if (k <=? 19)%nat then Num 0.25 else Num 0.75.

(** The sum of the counts of a histogram, and the samples inside a range. *)
Definition sum_list (l : list Z) : Z := foldr Z.add 0%Z l.

Definition in_range (lo hi v : Z) : bool := (lo <=? v)%Z && (v <=? hi)%Z.

Definition count_in_range (lo hi : Z) (samples : list Z) : Z :=
  Z.of_nat (length (filter (fun v => Is_true (in_range lo hi v)) samples)).

(** A snapshot with no data at all, and a source of draws that always
    gives 0.5. *)
Definition no_chamber_data : chamber_data :=
  {| gb := None; ratios := ∅; polls := ∅ |}.

Definition no_data : data :=
  {| data_senate := no_chamber_data; data_governor := no_chamber_data;
     data_house := no_chamber_data |}.

Definition half_draws : rng := fun _ => Num 0.5.

(** ** Rolling poll windows *)

(** Reading an array of finite numbers: [undefined], hence NaN in the
    arithmetic that follows, outside the bounds. *)
Definition read_sum (ps : list Q) (i : nat) : number :=
  match ps !! i with Some q => Num q | None => NaN end.

(** Reading a [Float64Array] of sums. *)
Definition read_f64 (ps : list number) (i : nat) : number :=
  match ps !! i with Some x => x | None => NaN end.

(** [ps[0] = 0], [ps[j + 1] = ps[j] + v_j]: each sum is the binary64
    addition of the sum before and the value. *)
Fixpoint prefix_from (acc : number) (vals : list Q) : list number :=
  acc :: match vals with
         | [] => []
         | v :: vals' => prefix_from (Binary64.add acc (Num v)) vals'
         end.

Definition prefix_sums (vals : list Q) : list number := prefix_from (Num 0) vals.

(** [while (hi < m && dates[hi] <= dt) hi++], on the dates from [hi] on. *)
Fixpoint scan_dates (rest : list Z) (dt : Z) (hi : nat) : nat :=
  match rest with
  | d :: rest' => if (d <=? dt)%Z then scan_dates rest' dt (S hi) else hi
  | [] => hi
  end.

Definition advance (dates : list Z) (dt : Z) (hi : nat) : nat :=
  scan_dates (drop hi dates) dt hi.

(** [(ps[hi] - ps[lo]) / cnt], in binary64. *)
Definition window_mean (ps : list number) (lo hi : nat) : number :=
  Binary64.div (Binary64.sub (read_f64 ps hi) (read_f64 ps lo))
               (Num (inject_Z (Z.of_nat (hi - lo)))).

(** [x | 0] on an integer: the integer modulo [2^32], as a signed 32-bit
    integer. *)
Definition ToInt32 (x : Z) : Z := ((x + 2 ^ 31) mod 2 ^ 32 - 2 ^ 31)%Z.

Record poll_matrix := {
  pollDDay : list number;
  pollRDay : list number;
  nStates : nat;
  nDays : nat;
}.

Record row_state := { r_hi : nat; r_D : list number; r_R : list number }.

Section PollMatrix.
(** [parseDate]: the time value of the [Date] it returns, [None] for
    [null]. *)
Context (parseDate : string -> option Z).

(** The body of the loop over the days, for the seat of index [i].
    [hi - windowSize] is a subtraction on naturals: it is
    [Math.max(0, hi - windowSize)]. *)
Definition day_step (polls : list state_poll) (psD psR : list number)
    (windowSize nSt i : nat) (st : row_state) (day : nat) (dt : option Z)
    : row_state :=
  match dt with
  | None => st
  | Some t =>
      let hi := advance (map sp_date polls) t (r_hi st) in
      let lo := (hi - windowSize)%nat in
      let cnt := (hi - lo)%nat in
      if (cnt =? 0)%nat then {| r_hi := hi; r_D := r_D st; r_R := r_R st |}
      else
        {| r_hi := hi;
           r_D := <[(day * nSt + i)%nat := fround (window_mean psD lo hi)]> (r_D st);
           r_R := <[(day * nSt + i)%nat := fround (window_mean psR lo hi)]> (r_R st) |}
  end.

Fixpoint day_loop (polls : list state_poll) (psD psR : list number)
    (windowSize nSt i : nat) (dayDates : list (option Z)) (day : nat)
    (st : row_state) : row_state :=
  match dayDates with
  | [] => st
  | dt :: rest =>
      day_loop polls psD psR windowSize nSt i rest (S day)
        (day_step polls psD psR windowSize nSt i st day dt)
  end.

(** The body of the loop over the seats. *)
Definition seat_step (src : gmap string (list state_poll)) (windowSize nSt : nat)
    (dayDates : list (option Z)) (m : list number * list number) (i : nat)
    (k : string) : list number * list number :=
  match src !! k with
  | None | Some [] => m
  | Some polls =>
      let psD := prefix_sums (map sp_D polls) in
      let psR := prefix_sums (map sp_R polls) in
      let st := day_loop polls psD psR windowSize nSt i dayDates 0
                  {| r_hi := 0; r_D := fst m; r_R := snd m |} in
      (r_D st, r_R st)
  end.

Fixpoint seat_loop_pm (src : gmap string (list state_poll)) (windowSize nSt : nat)
    (dayDates : list (option Z)) (keys : list string) (i : nat)
    (m : list number * list number) : list number * list number :=
  match keys with
  | [] => m
  | k :: rest =>
      seat_loop_pm src windowSize nSt dayDates rest (S i)
        (seat_step src windowSize nSt dayDates m i k)
  end.

(** [buildPollMatrixForDays], given [STATE_POLL_DATA[modeKey]] ([None] when
    there is none). *)
Definition buildPollMatrixForDays (src : option (gmap string (list state_poll)))
    (keys : list string) (dateStrs : list string) (windowN : Z)
    : option poll_matrix :=
  match src with
  | None => None
  | Some src =>
      let nSt := length keys in
      let nD := length dateStrs in
      let nan := replicate (nSt * nD) NaN in
      let windowSize := Z.to_nat (Z.max 1 (ToInt32 windowN)) in
      let dayDates := map parseDate dateStrs in
      let m := seat_loop_pm src windowSize nSt dayDates keys 0 (nan, nan) in
      Some {| pollDDay := fst m; pollRDay := snd m; nStates := nSt; nDays := nD |}
  end.
End PollMatrix.

(** A poll of the generic ballot, after the filter of [calcLastNPollsSeries]:
    a date (in days) and two finite shares. *)
Record gb_poll := { gp_date : Z; gp_dem : Q; gp_rep : Q }.

(** A point of the series: [{date, dem, rep, count}]. *)
Record gb_mean := { gm_date : Z; gm_dem : number; gm_rep : number; gm_count : nat }.

(** [polls.sort((a, b) => a.date - b.date)]: the polls in date order, those
    of the same date in the order they had, the sort of the language being
    stable.  It is written as the insertion of each poll, from the last to
    the first, before the first poll that is not dated earlier. *)
Fixpoint insert_by_date (p : gb_poll) (sorted : list gb_poll) : list gb_poll :=
  match sorted with
  | [] => [p]
  | q :: rest =>
      if (gp_date p <=? gp_date q)%Z then p :: sorted
      else q :: insert_by_date p rest
  end.

Definition sort_by_date (polls : list gb_poll) : list gb_poll :=
  foldr insert_by_date [] polls.

(** The loop over the days [t0, t0 + 1, ...]: [days] counts the days left. *)
Fixpoint series_loop (dates : list Z) (psD psR : list number) (N : nat)
    (days : nat) (day : Z) (hi : nat) : list gb_mean :=
  match days with
  | O => []
  | S days' =>
      let hi' := advance dates day hi in
      let lo := (hi' - N)%nat in
      let cnt := (hi' - lo)%nat in
      let rest := series_loop dates psD psR N days' (day + 1)%Z hi' in
      if (cnt =? 0)%nat then rest
      else {| gm_date := day; gm_dem := window_mean psD lo hi';
              gm_rep := window_mean psR lo hi'; gm_count := cnt |} :: rest
  end.

(** [calcLastNPollsSeries]; [today] is the day the program runs. *)
Definition calcLastNPollsSeries (gbPolls : list gb_poll) (N : nat) (today : Z)
    : list gb_mean :=
  let polls := sort_by_date gbPolls in
  match polls with
  | [] => []
  | p0 :: _ =>
      let dates := map gp_date polls in
      let psD := prefix_sums (map gp_dem polls) in
      let psR := prefix_sums (map gp_rep polls) in
      let t0 := gp_date p0 in
      let lastPollDay := default t0 (last dates) in
      let t1 := if (lastPollDay <? today)%Z then today else lastPollDay in
      series_loop dates psD psR N (Z.to_nat (t1 - t0 + 1)) t0 0
  end.

(** ** The latest state polls *)

Definition STATE_POLL_DATA_t : Type := chamber -> gmap string (list state_poll).

Definition sum_Q (l : list Q) : Q := foldl Qplus 0 l.

(** The means over [polls.slice(-window)], [window] the lesser of
    [STATE_POLL_WINDOW] and the number of polls. *)
Definition latest_avg (pollsOf : list state_poll) : poll_avg :=
  let window := Nat.min (Z.to_nat STATE_POLL_WINDOW) (length pollsOf) in
  let recent := drop (length pollsOf - window) pollsOf in
  let n := inject_Z (Z.of_nat (length recent)) in
  {| poll_D := jdiv (Num (sum_Q (map sp_D recent))) (Num n);
     poll_R := jdiv (Num (sum_Q (map sp_R recent))) (Num n);
     poll_S := jdiv (Num (sum_Q (map (fun p => if Qis0 (sp_sigma p) then 3 else sp_sigma p)
                                   recent))) (Num n) |}.

Definition latest_polls (spd : gmap string (list state_poll)) : gmap string poll_avg :=
  omap (fun ps => match ps with [] => None | _ => Some (latest_avg ps) end) spd.

Definition apply_latest (spd : gmap string (list state_poll)) (cd : chamber_data)
    : chamber_data :=
  {| gb := gb cd; ratios := ratios cd; polls := latest_polls spd ∪ polls cd |}.

(** [applyLatestStatePollsToData]: for the senate and the governors, every
    seat with dated polls gets their latest average as its poll. *)
Definition applyLatestStatePollsToData (spd : STATE_POLL_DATA_t) (dt : data) : data :=
  {| data_senate := apply_latest (spd senate) (data_senate dt);
     data_governor := apply_latest (spd governor) (data_governor dt);
     data_house := data_house dt |}.






(** Sample inputs: dates of three days, a seat with three polls, a seat
    with none. *)
Definition sample_parseDate (s : string) : option Z :=
  if String.eqb s "2026-01-01" then Some 1%Z
  else if String.eqb s "2026-01-02" then Some 2%Z
  else if String.eqb s "2026-01-03" then Some 3%Z
  else None.

Definition sample_state_polls : gmap string (list state_poll) :=
  {[ "OH"%string :=
       [ {| sp_date := 2; sp_D := 44; sp_R := 47; sp_sigma := 3 |};
         {| sp_date := 2; sp_D := 46; sp_R := 45; sp_sigma := 3 |};
         {| sp_date := 3; sp_D := 45; sp_R := 48; sp_sigma := 3 |} ] ]}.

Definition sample_days : list string :=
  ["2026-01-01"; "2026-01-02"; "2026-01-03"]%string.

Definition sample_gb_polls : list gb_poll :=
  [ {| gp_date := 12; gp_dem := 47; gp_rep := 44 |};
    {| gp_date := 10; gp_dem := 45; gp_rep := 45 |};
    {| gp_date := 11; gp_dem := 46; gp_rep := 43 |} ].

(** Three polls of the same day, in the order the file gives them, and a
    later one. *)
Definition sample_same_day : list gb_poll :=
  [ {| gp_date := 5; gp_dem := 46; gp_rep := 44 |};
    {| gp_date := 5; gp_dem := 44; gp_rep := 46 |};
    {| gp_date := 5; gp_dem := 48; gp_rep := 42 |} ].

(** ** Odds over time *)

(** A point of the generic-ballot series handed to the engines. *)
Record gb_point := { gs_date : string; gs_dem : number; gs_rep : number }.

(** Reading a [Float32Array]: [undefined] outside the bounds, which is not
    finite. *)
Definition read_f32 (l : list number) (i : nat) : number := default NaN (l !! i).

(** What the precomputed arrays hold for a seat. *)
Record seat_static := {
  st_ratioD : number;
  st_ratioR : number;
  st_pollD0 : number;
  st_pollR0 : number;
}.

Definition seat_statics (cd : chamber_data) (k : string) : seat_static :=
  let rr := ratios cd !! k in
  let pp := polls cd !! k in
  {| st_ratioD := fround (match rr with
                          | Some r => if isFinite (D r) then D r else Num 1
                          | None => Num 1
                          end);
     st_ratioR := fround (match rr with
                          | Some r => if isFinite (R r) then R r else Num 1
                          | None => Num 1
                          end);
     st_pollD0 := fround (match pp with
                          | Some p => if isFinite (poll_D p) then poll_D p else NaN
                          | None => NaN
                          end);
     st_pollR0 := fround (match pp with
                          | Some p => if isFinite (poll_R p) then poll_R p else NaN
                          | None => NaN
                          end) |}.

(** The poll shares the engine uses for a seat on a day: those of the
    rolling window when both are finite, else those of the latest poll. *)
Definition day_poll_shares (pm : option poll_matrix) (day n i : nat)
    (s : seat_static) : number * number :=
  let '(pDi, pRi) :=
    match pm with
    | Some m =>
        let pd := read_f32 (pollDDay m) (day * n + i) in
        let pr := read_f32 (pollRDay m) (day * n + i) in
        if isFinite pd && isFinite pr then (pd, pr) else (NaN, NaN)
    | None => (NaN, NaN)
    end in
  if negb (isFinite pDi) || negb (isFinite pRi) then (st_pollD0 s, st_pollR0 s)
  else (pDi, pRi).

Definition day_poll_pair (pm : option poll_matrix) (day n i : nat)
    (s : seat_static) : option pair :=
  let '(pDi, pRi) := day_poll_shares pm day n i s in
  if isFinite pDi && isFinite pRi then Some (normalizePair pDi pRi) else None.

(** The combination written out in the engine. *)
Definition combine_inline (gbPair : pair) (pollPair indPair : option pair) : pair :=
  let wGb := w_gb WEIGHTS in
  let wPoll := w_polls WEIGHTS in
  let wInd := w_ind WEIGHTS in
  let '(wd, wr, w) := (Num 0, Num 0, Num 0) in
  let '(wd, wr, w) :=
    if jgt wGb (Num 0)
    then (jadd wd (jmul wGb (D gbPair)), jadd wr (jmul wGb (R gbPair)), jadd w wGb)
    else (wd, wr, w) in
  let '(wd, wr, w) :=
    match pollPair with
    | Some p =>
        if jgt wPoll (Num 0)
        then (jadd wd (jmul wPoll (D p)), jadd wr (jmul wPoll (R p)), jadd w wPoll)
        else (wd, wr, w)
    | None => (wd, wr, w)
    end in
  let '(wd, wr, w) :=
    match indPair with
    | Some p =>
        if jgt wInd (Num 0)
        then (jadd wd (jmul wInd (D p)), jadd wr (jmul wInd (R p)), jadd w wInd)
        else (wd, wr, w)
    | None => (wd, wr, w)
    end in
  if jgt w (Num 0) then normalizePair (jdiv wd w) (jdiv wr w) else neutral_pair.

(** The margin of a seat on a day, given the poll pair of the day. *)
Definition margin_from_poll (gbd gbr : number) (s : seat_static)
    (cachedIndNat : option pair) (pollPair : option pair) : number :=
  let gbPair := normalizePair (jmul gbd (st_ratioD s)) (jmul gbr (st_ratioR s)) in
  let indD := match cachedIndNat with Some p => D p | None => NaN end in
  let indR := match cachedIndNat with Some p => R p | None => NaN end in
  let indPair :=
    if isFinite indD && isFinite indR
    then Some (normalizePair (jmul indD (st_ratioD s)) (jmul indR (st_ratioR s)))
    else None in
  let comb := combine_inline gbPair pollPair indPair in
  fround (jsub (R comb) (D comb)).

(** The margin of seat [i] on day [day]. *)
Definition seat_day_margin (gbd gbr : number) (pm : option poll_matrix)
    (day n i : nat) (s : seat_static) (cachedIndNat : option pair) : number :=
  margin_from_poll gbd gbr s cachedIndNat (day_poll_pair pm day n i s).

(** The pair of the latest poll of a seat, as the engine reads it from its
    [Float32Array]s: the means over the last polls of the whole period. *)
Definition latest_pair (pollsOf : list state_poll) : option pair :=
  let a := latest_avg pollsOf in
  let d := fround (poll_D a) in
  let r := fround (poll_R a) in
  if isFinite d && isFinite r then Some (normalizePair d r) else None.

Record day_result := {
  dr_date : string;
  dr_demControl : Z;
  dr_sumDSeats : Z;
  dr_margins : list number;
  dr_stateDemWins : list Z;
}.

Section OddsOverTime.
Context `{MathLib} (parseDate : string -> option Z).

Definition day_margins (cd : chamber_data) (ratioKeys : list string)
    (pm : option poll_matrix) (cachedIndNat : option pair) (day : nat)
    (g : gb_point) : list number :=
  imap (fun i k =>
          seat_day_margin (gs_dem g) (gs_rep g) pm day (length ratioKeys) i
            (seat_statics cd k) cachedIndNat)
       ratioKeys.

(** The loop over the days; the draws go on from one day to the next. *)
Fixpoint odds_days (modeKey : chamber) (cd : chamber_data) (ratioKeys : list string)
    (pm : option poll_matrix) (cachedIndNat : option pair) (rnd : rng)
    (gbSeries : list gb_point) (day pos : nat) : list day_result :=
  match gbSeries with
  | [] => []
  | g :: rest =>
      let margins := day_margins cd ratioKeys pm cachedIndNat day g in
      let st := sim_loop NUM_SIMS (odds_trial modeKey margins) rnd
                  (sim_init (length ratioKeys) pos) in
      {| dr_date := gs_date g; dr_demControl := s_demControl st;
         dr_sumDSeats := s_sumDSeats st; dr_margins := margins;
         dr_stateDemWins := s_wins st |}
      :: odds_days modeKey cd ratioKeys pm cachedIndNat rnd rest (S day) (s_pos st)
  end.

(** [runOddsOverTimeState]: per day, the counts before they are divided by
    [NUM_SIMS] and formatted, with the margins of the day. *)
Definition runOddsOverTimeState (dt : data) (spd : STATE_POLL_DATA_t)
    (modeKey : chamber) (gbSeries : list gb_point) (cachedIndNat : option pair)
    (rnd : rng) : list day_result :=
  let cd := DATA_of dt modeKey in
  let ratioKeys := sorted_keys (ratios cd) in
  let dates := map gs_date gbSeries in
  let pm := buildPollMatrixForDays parseDate (Some (spd modeKey)) ratioKeys dates
              STATE_POLL_WINDOW in
  odds_days modeKey cd ratioKeys pm cachedIndNat rnd gbSeries 0 0.

(** The margins [runOddsOverTimeHouse] computes for a day, from the point
    of the series and the ratios alone. *)
Definition house_day_margins (dt : data) (g : gb_point) : list number :=
  let ratioKeys := sorted_keys (ratios (data_house dt)) in
  let ratio_of (proj : pair -> number) (k : string) : number :=
    match ratios (data_house dt) !! k with
    | Some rr => if isFinite (proj rr) then proj rr else Num 1
    | None => Num 1
    end in
  let ratioD := map (ratio_of D) ratioKeys in
  let ratioR := map (ratio_of R) ratioKeys in
  let d0 := gs_dem g in
  let r0 := gs_rep g in
  map (fun k : nat =>
         match ratioD !! k, ratioR !! k with
         | Some a, Some b =>
             let den := jadd (jmul d0 a) (jmul r0 b) in
             fround (if jgt den (Num 0)
                     then jdiv (jmul (Num 100) (jsub (jmul r0 b) (jmul d0 a))) den
                     else Num 0)
         | _, _ => Num 0
         end)
      (seq 0 (Z.to_nat (total (SEAT_RULES house)))).
End OddsOverTime.

(** The snapshot [dt] with the latest polls of the house replaced by [p]. *)
Definition with_house_polls (p : gmap string poll_avg) (dt : data) : data :=
  {| data_senate := data_senate dt;
     data_governor := data_governor dt;
     data_house := {| gb := gb (data_house dt); ratios := ratios (data_house dt);
                      polls := p |} |}.

(** Sample inputs: one senate seat with a level ratio, a generic ballot of
    48 to 46 on the three sample days, and the Ohio polls of the sample,
    all dated after the first day. *)
Definition sample_data : data :=
  {| data_senate := {| gb := None;
                       ratios := {[ "OH"%string := {| D := Num 1; R := Num 1 |} ]};
                       polls := ∅ |};
     data_governor := no_chamber_data;
     data_house := no_chamber_data |}.

Definition sample_spd : STATE_POLL_DATA_t :=
  fun c => match c with senate => sample_state_polls | _ => ∅ end.




(** ** Columnar encoding *)

(** A point [{date, pDem, margin}] of a seat's series. *)
Record odds_point := { op_date : string; op_pDem : number; op_margin : number }.

(** The encoded series of a seat: [{s, p, m}] or [{i, p, m}].  An index is
    what [dateIndex[entry.date]] gave: [None] for [undefined]. *)
Inductive encoded :=
  | Dense (s : option nat) (p m : list number)
  | Sparse (i : list (option nat)) (p m : list number).

Record columnar := {
  col_dates : list string;
  col_states : gmap string encoded;
}.

(** [Object.fromEntries(dates.map((d, i) => [d, i]))]: a later entry
    replaces an earlier one with the same key. *)
Fixpoint index_from (i : nat) (dates : list string) (acc : gmap string nat)
    : gmap string nat :=
  match dates with
  | [] => acc
  | d :: rest => index_from (S i) rest (<[d := i]> acc)
  end.

Definition date_index (dates : list string) : gmap string nat :=
  index_from 0 dates ∅.

(** [v === indices[i - 1] + 1] for every [i] but the first. *)
Fixpoint consecutive (prev : option nat) (l : list (option nat)) : bool :=
  match l with
  | [] => true
  | v :: rest =>
      match prev, v with
      | Some a, Some b => (b =? a + 1)%nat && consecutive v rest
      | _, _ => false
      end
  end.

Definition isDense (indices : list (option nat)) : bool :=
  match indices with
  | [] => false
  | first :: rest =>
      match first, last indices with
      | Some f, Some (Some l) =>
          (Z.of_nat (length indices) =? Z.of_nat l - Z.of_nat f + 1)%Z
          && consecutive first rest
      | _, _ => false
      end
  end.

Definition encode_seat (dateIndex : gmap string nat) (arr : list odds_point)
    : encoded :=
  let indices := map (fun e => dateIndex !! op_date e) arr in
  let pDem := map op_pDem arr in
  let margin := map op_margin arr in
  if isDense indices then Dense (default None (head indices)) pDem margin
  else Sparse indices pDem margin.

(** The dates of all the series, each once ([Set]), then sorted. *)
Definition all_dates (stateOddsMap : gmap string (list odds_point)) : list string :=
  merge_sort key_le
    (remove_dups (mjoin (map (fun kv => map op_date (snd kv))
                           (map_to_list stateOddsMap)))).

Definition encodeStateOddsColumnar (stateOddsMap : gmap string (list odds_point))
    : columnar :=
  let dates := all_dates stateOddsMap in
  let dateIndex := date_index dates in
  {| col_dates := dates; col_states := encode_seat dateIndex <$> stateOddsMap |}.

(** Modelled from the spec: the decoder is not part of the program.  The
    dense form [{s, p, m}] is read as the consecutive shared-index dates
    [s, s + 1, ...] paired with the values of [p] and [m]; the sparse form
    [{i, p, m}] as [dates[i[k]]] paired with [p[k]] and [m[k]].  A date that
    the shared index does not have makes the decoding fail. *)
Definition decode_points (ds : list (option string)) (p m : list number)
    : option (list odds_point) :=
  mapM (fun x : option string * (number * number) =>
          (fun d => {| op_date := d; op_pDem := fst (snd x); op_margin := snd (snd x) |})
            <$> fst x)
       (zip ds (zip p m)).

Definition decode_seat (dates : list string) (e : encoded) : option (list odds_point) :=
  match e with
  | Dense s p m =>
      decode_points
        (map (fun k => s ≫= fun s0 => dates !! (s0 + k)%nat) (seq 0 (length p))) p m
  | Sparse i p m =>
      decode_points (map (fun io => io ≫= fun i0 => dates !! i0) i) p m
  end.

(** Two short series over three dates: one on consecutive dates, one with
    a gap. *)
Definition sample_odds : gmap string (list odds_point) :=
  {[ "AZ"%string :=
       [ {| op_date := "2026-01-02"; op_pDem := Num 0.61; op_margin := Num (-2.1) |};
         {| op_date := "2026-01-03"; op_pDem := Num 0.64; op_margin := Num (-2.6) |} ];
     "CA"%string :=
       [ {| op_date := "2026-01-01"; op_pDem := Num 0.99; op_margin := Num (-21) |};
         {| op_date := "2026-01-03"; op_pDem := Num 0.98; op_margin := Num (-20.5) |} ] ]}.

(** ** The probability model on finite values *)

(** The functions of the probability model send finite numbers to finite
    numbers; these are their values on rationals, to reason with. *)

Definition Qclamp (x a b : Q) : Q :=
  let m := if Qltb x b then x else b in
  if Qltb a m then m else a.

(** The polynomial factor of [erf] at [x >= 0], and [erf] on a rational. *)
Definition erf_t (x : Q) : Q := 1 / (1 + 0.3275911 * x).

Definition erf_poly (x : Q) : Q :=
  let t := erf_t x in
  ((((1.061405429 * t + -1.453152027) * t + 1.421413741) * t + -0.284496736) * t
   + 0.254829592) * t.

Section OnRationals.
Context `{MathLib}.

Definition erf_Q (x : Q) : Q :=
  (if Qltb x 0 then -1 else 1)
  * (1 + - (erf_poly (Qabs x) * exp_Q (- Qabs x * Qabs x))).

Definition normalCDF_Q (x : Q) : Q :=
  0.5 * (1 + erf_Q (x / 1.4142135623730951)).

Definition pR_Q (m : Q) : Q := Qclamp (normalCDF_Q (m / 7)) 0 1.
Definition pD_Q (m : Q) : Q := 1 + - pR_Q m.

(** What is checked, by evaluation, of the polynomial factors at two
    consecutive arguments [x <= y] of [erf]. *)
Definition erf_step_ok (x y : Q) : bool :=
  let cx := erf_poly (Qabs x) in
  let cy := erf_poly (Qabs y) in
  Qle_bool 0 cx && Qle_bool cx 1 && Qle_bool 0 cy && Qle_bool cy 1
  && (if Qltb x 0 then (if Qltb y 0 then Qle_bool cx cy else true)
      else Qle_bool cy cx).

(** The margin of table index [i], and the argument [erf] gets for it. *)
Definition WINP_margin (i : nat) : Q := -40 + inject_Z (Z.of_nat i) * 0.1.
Definition WINP_erf_arg (i : nat) : Q := WINP_margin i / 7 / 1.4142135623730951.

End OnRationals.

(** The index [winProbD_fast] reads for a finite margin. *)
Definition WINP_index (m : Q) : Z :=
  Qround_half_up ((Qclamp m (-40) 40 + - -40) / 0.1).


(** The step of the loop of [weightedCombine] on a component it does not
    skip. *)
Definition combine_active (a : combine_acc) (pw : pair * number) : combine_acc :=
  {| acc_W := jadd (acc_W a) (snd pw);
     acc_D := jadd (acc_D a) (jmul (snd pw) (D (fst pw)));
     acc_R := jadd (acc_R a) (jmul (snd pw) (R (fst pw))) |}.

(** ** Reported figures *)

(** [+x.toFixed(f)]: the number nearest to [x] among the multiples of
    [10^-f], the one farther from 0 of two equally near; numbers of
    magnitude [10^21] and more, and the non-finite values, come back as
    they are. *)
Definition toFixed (f : nat) (x : number) : number :=
  match x with
  | Num a =>
      let b := Qabs a in
      if Qle_bool (inject_Z (10 ^ 21)) b then Num a
      else
        let scale := inject_Z (10 ^ Z.of_nat f) in
        let r := inject_Z (Qfloor (b * scale + (1 # 2))) / scale in
        Num (if Qltb a 0 then - r else r)
  | _ => x
  end.

Definition num_of_Z (z : Z) : number := Num (inject_Z z).

(** The figures a current-day simulator returns beside the histogram. *)
Record chamber_report := {
  cr_pDem : number;
  cr_pRep : number;
  cr_expectedDSeats : number;
}.

Definition report (r : sim_result) : chamber_report :=
  let n := num_of_Z (Z.of_nat NUM_SIMS) in
  {| cr_pDem := toFixed 4 (jdiv (num_of_Z (demControl r)) n);
     cr_pRep := toFixed 4 (jdiv (jsub n (num_of_Z (demControl r))) n);
     cr_expectedDSeats :=
       toFixed 1 (jdiv (num_of_Z (foldl Z.add 0%Z (seatSamples r))) n) |}.

(** An entry [{pDem, margin}] of [perState]. *)
Record seat_report := { sr_pDem : number; sr_margin : number }.

(** The seats the second loop of a simulator reports: the first [upSeats]
    seats that have a model, in key order. *)
Definition reported_seats `{MathLib} (c : chamber) (keys : list string)
    (models : list (option seat_model)) : list (string * seat_model) :=
  take (Z.to_nat (upSeats c))
    (omap (fun km : string * option seat_model => (fun m => (fst km, m)) <$> snd km)
       (zip keys models)).

Definition chamber_keys (dt : data) (c : chamber) : list string :=
  sorted_keys (ratios (DATA_of dt c)).

(** The entries of [perState], in the order the loop writes them: the win
    share of the seat's counter and the margin of its model, to two
    decimals. *)
Definition perState_entries `{MathLib} (c : chamber) (dt : data)
    (cachedIndNat : option pair) (r : sim_result) : list (string * seat_report) :=
  imap (fun idx (km : string * seat_model) =>
          (fst km,
           {| sr_pDem :=
                toFixed 4 (jdiv (num_of_Z (default 0%Z (seatWins r !! idx)))
                                (num_of_Z (Z.of_nat NUM_SIMS)));
              sr_margin := toFixed 2 (marginRD (combinedPair (snd km))) |}))
       (reported_seats c (chamber_keys dt c) (chamber_models dt c cachedIndNat)).

(** [obj[k] = v] for every entry in turn. *)
Definition assign_all {A} (entries : list (string * A)) : gmap string A :=
  foldl (fun (acc : gmap string A) (e : string * A) => <[fst e := snd e]> acc) ∅ entries.

Definition perState `{MathLib} (c : chamber) (dt : data) (cachedIndNat : option pair)
    (r : sim_result) : gmap string seat_report :=
  assign_all (perState_entries c dt cachedIndNat r).

(** The trials of a loop, as the proofs see them: [m] seats, a seat total
    that is the base plus the seats won, and a control test on the total. *)
Definition trial_spec (base : Z) (m : nat) (line : Z -> bool) (t : trial) : Prop :=
  length (t_wins t) = m
  /\ t_dSeats t = (base + count_wins (t_wins t))%Z
  /\ t_control t = line (t_dSeats t).

(** The number of samples that pass a test. *)
Definition count_if (f : Z -> bool) (samples : list Z) : Z :=
  Z.of_nat (length (filter (fun v => Is_true (f v)) samples)).

(** ** Figures of the odds over time *)

(** A point [{date, pDem, expDem}] of the chamber series. *)
Record odds_result := { or_date : string; or_pDem : number; or_expDem : number }.

(** [results]: the counts of every day over [NUM_SIMS], as rounded. *)
Definition odds_chamber (days : list day_result) : list odds_result :=
  map (fun r =>
         {| or_date := dr_date r;
            or_pDem := toFixed 4 (jdiv (num_of_Z (dr_demControl r))
                                       (num_of_Z (Z.of_nat NUM_SIMS)));
            or_expDem := toFixed 1 (jdiv (num_of_Z (dr_sumDSeats r))
                                         (num_of_Z (Z.of_nat NUM_SIMS))) |})
      days.

(** [perStateResults]: for every seat the points pushed day after day. *)
Definition odds_perState (ratioKeys : list string) (days : list day_result)
    : gmap string (list odds_point) :=
  assign_all
    (imap (fun i k =>
             (k, map (fun r =>
                        {| op_date := dr_date r;
                           op_pDem :=
                             toFixed 4 (jdiv (num_of_Z (default 0%Z (dr_stateDemWins r !! i)))
                                             (num_of_Z (Z.of_nat NUM_SIMS)));
                           op_margin := toFixed 2 (read_f32 (dr_margins r) i) |})
                     days))
          ratioKeys).

(** What the engine keeps of a day: the tallies of [NUM_SIMS] trials over
    the seats of the chamber that have a ratio. *)
Definition day_tallies_ok (c : chamber) (n : nat) (r : day_result) : Prop :=
  (0 <= dr_demControl r <= Z.of_nat NUM_SIMS)%Z
  /\ (Z.of_nat NUM_SIMS * baseD (SEAT_RULES c) <= dr_sumDSeats r
      <= Z.of_nat NUM_SIMS * (baseD (SEAT_RULES c) + Z.of_nat n))%Z
  /\ length (dr_margins r) = n
  /\ length (dr_stateDemWins r) = n
  /\ Forall (fun w => (0 <= w <= Z.of_nat NUM_SIMS)%Z) (dr_stateDemWins r)
  /\ sum_list (dr_stateDemWins r)
     = (dr_sumDSeats r - Z.of_nat NUM_SIMS * baseD (SEAT_RULES c))%Z.
(** ** The national indicator *)

#[export] Instance Qle_decision (a b : Q) : Decision (a <= b) :=
  match Qlt_le_dec b a with
  | left Hlt => right (Qlt_not_le _ _ Hlt)
  | right Hle => left Hle
  end.

(** [arr.filter(x => isFinite(x))]: the finite entries, as rationals. *)
Definition finite_values (arr : list number) : list Q :=
  omap (fun x => match x with Num q => Some q | _ => None end) arr.

(** [median]: the finite entries in ascending order ([sort] with the
    comparator [x - y]), then the middle one, or the mean of the two middle
    ones; NaN when no entry is finite. *)
Definition median (arr : list number) : number :=
  let a := merge_sort Qle (finite_values arr) in
  let n := length a in
  if (n =? 0)%nat then NaN
  else
    let mid := (n / 2)%nat in
    if (n mod 2 =? 1)%nat then read_sum a mid
    else jdiv (jadd (read_sum a (mid - 1)) (read_sum a mid)) (Num 2).





(** ** Downsampling of the per-seat series *)

(** [Math.min(...vals)] and [Math.max(...vals)]: NaN when a value is NaN. *)
Definition Math_min_all (vals : list number) : number := foldl Math_min PosInf vals.
Definition Math_max_all (vals : list number) : number := foldl Math_max NegInf vals.

(** The step chosen for a series: 7 when its pDem values span less than
    0.02, 3 when they span less than 0.05, none otherwise. *)
Definition downsample_step (arr : list odds_point) : option nat :=
  let vals := map op_pDem arr in
  let range := jsub (Math_max_all vals) (Math_min_all vals) in
  if jlt range (Num 0.02) then Some 7%nat
  else if jlt range (Num 0.05) then Some 3%nat
  else None.

(** The points at index 0, at the last index and at the multiples of
    [step]. *)
Definition keep_every (step : nat) (arr : list odds_point) : list odds_point :=
  omap id
    (imap (fun i x =>
             if (i =? 0)%nat || (i =? length arr - 1)%nat || (i mod step =? 0)%nat
             then Some x else None)
          arr).

Definition downsample (arr : list odds_point) : list odds_point :=
  if (length arr <=? 2)%nat then arr
  else
    match downsample_step arr with
    | Some step => keep_every step arr
    | None => arr
    end.

Definition downsampleStateOdds (stateOddsMap : gmap string (list odds_point))
    : gmap string (list odds_point) :=
  downsample <$> stateOddsMap.

(** ** House districts over time *)






Section HouseDistricts.
Context `{MathLib}.


End HouseDistricts.

(** Sample input: a series of four days whose chances span 0.01. *)
Definition flat_series : list odds_point :=
  [ {| op_date := "2026-01-01"; op_pDem := Num 0.97; op_margin := Num (-14) |};
    {| op_date := "2026-01-02"; op_pDem := Num 0.975; op_margin := Num (-14.2) |};
    {| op_date := "2026-01-03"; op_pDem := Num 0.98; op_margin := Num (-14.5) |};
    {| op_date := "2026-01-04"; op_pDem := Num 0.97; op_margin := Num (-14) |} ].
(** ** CSV parser *)

(** Text.  A JavaScript string is modelled by the list of its code units;
    the text read by the program is Latin-1, a code unit is an [ascii]. *)
Abbreviation code_unit := Ascii.ascii (only parsing).
Abbreviation jstring := (list Ascii.ascii) (only parsing).

Definition quote_char : code_unit := Ascii.ascii_of_nat 34.
Definition comma_char : code_unit := Ascii.ascii_of_nat 44.
Definition lf_char : code_unit := Ascii.ascii_of_nat 10.
Definition cr_char : code_unit := Ascii.ascii_of_nat 13.

Definition is_quote (c : code_unit) : bool := Ascii.eqb c quote_char.
Definition is_comma (c : code_unit) : bool := Ascii.eqb c comma_char.

(** The white space and line terminators that [trim] removes, among the
    code units below 256: TAB, LF, VT, FF, CR, SP and NBSP. *)
Definition is_space (c : code_unit) : bool :=
  let n := Ascii.nat_of_ascii c in
  ((9 <=? n) && (n <=? 13) || (n =? 32) || (n =? 160))%nat.

Fixpoint trimStart (s : jstring) : jstring :=
  match s with
  | c :: r => if is_space c then trimStart r else s
  | [] => []
  end.

Definition trimEnd (s : jstring) : jstring := rev (trimStart (rev s)).

Definition trim (s : jstring) : jstring := trimEnd (trimStart s).

(** The loop of [parseCSVLine] from the code unit it has reached: [current]
    is the field being read, [inQuotes] the mode, [result] the fields
    pushed so far.  A doubled quote inside quotes takes two code units. *)
Fixpoint csv_fields (line : jstring) (current : jstring) (inQuotes : bool)
    (result : list jstring) : list jstring :=
  match line with
  | [] => result ++ [trim current]
  | ch :: rest =>
      if inQuotes then
        if is_quote ch then
          match rest with
          | ch2 :: rest2 =>
              if is_quote ch2 then csv_fields rest2 (current ++ [quote_char]) true result
              else csv_fields rest current false result
          | [] => csv_fields rest current false result
          end
        else csv_fields rest (current ++ [ch]) true result
      else
        if is_quote ch then csv_fields rest current true result
        else if is_comma ch then csv_fields rest [] false (result ++ [trim current])
        else csv_fields rest (current ++ [ch]) false result
  end.

Definition parseCSVLine (line : jstring) : list jstring := csv_fields line [] false [].

(** [text.split(/\r?\n/)]: the pieces between line feeds, a carriage
    return just before a line feed belonging to the separator. *)
Fixpoint split_lines (text : jstring) (current : jstring) : list jstring :=
  match text with
  | [] => [current]
  | c :: rest =>
      if Ascii.eqb c lf_char then current :: split_lines rest []
      else if Ascii.eqb c cr_char then
        match rest with
        | c2 :: rest2 =>
            if Ascii.eqb c2 lf_char then current :: split_lines rest2 []
            else split_lines rest (current ++ [c])
        | [] => split_lines rest (current ++ [c])
        end
      else split_lines rest (current ++ [c])
  end.

(** The name no row can hold as a key of its own: assigning a string to
    [obj["__proto__"]] does nothing. *)
Definition proto_key : jstring := String.list_ascii_of_string "__proto__".

(** [obj[headers[j]] = vals[j] || ""] for every header in turn: a later
    column replaces an earlier one of the same name, a missing or empty
    cell reads as the empty string. *)
Definition row_of (headers vals : list jstring) : gmap jstring jstring :=
  foldl (fun (obj : gmap jstring jstring) (e : nat * jstring) =>
           if bool_decide (snd e = proto_key) then obj
           else <[snd e := default [] (vals !! fst e)]> obj)
        ∅ (imap (fun j h => (j, h)) headers).

Definition is_blank (line : jstring) : bool :=
  match trim line with [] => true | _ => false end.

Definition parseCSV (text : jstring) : list (gmap jstring jstring) :=
  let lines := split_lines text [] in
  if (length lines <? 2)%nat then []
  else
    match lines with
    | [] => []
    | first :: rest =>
        let headers := parseCSVLine first in
        omap (fun line =>
                if is_blank line then None
                else Some (row_of headers (parseCSVLine line)))
             rest
    end.

(** A field as a CSV writer quotes it: between quotes, every quote of the
    text doubled; and the fields of a line joined by commas. *)
Definition csv_escape (f : jstring) : jstring :=
  mjoin (map (fun c => if is_quote c then [quote_char; quote_char] else [c]) f).

Definition csv_quote (f : jstring) : jstring :=
  quote_char :: csv_escape f ++ [quote_char].

Fixpoint join_commas (fields : list jstring) : jstring :=
  match fields with
  | [] => []
  | [f] => f
  | f :: rest => f ++ comma_char :: join_commas rest
  end.

(** The number of commas of a text. *)
Definition count_commas (s : jstring) : nat :=
  length (filter (fun c => is_comma c = true) s).

(** The lines after the first that are not blank, in order. *)
Definition data_lines (rest : list jstring) : list jstring :=
  filter (fun l => is_blank l = false) rest.
(** The polls the latest average is taken over: the last
    [STATE_POLL_WINDOW], or all when there are fewer. *)
Definition recent_polls (pollsOf : list state_poll) : list state_poll :=
  drop (length pollsOf - Nat.min (Z.to_nat STATE_POLL_WINDOW) (length pollsOf)) pollsOf.

(** ** The history of snapshots *)

(** ** Pollster allowlist *)

Definition amp_char : code_unit := Ascii.ascii_of_nat 38.

(** [toLowerCase] on a code unit below 256: A-Z and the capital letters of
    Latin-1 (192-222 but the multiplication sign) move up by 32. *)
Definition toLowerCase_unit (c : code_unit) : code_unit :=
  let n := Ascii.nat_of_ascii c in
  if ((65 <=? n) && (n <=? 90) || (192 <=? n) && (n <=? 222) && negb (n =? 215))%nat
  then Ascii.ascii_of_nat (n + 32) else c.

Definition toLowerCase (s : jstring) : jstring := map toLowerCase_unit s.

(** [.replace(/&/g, "and")] *)
Definition replace_amp (s : jstring) : jstring :=
  flat_map (fun c : code_unit =>
              if Ascii.eqb c amp_char then String.list_ascii_of_string "and" else [c]) s.

(** The class [[a-z0-9]]. *)
Definition is_lower_alnum (c : code_unit) : bool :=
  let n := Ascii.nat_of_ascii c in
  ((97 <=? n) && (n <=? 122) || (48 <=? n) && (n <=? 57))%nat.

(** The class [\w] of a regular expression: [[A-Za-z0-9_]]. *)
Definition is_word (c : code_unit) : bool :=
  let n := Ascii.nat_of_ascii c in
  ((97 <=? n) && (n <=? 122) || (65 <=? n) && (n <=? 90)
   || (48 <=? n) && (n <=? 57) || (n =? 95))%nat.

(** [.replace(/[^a-z0-9]+/g, "")] *)
Definition strip_non_alnum (s : jstring) : jstring :=
  List.filter is_lower_alnum s.

Definition normPollster (s : jstring) : jstring :=
  strip_non_alnum (replace_amp (toLowerCase s)).

(** One alternative of a pattern of [AP]: a word, or a word followed by
    the word boundary [\b]. *)
Inductive alternative :=
  | Lit (w : jstring)
  | LitB (w : jstring).

(** What is left of [s] after the word [w] at its start. *)
Fixpoint starts_with (w s : jstring) : option jstring :=
  match w, s with
  | [], _ => Some s
  | c :: w', d :: s' => if Ascii.eqb c d then starts_with w' s' else None
  | _ :: _, [] => None
  end.

Definition word_side (c : option code_unit) : bool :=
  match c with Some c => is_word c | None => false end.

(** The alternative matched at the start of [s]; [\b] holds where exactly
    one of the code units on its two sides is a word character. *)
Definition match_here (a : alternative) (s : jstring) : bool :=
  match a with
  | Lit w => bool_decide (is_Some (starts_with w s))
  | LitB w =>
      match starts_with w s with
      | Some rest => xorb (word_side (last w)) (word_side (head rest))
      | None => false
      end
  end.

(** The alternative matched somewhere in [s]. *)
Fixpoint test_alt (a : alternative) (s : jstring) : bool :=
  match_here a s || match s with
                    | [] => false
                    | _ :: s' => test_alt a s'
                    end.

(** [pattern.test(n)] for a pattern that is a choice of alternatives. *)
Definition test (pattern : list alternative) (n : jstring) : bool :=
  existsb (fun a => test_alt a n) pattern.

Definition lit (w : string) : alternative := Lit (String.list_ascii_of_string w).

Definition AP : list (list alternative) :=
  [ [lit "yougov"]; [lit "verasight"]; [lit "ipsos"];
    [lit "americanresearchgroup"; LitB (String.list_ascii_of_string "arg")];
    [lit "tipp"]; [lit "emerson"]; [lit "gallup"]; [lit "marist"];
    [lit "quinnipiac"]; [lit "apnorc"; lit "ap-norc"; lit "norc"];
    [lit "marquette"]; [lit "cnnssrs"; lit "cnn/ssrs"; lit "ssrs"];
    [lit "atlasintel"; lit "atlas"]; [lit "beaconresearch"; lit "shaw"];
    [lit "hartresearch"; lit "publicopinionstrategies"]; [lit "pewresearch"; lit "pew"];
    [lit "surveymonkey"]; [lit "leger"];
    [lit "massachusetts"; lit "umass"; lit "departmentofpoliticalscience"];
    [lit "siena"; lit "newyorktimes"]; [lit "foxnews"];
    [lit "wallstreetjournal"; lit "wsj"] ]%string.

Definition isAllowedPollster (pollster : jstring) : bool :=
  let n := normPollster pollster in
  match n with
  | [] => false
  | _ => existsb (fun x => test x n) AP
  end.

(** The words of [AP] that a normalised name can contain. *)
Definition allowed_words : list jstring :=
  map String.list_ascii_of_string
    [ "yougov"; "verasight"; "ipsos"; "americanresearchgroup"; "tipp"; "emerson";
      "gallup"; "marist"; "quinnipiac"; "apnorc"; "norc"; "marquette"; "cnnssrs";
      "ssrs"; "atlasintel"; "atlas"; "beaconresearch"; "shaw"; "hartresearch";
      "publicopinionstrategies"; "pewresearch"; "pew"; "surveymonkey"; "leger";
      "massachusetts"; "umass"; "departmentofpoliticalscience"; "siena";
      "newyorktimes"; "foxnews"; "wallstreetjournal"; "wsj" ]%string.

(** A word is in a name where the name is some text, the word, some text. *)
Definition contains (w n : jstring) : Prop := exists before after, n = before ++ w ++ after.

(** What an alternative asks of a normalised name. *)
Definition asks (a : alternative) (n : jstring) : Prop :=
  match a with
  | Lit w => forallb is_lower_alnum w = true /\ contains w n
  | LitB w => exists before, n = before ++ w
  end.

#[global] Instance alternative_eq_dec : EqDecision alternative.
Proof. solve_decision. Defined.

(** The alternatives of [AP] against the words of [allowed_words]. *)
Definition word_of_AP (a : alternative) : bool :=
  match a with
  | Lit w => implb (forallb is_lower_alnum w) (bool_decide (w ∈ allowed_words))
  | LitB w => bool_decide (w = String.list_ascii_of_string "arg")
  end.

Definition word_in_AP (w : jstring) : bool :=
  bool_decide (Lit w ∈ concat AP) && forallb is_lower_alnum w.

(** The word before a boundary ends in a word character. *)
Definition boundary_ok (a : alternative) : bool :=
  match a with
  | Lit _ => true
  | LitB w => word_side (last w)
  end.


(** * Properties *)

(** ** Comparisons on rationals *)

Lemma Qltb_lt a b : Qltb a b = true <-> a < b.
Proof.
  unfold Qltb. rewrite negb_true_iff. split; intros Hab.
  - apply Qnot_le_lt. intros Hle. apply Qle_bool_iff in Hle. congruence.
  - destruct (Qle_bool b a) eqn:E; [|reflexivity].
    apply Qle_bool_iff in E. lra.
Qed.

Lemma Qltb_ge a b : Qltb a b = false <-> b <= a.
Proof.
  unfold Qltb. rewrite negb_false_iff. apply Qle_bool_iff.
Qed.

Lemma Qle_bool_gt a b : Qle_bool a b = false <-> b < a.
Proof.
  split; intros Hab.
  - apply Qnot_le_lt. intros Hle. apply Qle_bool_iff in Hle. congruence.
  - destruct (Qle_bool a b) eqn:E; [|reflexivity].
    apply Qle_bool_iff in E. lra.
Qed.

Lemma Qis0_true a : Qis0 a = true <-> a == 0.
Proof.
  unfold Qis0, Qeq. destruct a as [n d]; simpl. rewrite Z.eqb_eq. lia.
Qed.

Lemma Qis0_false a : Qis0 a = false <-> ~ a == 0.
Proof.
  rewrite <- Qis0_true. destruct (Qis0 a); split; congruence.
Qed.


Lemma num_eq_sym x y : num_eq x y -> num_eq y x.
Proof. destruct x, y; simpl; auto. intros ->. reflexivity. Qed.

Lemma num_eq_trans x y z : num_eq x y -> num_eq y z -> num_eq x z.
Proof. destruct x, y, z; simpl; auto; try tauto. intros -> ->. reflexivity. Qed.

(** ** Powers of two and the binary exponent *)

Lemma Qpow2_pos e : 0 < 2 ^ e.
Proof. apply Qpower_0_lt. lra. Qed.

Lemma Qpow2_le e1 e2 : (e1 <= e2)%Z -> 2 ^ e1 <= 2 ^ e2.
Proof. intros. apply Qpower_le_compat_l; [assumption | lra]. Qed.

Lemma Qpow2_lt e1 e2 : (e1 < e2)%Z -> 2 ^ e1 < 2 ^ e2.
Proof. intros. apply Qpower_lt_compat_l; [assumption | lra]. Qed.

Lemma Qpow2_succ e : 2 ^ (e + 1) == 2 * 2 ^ e.
Proof. rewrite Qpower_plus by lra. simpl. ring. Qed.

Lemma Qpow2_add a b : 2 ^ (a + b) == 2 ^ a * 2 ^ b.
Proof. apply Qpower_plus. lra. Qed.

Lemma Qpow2_inject (n : Z) : (0 <= n)%Z -> inject_Z (2 ^ n) == 2 ^ n.
Proof. intros. rewrite Zpower_Qpower by assumption. reflexivity. Qed.

Lemma Qlog2_spec a : 0 < a -> 2 ^ Qlog2 a <= a /\ a < 2 ^ (Qlog2 a + 1).
Proof.
  intros Ha. destruct a as [n d].
  assert (Hn : (0 < n)%Z) by (unfold Qlt in Ha; simpl in Ha; lia).
  unfold Qlog2; cbn [Qnum Qden].
  set (ln := Z.log2 n). set (ld := Z.log2 (Zpos d)).
  pose proof (Z.log2_spec n Hn) as [Hn1 Hn2]. fold ln in Hn1, Hn2.
  pose proof (Z.log2_spec (Zpos d) eq_refl) as [Hd1 Hd2]. fold ld in Hd1, Hd2.
  assert (Hln : (0 <= ln)%Z) by apply Z.log2_nonneg.
  assert (Hld : (0 <= ld)%Z) by apply Z.log2_nonneg.
  assert (Qn1 : 2 ^ ln <= inject_Z n).
  { rewrite <- Qpow2_inject by assumption. rewrite <- Zle_Qle. assumption. }
  assert (Qn2 : inject_Z n < 2 ^ (ln + 1)).
  { rewrite <- Qpow2_inject by lia. rewrite <- Zlt_Qlt.
    replace (ln + 1)%Z with (Z.succ ln) by lia. assumption. }
  assert (Qd1 : 2 ^ ld <= inject_Z (Zpos d)).
  { rewrite <- Qpow2_inject by assumption. rewrite <- Zle_Qle. assumption. }
  assert (Qd2 : inject_Z (Zpos d) < 2 ^ (ld + 1)).
  { rewrite <- Qpow2_inject by lia. rewrite <- Zlt_Qlt.
    replace (ld + 1)%Z with (Z.succ ld) by lia. assumption. }
  assert (Hq : n # d == inject_Z n / inject_Z (Zpos d)) by apply Qmake_Qdiv.
  assert (Hdpos : 0 < inject_Z (Zpos d)) by (unfold Qlt; simpl; lia).
  set (q := n # d) in *. set (qn := inject_Z n) in *. set (qd := inject_Z (Zpos d)) in *.
  assert (Hmul : q * qd == qn).
  { rewrite Hq. field. lra. }
  pose proof (Qpow2_pos ld) as Pld. pose proof (Qpow2_pos (ln - ld)) as Pe.
  pose proof (Qpow2_pos (ln - ld - 1)) as Pe'.
  assert (E1 : 2 ^ ln == 2 ^ (ln - ld) * 2 ^ ld).
  { rewrite <- Qpow2_add. replace (ln - ld + ld)%Z with ln by lia. reflexivity. }
  assert (E2 : 2 ^ (ln - ld) == 2 * 2 ^ (ln - ld - 1)).
  { rewrite <- Qpow2_succ. replace (ln - ld - 1 + 1)%Z with (ln - ld)%Z by lia. reflexivity. }
  assert (E3 : 2 ^ (ln - ld + 1) == 2 * 2 ^ (ln - ld)) by apply Qpow2_succ.
  assert (E4 : 2 ^ (ln + 1) == 2 * 2 ^ ln) by apply Qpow2_succ.
  assert (E5 : 2 ^ (ld + 1) == 2 * 2 ^ ld) by apply Qpow2_succ.
  set (pe := 2 ^ (ln - ld)) in *. set (pl := 2 ^ ld) in *.
  assert (Hup : q < 2 * pe).
  { apply Qnot_le_lt. intros Hc.
    assert (2 * pe * qd <= q * qd) by (apply Qmult_le_compat_r; lra).
    assert (2 * pe * pl <= 2 * pe * qd) by (apply Qmult_le_l; lra).
    nra. }
  assert (Hlo : 2 ^ (ln - ld - 1) <= q).
  { apply Qnot_lt_le. intros Hc.
    assert (q * qd < 2 ^ (ln - ld - 1) * qd) by (apply Qmult_lt_compat_r; lra).
    assert (2 ^ (ln - ld - 1) * qd <= 2 ^ (ln - ld - 1) * (2 * pl)).
    { apply Qmult_le_l; lra. }
    nra. }
  destruct (Qle_bool pe q) eqn:E.
  - apply Qle_bool_iff in E. split; [assumption|]. rewrite E3. assumption.
  - apply Qle_bool_gt in E. split; [assumption|].
    replace (ln - ld - 1 + 1)%Z with (ln - ld)%Z by lia. assumption.
Qed.
Lemma Qlog2_unique a e : 0 < a -> 2 ^ e <= a -> a < 2 ^ (e + 1) -> Qlog2 a = e.
Proof.
  intros Ha H1 H2. destruct (Qlog2_spec a Ha) as [S1 S2].
  destruct (Z.lt_trichotomy (Qlog2 a) e) as [Hlt | [Heq | Hgt]]; [|assumption|].
  - assert (2 ^ (Qlog2 a + 1) <= 2 ^ e) by (apply Qpow2_le; lia). lra.
  - assert (2 ^ (e + 1) <= 2 ^ Qlog2 a) by (apply Qpow2_le; lia). lra.
Qed.

Lemma Qlog2_proper a b : 0 < a -> a == b -> Qlog2 a = Qlog2 b.
Proof.
  intros Ha Hab. assert (Hb : 0 < b) by lra.
  destruct (Qlog2_spec b Hb). apply Qlog2_unique; lra.
Qed.

Lemma Qlog2_mono a b : 0 < a -> a <= b -> (Qlog2 a <= Qlog2 b)%Z.
Proof.
  intros Ha Hab. assert (Hb : 0 < b) by lra.
  destruct (Qlog2_spec a Ha) as [A1 A2]. destruct (Qlog2_spec b Hb) as [B1 B2].
  destruct (Z_le_gt_dec (Qlog2 a) (Qlog2 b)) as [|Hgt]; [assumption|].
  assert (2 ^ (Qlog2 b + 1) <= 2 ^ Qlog2 a) by (apply Qpow2_le; lia). lra.
Qed.

(** ** Rounding to the nearest integer *)

Lemma Qfloor_bounds a : inject_Z (Qfloor a) <= a /\ a < inject_Z (Qfloor a) + 1.
Proof.
  split; [apply Qfloor_le|].
  pose proof (Qlt_floor a) as H. rewrite inject_Z_plus in H. exact H.
Qed.

Lemma Qfloor_proper a b : a == b -> Qfloor a = Qfloor b.
Proof.
  intros Hab. apply Z.le_antisymm; apply Qfloor_resp_le; lra.
Qed.

Lemma Qround_half_even_bounds a :
  (Qfloor a <= Qround_half_even a <= Qfloor a + 1)%Z.
Proof.
  unfold Qround_half_even.
  destruct (Qltb _ _); [lia|]. destruct (Qltb _ _); [lia|].
  destruct (Z.even _); lia.
Qed.

Lemma Qround_half_even_mono a b :
  a <= b -> (Qround_half_even a <= Qround_half_even b)%Z.
Proof.
  intros Hab. pose proof (Qfloor_resp_le a b Hab) as Hf.
  destruct (Z.eq_dec (Qfloor a) (Qfloor b)) as [Heq | Hne].
  - unfold Qround_half_even. rewrite Heq.
    destruct (Qltb (a - inject_Z (Qfloor b)) (1 # 2)) eqn:E1;
    destruct (Qltb (b - inject_Z (Qfloor b)) (1 # 2)) eqn:E2;
    destruct (Qltb (1 # 2) (a - inject_Z (Qfloor b))) eqn:E3;
    destruct (Qltb (1 # 2) (b - inject_Z (Qfloor b))) eqn:E4;
    destruct (Z.even (Qfloor b)); try lia;
    rewrite ?Qltb_lt, ?Qltb_ge in *; lra.
  - pose proof (Qround_half_even_bounds a). pose proof (Qround_half_even_bounds b). lia.
Qed.

Lemma Qround_half_even_proper a b :
  a == b -> Qround_half_even a = Qround_half_even b.
Proof.
  intros Hab. apply Z.le_antisymm; apply Qround_half_even_mono; lra.
Qed.

Lemma Qround_half_even_Z z : Qround_half_even (inject_Z z) = z.
Proof.
  unfold Qround_half_even. rewrite Qfloor_Z.
  assert (E : Qltb (inject_Z z - inject_Z z) (1 # 2) = true) by (apply Qltb_lt; lra).
  rewrite E. reflexivity.
Qed.

Lemma Qround_half_up_mono a b : a <= b -> (Qround_half_up a <= Qround_half_up b)%Z.
Proof. intros. unfold Qround_half_up. apply Qfloor_resp_le. lra. Qed.

Lemma Qround_half_up_proper a b : a == b -> Qround_half_up a = Qround_half_up b.
Proof. intros. unfold Qround_half_up. apply Qfloor_proper. lra. Qed.

(** ** Rounding to binary32 *)

Lemma f32_ulp_eq a : f32_ulp a = 2 ^ (f32_exp a - 23).
Proof. reflexivity. Qed.

Lemma f32_exp_mono a b : 0 < a -> a <= b -> (f32_exp a <= f32_exp b)%Z.
Proof. intros. unfold f32_exp. pose proof (Qlog2_mono a b H H0). lia. Qed.

Lemma f32_exp_proper a b : 0 < a -> a == b -> f32_exp a = f32_exp b.
Proof. intros. unfold f32_exp. rewrite (Qlog2_proper a b); auto. Qed.

(** A multiple of the unit in the last place is its own rounding. *)
Lemma Qround_half_even_scaled e (k : Z) :
  (0 <= k)%Z ->
  inject_Z (Qround_half_even (2 ^ (e + k) / 2 ^ e)) * 2 ^ e == 2 ^ (e + k).
Proof.
  intros Hk. pose proof (Qpow2_pos e).
  assert (E : 2 ^ (e + k) / 2 ^ e == inject_Z (2 ^ k)).
  { rewrite Qpow2_add, Qpow2_inject by assumption. field. lra. }
  rewrite (Qround_half_even_proper _ _ E), Qround_half_even_Z.
  rewrite Qpow2_inject, Qpow2_add by assumption. ring.
Qed.

Lemma fround_pos_upper a : 0 < a -> fround_pos a <= 2 ^ (f32_exp a + 1).
Proof.
  intros Ha. unfold fround_pos. rewrite f32_ulp_eq.
  set (e := f32_exp a). pose proof (Qpow2_pos (e - 23)) as Hu.
  destruct (Qlog2_spec a Ha) as [_ S2].
  assert (Hlt : a <= 2 ^ (e + 1)).
  { assert (2 ^ (Qlog2 a + 1) <= 2 ^ (e + 1)) by (apply Qpow2_le; unfold e, f32_exp; lia). lra. }
  pose proof (Qround_half_even_scaled (e - 23) 24 ltac:(lia)) as Hs.
  replace (e - 23 + 24)%Z with (e + 1)%Z in Hs by lia. rewrite <- Hs.
  apply Qmult_le_compat_r; [|lra].
  rewrite <- Zle_Qle. apply Qround_half_even_mono.
  apply Qmult_le_compat_r; [assumption|]. apply Qinv_le_0_compat. lra.
Qed.

Lemma fround_pos_lower a :
  0 < a -> (-126 <= Qlog2 a)%Z -> 2 ^ f32_exp a <= fround_pos a.
Proof.
  intros Ha Hn. unfold fround_pos. rewrite f32_ulp_eq.
  assert (He : f32_exp a = Qlog2 a) by (unfold f32_exp; lia).
  set (e := f32_exp a) in *. pose proof (Qpow2_pos (e - 23)) as Hu.
  destruct (Qlog2_spec a Ha) as [S1 _]. rewrite <- He in S1.
  pose proof (Qround_half_even_scaled (e - 23) 23 ltac:(lia)) as Hs.
  replace (e - 23 + 23)%Z with e in Hs by lia. rewrite <- Hs at 1.
  apply Qmult_le_compat_r; [|lra].
  rewrite <- Zle_Qle. apply Qround_half_even_mono.
  apply Qmult_le_compat_r; [assumption|]. apply Qinv_le_0_compat. lra.
Qed.

Lemma fround_pos_nonneg a : 0 < a -> 0 <= fround_pos a.
Proof.
  intros Ha. unfold fround_pos. rewrite f32_ulp_eq.
  pose proof (Qpow2_pos (f32_exp a - 23)) as Hu.
  assert (Hq : 0 <= a / 2 ^ (f32_exp a - 23)) by (apply Qle_shift_div_l; lra).
  pose proof (Qround_half_even_mono 0 _ Hq) as Hm.
  change (Qround_half_even 0) with 0%Z in Hm.
  apply Qmult_le_0_compat; [|lra].
  change 0 with (inject_Z 0). rewrite <- Zle_Qle. exact Hm.
Qed.

Lemma fround_pos_mono a b : 0 < a -> a <= b -> fround_pos a <= fround_pos b.
Proof.
  intros Ha Hab. assert (Hb : 0 < b) by lra.
  pose proof (f32_exp_mono a b Ha Hab) as He.
  destruct (Z.eq_dec (f32_exp a) (f32_exp b)) as [Heq | Hne].
  - unfold fround_pos. rewrite !f32_ulp_eq, Heq.
    pose proof (Qpow2_pos (f32_exp b - 23)) as Hu.
    apply Qmult_le_compat_r; [|lra].
    rewrite <- Zle_Qle. apply Qround_half_even_mono.
    apply Qmult_le_compat_r; [assumption|]. apply Qinv_le_0_compat. lra.
  - assert (Hlt : (f32_exp a < f32_exp b)%Z) by lia.
    assert (Hnb : (-126 <= Qlog2 b)%Z) by (unfold f32_exp in *; lia).
    pose proof (fround_pos_upper a Ha). pose proof (fround_pos_lower b Hb Hnb).
    assert (2 ^ (f32_exp a + 1) <= 2 ^ f32_exp b) by (apply Qpow2_le; lia).
    lra.
Qed.

Lemma fround_pos_proper a b : 0 < a -> a == b -> fround_pos a == fround_pos b.
Proof.
  intros Ha Hab. apply Qle_antisym; apply fround_pos_mono; lra.
Qed.

Lemma fround_pos_one : fround_pos 1 == 1.
Proof. vm_compute. reflexivity. Qed.

(** On [0, 1] the rounding is finite, stays in [0, 1] and is monotone. *)
Lemma fround_unit a :
  0 <= a <= 1 -> exists r, fround (Num a) = Num r /\ 0 <= r <= 1.
Proof.
  intros [H0 H1]. simpl. unfold fround_Q.
  destruct (Qis0 a) eqn:E0.
  - exists 0. split; [reflexivity | lra].
  - apply Qis0_false in E0. assert (Ha : 0 < a) by lra.
    assert (E1 : Qltb 0 a = true) by (apply Qltb_lt; assumption). rewrite E1. cbv zeta.
    pose proof (fround_pos_mono a 1 Ha H1) as Hm. rewrite fround_pos_one in Hm.
    pose proof (fround_pos_nonneg a Ha).
    assert (E2 : Qle_bool (2 ^ 128) (fround_pos a) = false).
    { apply Qle_bool_gt. assert (1 < 2 ^ 128) by reflexivity. lra. }
    rewrite E2. exists (fround_pos a). split; [reflexivity | lra].
Qed.

Lemma fround_unit_mono a b ra rb :
  0 <= a -> a <= b -> b <= 1 ->
  fround (Num a) = Num ra -> fround (Num b) = Num rb -> ra <= rb.
Proof.
  intros H0 Hab H1. simpl. unfold fround_Q.
  assert (B128 : 1 < 2 ^ 128) by reflexivity.
  destruct (Qis0 a) eqn:Ea; destruct (Qis0 b) eqn:Eb;
    rewrite ?Qis0_true, ?Qis0_false in *.
  - intros [= <-] [= <-]. lra.
  - assert (Hb : 0 < b) by lra.
    assert (E1 : Qltb 0 b = true) by (apply Qltb_lt; assumption). rewrite E1. cbv zeta.
    pose proof (fround_pos_nonneg b Hb).
    destruct (Qle_bool _ _); intros [= <-]; [discriminate|]. intros [= <-]. assumption.
  - lra.
  - assert (Ha : 0 < a) by lra. assert (Hb : 0 < b) by lra.
    assert (E1 : Qltb 0 b = true) by (apply Qltb_lt; assumption).
    assert (E2 : Qltb 0 a = true) by (apply Qltb_lt; assumption).
    rewrite E1, E2. cbv zeta.
    pose proof (fround_pos_mono a b Ha Hab).
    destruct (Qle_bool _ _); [discriminate|]. destruct (Qle_bool _ _); [discriminate|].
    intros [= <-] [= <-]. assumption.
Qed.

Lemma fround_proper a b : a == b -> num_eq (fround (Num a)) (fround (Num b)).
Proof.
  intros Hab. simpl. unfold fround_Q.
  destruct (Qis0 a) eqn:Ea; destruct (Qis0 b) eqn:Eb;
    rewrite ?Qis0_true, ?Qis0_false in *; try lra.
  - simpl. reflexivity.
  - destruct (Qltb 0 a) eqn:E1.
    + apply Qltb_lt in E1. assert (E2 : Qltb 0 b = true) by (apply Qltb_lt; lra).
      rewrite E2. cbv zeta. pose proof (fround_pos_proper a b E1 Hab) as Hp.
      destruct (Qle_bool (2 ^ 128) (fround_pos a)) eqn:E3.
      * apply Qle_bool_iff in E3.
        assert (E4 : Qle_bool (2 ^ 128) (fround_pos b) = true) by (apply Qle_bool_iff; lra).
        rewrite E4. exact I.
      * apply Qle_bool_gt in E3.
        assert (E4 : Qle_bool (2 ^ 128) (fround_pos b) = false) by (apply Qle_bool_gt; lra).
        rewrite E4. exact Hp.
    + apply Qltb_ge in E1. assert (E2 : Qltb 0 b = false) by (apply Qltb_ge; lra).
      rewrite E2. cbv zeta.
      assert (Hn : 0 < - a) by lra. assert (Hab' : - a == - b) by lra.
      pose proof (fround_pos_proper (- a) (- b) Hn Hab') as Hp.
      destruct (Qle_bool (2 ^ 128) (fround_pos (- a))) eqn:E3.
      * apply Qle_bool_iff in E3.
        assert (E4 : Qle_bool (2 ^ 128) (fround_pos (- b)) = true) by (apply Qle_bool_iff; lra).
        rewrite E4. exact I.
      * apply Qle_bool_gt in E3.
        assert (E4 : Qle_bool (2 ^ 128) (fround_pos (- b)) = false) by (apply Qle_bool_gt; lra).
        rewrite E4. simpl. lra.
Qed.
(** ** Rounding to binary64 *)

Lemma Qround_half_even_err a :
  Qabs (inject_Z (Qround_half_even a) - a) <= 1 # 2.
Proof.
  unfold Qround_half_even. destruct (Qfloor_bounds a) as [F1 F2].
  set (f := Qfloor a) in *.
  destruct (Qltb (a - inject_Z f) (1 # 2)) eqn:E1.
  - apply Qltb_lt in E1. apply Qabs_Qle_condition. split; lra.
  - apply Qltb_ge in E1. destruct (Qltb (1 # 2) (a - inject_Z f)) eqn:E2.
    + apply Qltb_lt in E2. rewrite inject_Z_plus. change (inject_Z 1) with 1.
      apply Qabs_Qle_condition. split; lra.
    + apply Qltb_ge in E2. destruct (Z.even f).
      * apply Qabs_Qle_condition. split; lra.
      * rewrite inject_Z_plus. change (inject_Z 1) with 1.
        apply Qabs_Qle_condition. split; lra.
Qed.

Lemma f64_ulp_pos a : 0 < f64_ulp a.
Proof. apply Qpow2_pos. Qed.

(** The rounding is within half a unit in the last place. *)
Lemma f64_pos_err a : Qabs (f64_pos a - a) <= (1 # 2) * f64_ulp a.
Proof.
  unfold f64_pos. pose proof (f64_ulp_pos a) as Hu. set (u := f64_ulp a) in *.
  pose proof (Qround_half_even_err (a / u)) as He.
  assert (E : inject_Z (Qround_half_even (a / u)) * u - a
              == (inject_Z (Qround_half_even (a / u)) - a / u) * u) by (field; lra).
  rewrite E, Qabs_Qmult, (Qabs_pos u) by lra.
  apply Qmult_le_compat_r; [exact He | lra].
Qed.

(** The unit in the last place of a normal value, and below. *)
Lemma f64_ulp_normal a : 0 < a -> 2 ^ (-1022) <= a -> f64_ulp a <= a * 2 ^ (-52).
Proof.
  intros Ha Hn. unfold f64_ulp, f64_exp.
  destruct (Qlog2_spec a Ha) as [S1 S2].
  assert (Hl : (-1022 <= Qlog2 a)%Z).
  { destruct (Z_lt_le_dec (Qlog2 a) (-1022)) as [Hlt|]; [|assumption]. exfalso.
    assert (2 ^ (Qlog2 a + 1) <= 2 ^ (-1022)) by (apply Qpow2_le; lia). lra. }
  rewrite Z.max_l by lia.
  replace (Qlog2 a - 52)%Z with (Qlog2 a + -52)%Z by lia. rewrite Qpow2_add.
  apply Qmult_le_compat_r; [exact S1|]. apply Qlt_le_weak, Qpow2_pos.
Qed.

Lemma f64_ulp_least a : 2 ^ (-1074) <= f64_ulp a.
Proof. unfold f64_ulp, f64_exp. apply Qpow2_le. lia. Qed.

Lemma f64_ulp_subnormal a : 0 < a -> a < 2 ^ (-1022) -> f64_ulp a == 2 ^ (-1074).
Proof.
  intros Ha Hs. unfold f64_ulp, f64_exp.
  destruct (Qlog2_spec a Ha) as [S1 S2].
  assert (Hl : (Qlog2 a < -1022)%Z).
  { destruct (Z_lt_le_dec (Qlog2 a) (-1022)) as [|Hge]; [assumption|]. exfalso.
    assert (2 ^ (-1022) <= 2 ^ Qlog2 a) by (apply Qpow2_le; lia). lra. }
  rewrite Z.max_r by lia. reflexivity.
Qed.

Lemma f64_eps_eta : 0 < f64_eps /\ 0 < f64_eta /\ f64_eps == (1 # 2) * 2 ^ (-52)
                    /\ f64_eta == (1 # 2) * 2 ^ (-1074).
Proof.
  unfold f64_eps, f64_eta. repeat split; apply Qpow2_pos.
Qed.

Lemma f64_pos_near a :
  0 < a -> Qabs (f64_pos a - a) <= f64_eps * a + f64_eta.
Proof.
  intros Ha. pose proof (f64_pos_err a) as He.
  destruct f64_eps_eta as (He0 & Ht0 & Ee & Et).
  assert (Hea : 0 <= f64_eps * a) by (apply Qmult_le_0_compat; lra).
  destruct (Qlt_le_dec a (2 ^ (-1022))) as [Hs|Hn].
  - pose proof (f64_ulp_subnormal a Ha Hs) as Hu. rewrite Hu in He.
    rewrite <- Et in He. lra.
  - pose proof (f64_ulp_normal a Ha Hn) as Hu.
    apply Qle_trans with ((1 # 2) * f64_ulp a); [exact He|].
    apply Qle_trans with (f64_eps * a); [|lra].
    rewrite Ee. set (p := 2 ^ (-52)) in *. lra.
Qed.

Lemma f64_pos_nonneg a : 0 < a -> 0 <= f64_pos a.
Proof.
  intros Ha. unfold f64_pos. pose proof (f64_ulp_pos a) as Hu.
  assert (Hq : 0 <= a / f64_ulp a) by (apply Qle_shift_div_l; lra).
  pose proof (Qround_half_even_mono 0 _ Hq) as Hm.
  change (Qround_half_even 0) with 0%Z in Hm.
  apply Qmult_le_0_compat; [|lra].
  change 0 with (inject_Z 0). rewrite <- Zle_Qle. exact Hm.
Qed.

Lemma f64_pos_proper a b : a == b -> 0 < a -> f64_pos a == f64_pos b.
Proof.
  intros Hab Ha. unfold f64_pos, f64_ulp, f64_exp.
  rewrite (Qlog2_proper a b Ha Hab).
  set (u := 2 ^ (Z.max (Qlog2 b) (-1022) - 52)).
  assert (E : a / u == b / u) by (rewrite Hab; reflexivity).
  rewrite (Qround_half_even_proper _ _ E). reflexivity.
Qed.

(** A rounded value is a multiple of the least positive value. *)
Lemma f64_pos_quantum a : quantum (f64_pos a).
Proof.
  unfold f64_pos, f64_ulp. set (e := f64_exp a).
  assert (He : (-1022 <= e)%Z) by (unfold e, f64_exp; lia).
  set (n := Qround_half_even (a / 2 ^ (e - 52))).
  exists (n * 2 ^ (e + 1022))%Z.
  rewrite inject_Z_mult, Qpow2_inject by lia.
  replace (e - 52)%Z with (e + 1022 + -1074)%Z by lia.
  rewrite (Qpow2_add (e + 1022) (-1074)). ring.
Qed.

Lemma quantum_proper a b : a == b -> quantum a -> quantum b.
Proof. intros Hab [k Hk]. exists k. rewrite <- Hab. exact Hk. Qed.

Lemma quantum_opp a : quantum a -> quantum (- a).
Proof. intros [k Hk]. exists (- k)%Z. rewrite inject_Z_opp, Hk. ring. Qed.

Lemma quantum_plus a b : quantum a -> quantum b -> quantum (a + b).
Proof.
  intros [k Hk] [j Hj]. exists (k + j)%Z. rewrite inject_Z_plus, Hk, Hj. ring.
Qed.

Lemma quantum_scale (n : Z) a : quantum a -> quantum (inject_Z n * a).
Proof. intros [k Hk]. exists (n * k)%Z. rewrite inject_Z_mult, Hk. ring. Qed.

Lemma quantum_0 : quantum 0.
Proof. exists 0%Z. reflexivity. Qed.

(** A positive multiple of the least value is at least that value. *)
Lemma quantum_least a : quantum a -> 0 < a -> 2 ^ (-1074) <= a.
Proof.
  intros [k Hk] Ha. pose proof (Qpow2_pos (-1074)) as Hp.
  set (p := 2 ^ (-1074)) in *.
  assert (Hk1 : (1 <= k)%Z).
  { destruct (Z_lt_le_dec k 1) as [Hlt|]; [|assumption]. exfalso.
    assert (Hk0 : inject_Z k <= 0) by (change 0 with (inject_Z 0); rewrite <- Zle_Qle; lia).
    assert (inject_Z k * p <= 0 * p) by (apply Qmult_le_compat_r; lra). lra. }
  assert (Hk1' : 1 <= inject_Z k) by (change 1 with (inject_Z 1); rewrite <- Zle_Qle; lia).
  assert (1 * p <= inject_Z k * p) by (apply Qmult_le_compat_r; lra). lra.
Qed.

(** Below the normal range a multiple of the least value is its own
    rounding, so the rounding of a multiple has a relative error only. *)
Lemma f64_pos_exact_subnormal a :
  0 < a -> a < 2 ^ (-1022) -> quantum a -> f64_pos a == a.
Proof.
  intros Ha Hs [k Hk]. unfold f64_pos.
  pose proof (f64_ulp_subnormal a Ha Hs) as Hu.
  pose proof (Qpow2_pos (-1074)) as Hp.
  assert (E : a / f64_ulp a == inject_Z k).
  { rewrite Hu, Hk. field. lra. }
  rewrite (Qround_half_even_proper _ _ E), Qround_half_even_Z, Hu, Hk. reflexivity.
Qed.

Lemma f64_pos_near_quantum a :
  0 < a -> quantum a -> Qabs (f64_pos a - a) <= f64_eps * a.
Proof.
  intros Ha Hq. destruct f64_eps_eta as (He0 & Ht0 & Ee & Et).
  assert (Hea : 0 <= f64_eps * a) by (apply Qmult_le_0_compat; lra).
  destruct (Qlt_le_dec a (2 ^ (-1022))) as [Hs|Hn].
  - rewrite (f64_pos_exact_subnormal a Ha Hs Hq).
    assert (E : a - a == 0) by ring. rewrite E. exact Hea.
  - pose proof (f64_ulp_normal a Ha Hn) as Hu.
    apply Qle_trans with ((1 # 2) * f64_ulp a); [apply f64_pos_err|].
    rewrite Ee. set (p := 2 ^ (-52)) in *. lra.
Qed.

(** ** Finite results *)


Lemma f64_pos_below a : 0 < a -> a <= 2 ^ 1023 -> f64_pos a < 2 ^ 1024.
Proof.
  intros Ha Hb. pose proof (f64_pos_near a Ha) as Hn.
  apply Qabs_Qle_condition in Hn as [_ Hn].
  destruct f64_eps_eta as (He0 & Ht0 & _ & _).
  assert (He1 : f64_eps <= 1 # 4) by (unfold f64_eps; apply Qle_bool_imp_le; reflexivity).
  assert (Ht1 : f64_eta <= 1) by (unfold f64_eta; apply Qle_bool_imp_le; reflexivity).
  assert (Hea : f64_eps * a <= (1 # 4) * a) by (apply Qmult_le_compat_r; lra).
  assert (H23 : 4 <= 2 ^ 1023) by (apply Qle_bool_imp_le; reflexivity).
  assert (H24 : 2 ^ 1024 == 2 * 2 ^ 1023) by reflexivity.
  rewrite H24. set (M := 2 ^ 1023) in *. lra.
Qed.

(** The rounding of a number of moderate size: it is finite, of the sign of
    the number, a multiple of the least value, and near the number. *)
Lemma f64_finite a :
  Qabs a <= 2 ^ 1023 ->
  exists y, f64 (Num a) = Num y
    /\ Qabs (y - a) <= f64_eps * Qabs a + f64_eta
    /\ (quantum a -> Qabs (y - a) <= f64_eps * Qabs a)
    /\ (0 <= a -> 0 <= y) /\ (a <= 0 -> y <= 0)
    /\ quantum y.
Proof.
  intros Hb. cbn [f64]. unfold f64_Q.
  destruct f64_eps_eta as (He0 & Ht0 & _ & _).
  destruct (Qis0 a) eqn:E0.
  - apply Qis0_true in E0. exists 0. split; [reflexivity|].
    assert (Ea : 0 - a == 0) by (rewrite E0; reflexivity).
    assert (Eb : Qabs a == 0) by (rewrite E0; reflexivity).
    rewrite Ea, Eb. change (Qabs 0) with 0.
    repeat split; try lra. apply quantum_0.
  - apply Qis0_false in E0. destruct (Qltb 0 a) eqn:E1.
    + apply Qltb_lt in E1. cbv zeta.
      assert (Eabs : Qabs a == a) by (apply Qabs_pos; lra).
      rewrite Eabs in Hb.
      pose proof (f64_pos_below a E1 Hb) as Hlt.
      assert (E2 : Qle_bool (2 ^ 1024) (f64_pos a) = false) by (apply Qle_bool_gt; exact Hlt).
      rewrite E2. exists (f64_pos a). split; [reflexivity|]. rewrite Eabs.
      split; [apply f64_pos_near; exact E1|].
      split; [intros Hq; apply f64_pos_near_quantum; assumption|].
      split; [intros _; apply f64_pos_nonneg; exact E1|].
      split; [intros; lra | apply f64_pos_quantum].
    + apply Qltb_ge in E1. assert (Hn : 0 < - a) by lra. cbv zeta.
      assert (Eabs : Qabs a == - a) by (apply Qabs_neg; lra).
      rewrite Eabs in Hb.
      pose proof (f64_pos_below (- a) Hn Hb) as Hlt.
      assert (E2 : Qle_bool (2 ^ 1024) (f64_pos (- a)) = false)
        by (apply Qle_bool_gt; exact Hlt).
      rewrite E2. exists (- f64_pos (- a)). split; [reflexivity|]. rewrite Eabs.
      assert (Eo : - f64_pos (- a) - a == - (f64_pos (- a) - - a)) by ring.
      rewrite Eo, Qabs_opp.
      split; [apply f64_pos_near; exact Hn|].
      split; [intros Hq; apply f64_pos_near_quantum; [exact Hn | apply quantum_opp; exact Hq]|].
      pose proof (f64_pos_nonneg (- a) Hn).
      split; [intros; lra|]. split; [intros; lra|].
      apply quantum_opp, f64_pos_quantum.
Qed.

Lemma binary64_quantum a : binary64 a -> quantum a.
Proof.
  unfold binary64. cbn [f64]. unfold f64_Q.
  destruct (Qis0 a) eqn:E0.
  - apply Qis0_true in E0. intros _. apply (quantum_proper 0); [lra | apply quantum_0].
  - destruct (Qltb 0 a); cbv zeta.
    + destruct (Qle_bool _ _); cbn [num_eq]; [contradiction|].
      intros E. apply (quantum_proper _ _ E), f64_pos_quantum.
    + destruct (Qle_bool _ _); cbn [num_eq]; [contradiction|].
      intros E. apply (quantum_proper _ _ E), quantum_opp, f64_pos_quantum.
Qed.

(** The rounding of a non-negative number, as an interval. *)
Lemma f64_bounds x :
  0 <= x -> x <= 2 ^ 1023 ->
  exists y, f64 (Num x) = Num y
    /\ x * (1 - f64_eps) - f64_eta <= y /\ y <= x * (1 + f64_eps) + f64_eta
    /\ 0 <= y /\ quantum y.
Proof.
  intros H0 Hb.
  assert (Ha : Qabs x == x) by (apply Qabs_pos; exact H0).
  destruct (f64_finite x) as (y & E & Hn & _ & Hs & _ & Hq); [rewrite Ha; exact Hb|].
  exists y. split; [exact E|]. rewrite Ha in Hn.
  apply Qabs_Qle_condition in Hn as [L U].
  repeat split; try lra; auto.
Qed.

Lemma f64_bounds_quantum x :
  0 <= x -> x <= 2 ^ 1023 -> quantum x ->
  exists y, f64 (Num x) = Num y
    /\ x * (1 - f64_eps) <= y /\ y <= x * (1 + f64_eps)
    /\ 0 <= y /\ quantum y.
Proof.
  intros H0 Hb Hqx.
  assert (Ha : Qabs x == x) by (apply Qabs_pos; exact H0).
  destruct (f64_finite x) as (y & E & _ & Hn & Hs & _ & Hq); [rewrite Ha; exact Hb|].
  exists y. split; [exact E|]. specialize (Hn Hqx). rewrite Ha in Hn.
  apply Qabs_Qle_condition in Hn as [L U].
  repeat split; try lra; auto.
Qed.

(** A quotient of two rounded numbers, rounded. *)
Lemma quotient_rounding (e t n S pn s y : Q) :
  0 <= e -> e <= 1 # 8 -> 0 <= t -> 0 <= n -> 0 < S ->
  n * (1 - e) <= pn -> pn <= n * (1 + e) ->
  S * (1 - e) <= s -> s <= S * (1 + e) ->
  (pn / s) * (1 - e) - t <= y -> y <= (pn / s) * (1 + e) + t ->
  (n / S) * (1 - 4 * e) - t <= y /\ y <= (n / S) * (1 + 4 * e) + t.
Proof.
  intros He0 He8 Ht Hn HS Hp1 Hp2 Hs1 Hs2 Hy1 Hy2.
  assert (Hs : 0 < s) by nra.
  set (X := n / S) in *. set (q := pn / s) in *.
  assert (EX : n == X * S) by (unfold X; field; lra).
  assert (Eq : pn == q * s) by (unfold q; field; lra).
  assert (HX : 0 <= X) by (unfold X; apply Qle_shift_div_l; lra).
  assert (Hpn : 0 <= pn) by nra.
  assert (Hq : 0 <= q) by (unfold q; apply Qle_shift_div_l; lra).
  (* q (1 - e) <= X (1 + e) and X (1 - e) <= q (1 + e) *)
  assert (U : q * (1 - e) <= X * (1 + e)).
  { apply Qmult_le_r with S; [exact HS|].
    apply Qle_trans with (q * s); [nra|].
    rewrite <- Eq. rewrite EX in Hp2. nra. }
  assert (L : X * (1 - e) <= q * (1 + e)).
  { apply Qmult_le_r with S; [exact HS|].
    apply Qle_trans with (q * s); [|nra].
    rewrite <- Eq. rewrite EX in Hp1. nra. }
  split.
  - apply Qle_trans with (q * (1 - e) - t); [|exact Hy1].
    assert (X * (1 - 4 * e) <= q * (1 - e)); [|lra].
    apply Qmult_le_r with (1 + e); [lra|].
    apply Qle_trans with (X * (1 - e) * (1 - e)); [nra|]. nra.
  - apply Qle_trans with (q * (1 + e) + t); [exact Hy2|].
    assert (q * (1 + e) <= X * (1 + 4 * e)); [|lra].
    apply Qmult_le_r with (1 - e); [lra|].
    apply Qle_trans with (X * (1 + e) * (1 + e)); [nra|]. nra.
Qed.
(** ** Arithmetic on finite numbers *)

Lemma jadd_Num a b : jadd (Num a) (Num b) = Num (a + b).
Proof. reflexivity. Qed.

Lemma jneg_Num a : jneg (Num a) = Num (- a).
Proof. reflexivity. Qed.

Lemma jsub_Num a b : jsub (Num a) (Num b) = Num (a + - b).
Proof. reflexivity. Qed.

Lemma jmul_Num a b : jmul (Num a) (Num b) = Num (a * b).
Proof. reflexivity. Qed.

Lemma jdiv_Num a b : ~ b == 0 -> jdiv (Num a) (Num b) = Num (a / b).
Proof. intros Hb. unfold jdiv. apply Qis0_false in Hb. rewrite Hb. reflexivity. Qed.

Ltac jnum_step tac :=
  first [ rewrite jadd_Num | rewrite jsub_Num | rewrite jmul_Num
        | rewrite jneg_Num | rewrite jdiv_Num by tac ].
Ltac jnum tac := repeat jnum_step tac.

Lemma clamp_Num x a b : clamp (Num x) (Num a) (Num b) = Num (Qclamp x a b).
Proof.
  unfold clamp, Math_min, Math_max, Qclamp, jlt.
  destruct (Qltb x b); destruct (Qltb a _); reflexivity.
Qed.

Lemma Qclamp_bounds x a b : a <= b -> a <= Qclamp x a b <= b.
Proof.
  intros Hab. unfold Qclamp.
  destruct (Qltb x b) eqn:E1; [destruct (Qltb a x) eqn:E2 | destruct (Qltb a b) eqn:E2];
    rewrite ?Qltb_lt, ?Qltb_ge in *; lra.
Qed.

Lemma Qclamp_mono x y a b : a <= b -> x <= y -> Qclamp x a b <= Qclamp y a b.
Proof.
  intros Hab Hxy. unfold Qclamp.
  destruct (Qltb x b) eqn:E1; destruct (Qltb y b) eqn:E2;
  [destruct (Qltb a x) eqn:E3; destruct (Qltb a y) eqn:E4
  |destruct (Qltb a x) eqn:E3; destruct (Qltb a b) eqn:E4
  |destruct (Qltb a b) eqn:E3; destruct (Qltb a y) eqn:E4
  |destruct (Qltb a b) eqn:E3];
    rewrite ?Qltb_lt, ?Qltb_ge in *; lra.
Qed.

Lemma Qclamp_proper x y a b : x == y -> Qclamp x a b == Qclamp y a b.
Proof.
  intros Hxy. unfold Qclamp.
  destruct (Qltb x b) eqn:E1; destruct (Qltb y b) eqn:E2;
  [destruct (Qltb a x) eqn:E3; destruct (Qltb a y) eqn:E4
  |destruct (Qltb a x) eqn:E3; destruct (Qltb a b) eqn:E4
  |destruct (Qltb a b) eqn:E3; destruct (Qltb a y) eqn:E4
  |destruct (Qltb a b) eqn:E3];
    rewrite ?Qltb_lt, ?Qltb_ge in *; lra.
Qed.

Lemma Qclamp_above x a b : a <= b -> b <= x -> Qclamp x a b == b.
Proof.
  intros Hab Hx. unfold Qclamp.
  destruct (Qltb x b) eqn:E1; [destruct (Qltb a x) eqn:E2 | destruct (Qltb a b) eqn:E2];
    rewrite ?Qltb_lt, ?Qltb_ge in *; lra.
Qed.

Lemma Qclamp_below x a b : a <= b -> x <= a -> Qclamp x a b == a.
Proof.
  intros Hab Hx. unfold Qclamp.
  destruct (Qltb x b) eqn:E1; [destruct (Qltb a x) eqn:E2 | destruct (Qltb a b) eqn:E2];
    rewrite ?Qltb_lt, ?Qltb_ge in *; lra.
Qed.

Section TableOnRationals.
Context `{MathLib}.

Lemma erf_Num x : erf (Num x) = Num (erf_Q x).
Proof.
  assert (E : ~ 1 + 0.3275911 * Qabs x == 0).
  { pose proof (Qabs_nonneg x). nra. }
  unfold erf, erf_Q, erf_poly, erf_t. cbv zeta. cbn [Math_abs jlt].
  jnum ltac:(exact E). cbn [Math_exp]. jnum ltac:(exact E).
  destruct (Qltb x 0); reflexivity.
Qed.

Lemma normalCDF_Num x : normalCDF (Num x) = Num (normalCDF_Q x).
Proof.
  unfold normalCDF, normalCDF_Q, Math_SQRT2.
  rewrite jdiv_Num by (intros E; discriminate E).
  rewrite erf_Num. reflexivity.
Qed.

Lemma winProbFromMargin_Num m :
  winProbFromMargin (Num m) = {| pD := Num (pD_Q m); pR := Num (pR_Q m) |}.
Proof.
  unfold winProbFromMargin, PROB_ERROR_SD_PTS. cbv zeta.
  rewrite jdiv_Num by (intros E; discriminate E).
  rewrite normalCDF_Num, clamp_Num. reflexivity.
Qed.

Lemma pD_Q_unit m : 0 <= pD_Q m <= 1.
Proof.
  unfold pD_Q, pR_Q.
  pose proof (Qclamp_bounds (normalCDF_Q (m / 7)) 0 1 ltac:(lra)). lra.
Qed.

(** The exponential factor of [erf] lies in [0, 1]. *)
Lemma erf_exp_unit x : 0 <= exp_Q (- Qabs x * Qabs x) <= 1.
Proof.
  split; [apply exp_Q_nonneg|].
  rewrite <- exp_Q_zero. apply exp_Q_mono.
  pose proof (Qabs_nonneg x). nra.
Qed.

Lemma erf_exp_anti x y :
  Qabs x <= Qabs y -> exp_Q (- Qabs y * Qabs y) <= exp_Q (- Qabs x * Qabs x).
Proof.
  intros Hxy. apply exp_Q_mono.
  pose proof (Qabs_nonneg x). pose proof (Qabs_nonneg y). nra.
Qed.

Lemma erf_step_ok_spec x y :
  erf_step_ok x y = true ->
  (0 <= erf_poly (Qabs x) <= 1) /\ (0 <= erf_poly (Qabs y) <= 1)
  /\ (x < 0 -> y < 0 -> erf_poly (Qabs x) <= erf_poly (Qabs y))
  /\ (0 <= x -> erf_poly (Qabs y) <= erf_poly (Qabs x)).
Proof.
  unfold erf_step_ok. cbv zeta.
  generalize (erf_poly (Qabs x)) (erf_poly (Qabs y)). intros cx cy Hok.
  repeat (apply andb_prop in Hok; destruct Hok as [Hok ?]).
  repeat match goal with
         | Hb : Qle_bool _ _ = true |- _ => apply Qle_bool_iff in Hb
         end.
  repeat split; try assumption.
  - intros Hx Hy. apply Qltb_lt in Hx, Hy. rewrite Hx, Hy in H0.
    apply Qle_bool_iff in H0. assumption.
  - intros Hx. apply Qltb_ge in Hx. rewrite Hx in H0.
    apply Qle_bool_iff in H0. assumption.
Qed.

Lemma erf_step_arith (sx sy : bool) cx cy ex ey :
  0 <= cx <= 1 -> 0 <= cy <= 1 -> 0 <= ex <= 1 -> 0 <= ey <= 1 ->
  (sx = true -> sy = true -> cx <= cy /\ ex <= ey) ->
  (sx = false -> sy = false /\ cy <= cx /\ ey <= ex) ->
  (if sx then -1 else 1) * (1 + - (cx * ex))
  <= (if sy then -1 else 1) * (1 + - (cy * ey)).
Proof.
  intros Hcx Hcy Hex Hey Hneg Hpos. destruct sx.
  - destruct sy.
    + destruct (Hneg eq_refl eq_refl). nra.
    + nra.
  - destruct (Hpos eq_refl) as (-> & ? & ?). nra.
Qed.

Lemma erf_Q_step x y : x <= y -> erf_step_ok x y = true -> erf_Q x <= erf_Q y.
Proof.
  intros Hxy Hok. apply erf_step_ok_spec in Hok as (Hcx & Hcy & Hneg & Hpos).
  unfold erf_Q. apply erf_step_arith; try assumption; try apply erf_exp_unit.
  - intros Sx Sy. apply Qltb_lt in Sx, Sy. split; [auto|].
    apply erf_exp_anti. rewrite !Qabs_neg by lra. lra.
  - intros Sx. apply Qltb_ge in Sx. split; [apply Qltb_ge; lra|]. split; [auto|].
    apply erf_exp_anti. rewrite !Qabs_pos by lra. lra.
Qed.

Lemma erf_Q_proper x y : x == y -> erf_Q x == erf_Q y.
Proof.
  intros Hxy. unfold erf_Q.
  assert (Ea : Qabs x == Qabs y) by (rewrite Hxy; reflexivity).
  assert (Ee : exp_Q (- Qabs x * Qabs x) == exp_Q (- Qabs y * Qabs y)).
  { apply exp_Q_proper. rewrite Ea. reflexivity. }
  assert (Ep : erf_poly (Qabs x) == erf_poly (Qabs y)).
  { unfold erf_poly, erf_t. rewrite Ea. reflexivity. }
  rewrite Ee, Ep.
  destruct (Qltb x 0) eqn:Sx; destruct (Qltb y 0) eqn:Sy;
    rewrite ?Qltb_lt, ?Qltb_ge in *; try lra; reflexivity.
Qed.

Lemma WINP_entry_eq i : WINP_entry i = fround (Num (pD_Q (WINP_margin i))).
Proof.
  unfold WINP_entry, WINP_MIN, WINP_STEP. cbv zeta. jnum idtac.
  rewrite winProbFromMargin_Num. reflexivity.
Qed.

Lemma WINP_steps_ok :
  forallb (fun i => erf_step_ok (WINP_erf_arg i) (WINP_erf_arg (S i))) (seq 0 800) = true.
Proof. vm_cast_no_check (eq_refl true). Qed.

Lemma pD_Q_step i :
  (i < 800)%nat -> pD_Q (WINP_margin (S i)) <= pD_Q (WINP_margin i).
Proof.
  intros Hi.
  assert (Hok : erf_step_ok (WINP_erf_arg i) (WINP_erf_arg (S i)) = true).
  { pose proof WINP_steps_ok as Hall. rewrite forallb_forall in Hall.
    apply Hall. apply in_seq. lia. }
  assert (Hle : WINP_erf_arg i <= WINP_erf_arg (S i)).
  { unfold WINP_erf_arg, WINP_margin. rewrite Nat2Z.inj_succ, <- Z.add_1_r, inject_Z_plus.
    set (k := inject_Z (Z.of_nat i)). change (inject_Z 1) with 1.
    unfold Qdiv. change (/ 7) with (1 # 7).
    change (/ 1.4142135623730951) with (10000000000000000 # 14142135623730951).
    lra. }
  pose proof (erf_Q_step _ _ Hle Hok) as He.
  unfold pD_Q, pR_Q, normalCDF_Q. fold (WINP_erf_arg i). fold (WINP_erf_arg (S i)).
  apply Qplus_le_r, Qopp_le_compat. apply Qclamp_mono; lra.
Qed.

Lemma pD_Q_table_anti i j :
  (i <= j)%nat -> (j <= 800)%nat ->
  pD_Q (WINP_margin j) <= pD_Q (WINP_margin i).
Proof.
  induction 1 as [|j Hij IH]; intros Hj; [lra|].
  pose proof (pD_Q_step j ltac:(lia)). specialize (IH ltac:(lia)). lra.
Qed.
End TableOnRationals.
(** ** The lookup [winProbD_fast] *)

Lemma to_index_inject k : to_index (Num (inject_Z k)) = Some k.
Proof.
  unfold to_index. rewrite Qfloor_Z.
  assert (E : Qeq_bool (inject_Z k) (inject_Z k) = true) by (apply Qeq_bool_iff; reflexivity).
  rewrite E. reflexivity.
Qed.

Lemma WINP_index_bounds m : (0 <= WINP_index m <= 800)%Z.
Proof.
  unfold WINP_index, Qround_half_up.
  pose proof (Qclamp_bounds m (-40) 40 ltac:(lra)) as [Hlo Hhi].
  set (c := Qclamp m (-40) 40) in *.
  assert (E : (c + - -40) / 0.1 == 10 * c + 400) by (field).
  rewrite (Qfloor_proper _ (10 * c + 400 + (1 # 2))) by (rewrite E; reflexivity).
  split.
  - change 0%Z with (Qfloor 0). apply Qfloor_resp_le. lra.
  - apply Z.lt_succ_r. rewrite Zlt_Qlt.
    eapply Qle_lt_trans; [apply Qfloor_le|].
    change (inject_Z (Z.succ 800)) with 801. lra.
Qed.

Lemma WINP_index_mono m1 m2 : m1 <= m2 -> (WINP_index m1 <= WINP_index m2)%Z.
Proof.
  intros Hm. unfold WINP_index. apply Qround_half_up_mono.
  pose proof (Qclamp_mono m1 m2 (-40) 40 ltac:(lra) Hm).
  unfold Qdiv. change (/ 0.1) with (10 # 1). lra.
Qed.

Lemma WINP_index_proper m1 m2 : m1 == m2 -> WINP_index m1 = WINP_index m2.
Proof.
  intros Hm. apply Z.le_antisymm; apply WINP_index_mono; lra.
Qed.

Section Lookup.
Context `{MathLib}.

Lemma WINP_lookup n : (n <= 800)%nat -> WINP_PD_TABLE !! n = Some (WINP_entry n).
Proof.
  intros Hn. unfold WINP_PD_TABLE.
  change (map WINP_entry (seq 0 WINP_N)) with (WINP_entry <$> seq 0 WINP_N).
  rewrite list_lookup_fmap, lookup_seq_lt; [reflexivity|].
  change WINP_N with 801%nat. lia.
Qed.

Lemma winProbD_fast_Num m :
  winProbD_fast (Num m) = WINP_entry (Z.to_nat (WINP_index m)).
Proof.
  unfold winProbD_fast, WINP_MIN, WINP_MAX, WINP_STEP. cbn [isFinite negb]. cbv zeta.
  rewrite clamp_Num. jnum ltac:(intros E; discriminate E).
  cbn [Math_round]. fold (WINP_index m). rewrite to_index_inject.
  pose proof (WINP_index_bounds m) as [Hlo Hhi].
  unfold array_get. destruct (Z.ltb_spec (WINP_index m) 0) as [|_]; [lia|].
  rewrite WINP_lookup by lia. reflexivity.
Qed.

Lemma WINP_entry_unit i : exists r, WINP_entry i = Num r /\ 0 <= r <= 1.
Proof. rewrite WINP_entry_eq. apply fround_unit, pD_Q_unit. Qed.

Lemma WINP_entry_anti i j ri rj :
  (i <= j)%nat -> (j <= 800)%nat ->
  WINP_entry i = Num ri -> WINP_entry j = Num rj -> rj <= ri.
Proof.
  intros Hij Hj. rewrite !WINP_entry_eq. intros Hi Hj'.
  eapply fround_unit_mono; [| | |exact Hj'|exact Hi].
  - apply pD_Q_unit.
  - apply pD_Q_table_anti; assumption.
  - apply pD_Q_unit.
Qed.

Lemma winProbD_fast_unit m :
  exists r, winProbD_fast m = Num r /\ 0 <= r <= 1.
Proof.
  destruct m as [q| | |]; try (exists 0.5; split; [reflexivity|lra]).
  rewrite winProbD_fast_Num. apply WINP_entry_unit.
Qed.

Lemma winProbD_fast_anti m1 m2 r1 r2 :
  m1 <= m2 -> winProbD_fast (Num m1) = Num r1 -> winProbD_fast (Num m2) = Num r2 ->
  r2 <= r1.
Proof.
  intros Hm. rewrite !winProbD_fast_Num. intros H1 H2.
  pose proof (WINP_index_mono m1 m2 Hm). pose proof (WINP_index_bounds m1).
  pose proof (WINP_index_bounds m2).
  eapply WINP_entry_anti; [| |exact H1|exact H2]; lia.
Qed.

Lemma erf_Q_zero : erf_Q 0 == 0.000000001.
Proof.
  unfold erf_Q.
  assert (E : exp_Q (- Qabs 0 * Qabs 0) == 1).
  { rewrite <- exp_Q_zero. apply exp_Q_proper. reflexivity. }
  rewrite E. reflexivity.
Qed.

Lemma pD_Q_zero : pD_Q 0 == 0.4999999995.
Proof.
  unfold pD_Q, pR_Q, normalCDF_Q.
  assert (E : erf_Q (0 / 7 / 1.4142135623730951) == 0.000000001).
  { rewrite <- erf_Q_zero. apply erf_Q_proper. reflexivity. }
  rewrite (Qclamp_proper _ (0.5 * (1 + 0.000000001))) by (rewrite E; reflexivity).
  reflexivity.
Qed.

Lemma pD_Q_proper m1 m2 : m1 == m2 -> pD_Q m1 == pD_Q m2.
Proof.
  intros Hm. unfold pD_Q, pR_Q, normalCDF_Q.
  assert (E : erf_Q (m1 / 7 / 1.4142135623730951) == erf_Q (m2 / 7 / 1.4142135623730951)).
  { apply erf_Q_proper. rewrite Hm. reflexivity. }
  rewrite (Qclamp_proper _ (0.5 * (1 + erf_Q (m2 / 7 / 1.4142135623730951)))) by (rewrite E; reflexivity).
  reflexivity.
Qed.

(** At margin 0 the stored probability is one half: the value computed,
    0.4999999995, is nearer to 0.5 than to any other binary32 value. *)
Lemma winProbD_fast_zero : num_eq (winProbD_fast (Num 0)) (Num 0.5).
Proof.
  rewrite winProbD_fast_Num. change (Z.to_nat (WINP_index 0)) with 400%nat.
  rewrite WINP_entry_eq.
  eapply num_eq_trans; [apply (fround_proper _ 0.4999999995)|].
  - rewrite <- pD_Q_zero. apply pD_Q_proper. reflexivity.
  - vm_compute. reflexivity.
Qed.

Lemma winProbD_fast_proper m1 m2 :
  m1 == m2 -> winProbD_fast (Num m1) = winProbD_fast (Num m2).
Proof.
  intros Hm. rewrite !winProbD_fast_Num, (WINP_index_proper m1 m2 Hm). reflexivity.
Qed.
End Lookup.
(** ** An instance of the platform *)

Lemma exp_model_mono a b : a <= b -> exp_model a <= exp_model b.
Proof.
  intros Hab. unfold exp_model.
  destruct (Qle_bool 0 a) eqn:Ea; destruct (Qle_bool 0 b) eqn:Eb;
    rewrite ?Qle_bool_iff, ?Qle_bool_gt in *; try lra.
  - apply Qle_shift_div_r; [lra|]. nra.
  - apply Qle_shift_div_r; [lra|].
    assert (E : 1 / (1 - b) * (1 - a) == (1 - a) / (1 - b)) by (field; lra).
    rewrite E. apply Qle_shift_div_l; lra.
Qed.

Lemma exp_model_proper a b : a == b -> exp_model a == exp_model b.
Proof. intros Hab. apply Qle_antisym; apply exp_model_mono; lra. Qed.

Lemma exp_model_nonneg a : 0 <= exp_model a.
Proof.
  unfold exp_model. destruct (Qle_bool 0 a) eqn:Ea;
    rewrite ?Qle_bool_iff, ?Qle_bool_gt in *; [lra|].
  apply Qle_shift_div_l; lra.
Qed.

#[export] Instance rational_MathLib : MathLib := {|
  exp_Q := exp_model;
  exp_Q_proper := exp_model_proper;
  exp_Q_zero := Qeq_refl 1;
  exp_Q_nonneg := exp_model_nonneg;
  exp_Q_mono := exp_model_mono;
|}.

(** ** Win probability: monotonicity, clamping, range *)

Lemma jlt_Num a b : jlt (Num a) (Num b) = true <-> a < b.
Proof. apply Qltb_lt. Qed.

Lemma jle_Num a b : jle (Num a) (Num b) = true <-> a <= b.
Proof. apply Qle_bool_iff. Qed.

Lemma isFinite_Num x : isFinite x = true -> exists q, x = Num q.
Proof. destruct x; try discriminate. eauto. Qed.

(** C3.  The table-backed win probability is monotone non-increasing in the
    margin over the finite margins, and at margin 0 it is exactly 0.5. *)
Theorem winProbD_fast_monotone `{MathLib} :
  (forall m1 m2 : number,
      isFinite m1 = true -> isFinite m2 = true -> jlt m1 m2 = true ->
      jge (winProbD_fast m1) (winProbD_fast m2) = true)
  /\ num_eq (winProbD_fast (Num 0)) (Num 0.5).
Proof.
  split; [|apply winProbD_fast_zero].
  intros m1 m2 F1 F2 Hlt.
  apply isFinite_Num in F1 as [q1 ->]. apply isFinite_Num in F2 as [q2 ->].
  apply jlt_Num in Hlt.
  destruct (winProbD_fast_unit (Num q1)) as (r1 & E1 & _).
  destruct (winProbD_fast_unit (Num q2)) as (r2 & E2 & _).
  unfold jge. rewrite E1, E2. apply jle_Num.
  apply (winProbD_fast_anti q1 q2); [lra|assumption..].
Qed.

Lemma winProbD_fast_monotone_witness :
  jge (winProbD_fast (Num (-3))) (winProbD_fast (Num 2.5)) = true.
Proof.
  apply (proj1 (@winProbD_fast_monotone rational_MathLib)); reflexivity.
Defined.

(** C6.  A margin that is not finite gives exactly 0.5; a finite margin above
    40 (below -40) gives the value at 40 (at -40); and every value returned
    lies in [0, 1]. *)
Theorem winProbD_fast_clamped `{MathLib} :
  (forall m : number, isFinite m = false -> winProbD_fast m = Num 0.5)
  /\ (forall m : number, isFinite m = true -> jgt m (Num 40) = true ->
        winProbD_fast m = winProbD_fast (Num 40))
  /\ (forall m : number, isFinite m = true -> jlt m (Num (-40)) = true ->
        winProbD_fast m = winProbD_fast (Num (-40)))
  /\ (forall m : number,
        jle (Num 0) (winProbD_fast m) = true /\ jle (winProbD_fast m) (Num 1) = true).
Proof.
  repeat split.
  - intros m Hm. unfold winProbD_fast. rewrite Hm. reflexivity.
  - intros m Fm Hgt. apply isFinite_Num in Fm as [q ->].
    apply jlt_Num in Hgt. rewrite !winProbD_fast_Num. f_equal. f_equal.
    unfold WINP_index. apply Qround_half_up_proper.
    rewrite (Qclamp_above q (-40) 40) by lra.
    rewrite (Qclamp_above 40 (-40) 40) by lra. reflexivity.
  - intros m Fm Hlt. apply isFinite_Num in Fm as [q ->].
    apply jlt_Num in Hlt. rewrite !winProbD_fast_Num. f_equal. f_equal.
    unfold WINP_index. apply Qround_half_up_proper.
    rewrite (Qclamp_below q (-40) 40) by lra.
    rewrite (Qclamp_below (-40) (-40) 40) by lra. reflexivity.
  - destruct (winProbD_fast_unit m) as (r & -> & Hr). apply jle_Num. lra.
  - destruct (winProbD_fast_unit m) as (r & -> & Hr). apply jle_Num. lra.
Qed.

Lemma winProbD_fast_clamped_witness :
  winProbD_fast PosInf = Num 0.5
  /\ winProbD_fast (Num 55) = winProbD_fast (Num 40)
  /\ winProbD_fast (Num (-41)) = winProbD_fast (Num (-40)).
Proof.
  destruct (@winProbD_fast_clamped rational_MathLib) as (Hnf & Hhi & Hlo & _).
  split; [apply Hnf; reflexivity|].
  split; [apply Hhi; reflexivity | apply Hlo; reflexivity].
Defined.
(** ** Normalised pairs and the weighted combiner *)





(** The loop of [weightedCombine] only sees the components it does not skip. *)
Lemma combine_foldl_active a components :
  foldl combine_step a components = foldl combine_active a (omap active components).
Proof.
  revert a. induction components as [|c cs IH]; intros a; [reflexivity|].
  cbn [foldl]. rewrite IH. unfold combine_step.
  change (omap active (c :: cs))
    with (match active c with Some y => y :: omap active cs | None => omap active cs end).
  destruct (active c) as [[p w]|]; reflexivity.
Qed.

Lemma weightedCombine_active cs1 cs2 :
  omap active cs1 = omap active cs2 -> weightedCombine cs1 = weightedCombine cs2.
Proof.
  intros E. unfold weightedCombine, combine_loop. rewrite !combine_foldl_active, E.
  reflexivity.
Qed.

Lemma active_weight c p w : active c = Some (p, w) -> exists q, w = Num q /\ 0 < q.
Proof.
  destruct c as [[[p'|] w']|]; try discriminate. cbn [active].
  destruct w' as [q| | |]; try discriminate. cbn [isFinite negb orb].
  destruct (jle (Num q) (Num 0)) eqn:E; [discriminate|].
  intros [= _ <-]. exists q. split; [reflexivity|]. apply Qle_bool_gt in E. exact E.
Qed.

(** ** [normalizePair] in binary64 *)

Lemma f64_constants :
  0 < f64_eps /\ f64_eps <= 1 # 8 /\ 0 < f64_eta
  /\ 400 * f64_eps + 2 * f64_eta <= share_tolerance
  /\ f64_eta <= 2 ^ (-1000).
Proof.
  unfold f64_eps, f64_eta, share_tolerance.
  repeat split; try apply Qpow2_pos; apply Qle_bool_imp_le; reflexivity.
Qed.

(** Non-negative shares with a positive sum and no overflow: each share of
    the result is the exact quotient within four rounding errors. *)
Lemma normalizePair_shares (d r : Q) :
  quantum d -> quantum r -> 0 <= d -> 0 <= r -> 0 < d + r ->
  100 * d <= 2 ^ 1023 -> 100 * r <= 2 ^ 1023 ->
  exists a b,
    Binary64.normalizePair (Num d) (Num r) = {| D := Num a; R := Num b |}
    /\ 0 <= a /\ 0 <= b /\ quantum a /\ quantum b
    /\ (100 * d / (d + r)) * (1 - 4 * f64_eps) - f64_eta <= a
    /\ a <= (100 * d / (d + r)) * (1 + 4 * f64_eps) + f64_eta
    /\ (100 * r / (d + r)) * (1 - 4 * f64_eps) - f64_eta <= b
    /\ b <= (100 * r / (d + r)) * (1 + 4 * f64_eps) + f64_eta.
Proof.
  intros Qd Qr Hd Hr HS Bd Br.
  destruct f64_constants as (He0 & He8 & Ht0 & _ & _).
  assert (HM : 200 <= 2 ^ 1023) by (apply Qle_bool_imp_le; reflexivity).
  set (M := 2 ^ 1023) in *.
  unfold Binary64.normalizePair, Binary64.add, Binary64.mul, Binary64.div.
  cbn [jadd jmul].
  destruct (f64_bounds_quantum (d + r)) as (s & Es & Ls & Us & Hs0 & Qs);
    [lra | fold M; lra | apply quantum_plus; assumption |].
  rewrite Es. cbn [isFinite negb orb jle].
  assert (Hs : 0 < s) by nra.
  assert (E1 : Qle_bool s 0 = false) by (apply Qle_bool_gt; exact Hs). rewrite E1.
  destruct (f64_bounds_quantum (100 * d)) as (pd & Epd & Lpd & Upd & Hpd0 & Qpd);
    [lra | fold M; lra | apply (quantum_scale 100); exact Qd |].
  destruct (f64_bounds_quantum (100 * r)) as (pr & Epr & Lpr & Upr & Hpr0 & Qpr);
    [lra | fold M; lra | apply (quantum_scale 100); exact Qr |].
  rewrite Epd, Epr. cbn [jdiv].
  assert (E2 : Qis0 s = false) by (apply Qis0_false; lra). rewrite E2.
  assert (Hquot : forall x px, 0 <= x -> x <= d + r -> px <= 100 * x * (1 + f64_eps) ->
                               0 <= px -> 0 <= px / s /\ px / s <= M).
  { intros x px Hx Hxs Hpx Hp0. split; [apply Qle_shift_div_l; lra|].
    apply Qle_shift_div_r; [exact Hs|].
    assert (H1 : x * f64_eps <= (1 # 8) * x) by nra.
    assert (H2 : (d + r) * f64_eps <= (1 # 8) * (d + r)) by nra.
    assert (H3 : px <= 200 * s) by lra.
    assert (H4 : 200 * s <= M * s); [|lra].
    apply Qmult_le_compat_r; lra. }
  destruct (Hquot d pd Hd ltac:(lra) Upd Hpd0) as [Hqd0 HqdM].
  destruct (Hquot r pr Hr ltac:(lra) Upr Hpr0) as [Hqr0 HqrM].
  destruct (f64_bounds (pd / s) Hqd0 HqdM) as (a & Ea & La & Ua & Ha0 & Qa).
  destruct (f64_bounds (pr / s) Hqr0 HqrM) as (b & Eb & Lb & Ub & Hb0 & Qb).
  rewrite Ea, Eb. exists a, b. split; [reflexivity|].
  split; [exact Ha0|]. split; [exact Hb0|]. split; [exact Qa|]. split; [exact Qb|].
  destruct (quotient_rounding f64_eps f64_eta (100 * d) (d + r) pd s a) as [A1 A2];
    try assumption; try lra.
  destruct (quotient_rounding f64_eps f64_eta (100 * r) (d + r) pr s b) as [B1 B2];
    try assumption; try lra.
Qed.

(** The shares as fractions of 100. *)
Lemma shares_of_100 (d r : Q) :
  0 <= d -> 0 <= r -> 0 < d + r ->
  0 <= 100 * d / (d + r) /\ 100 * d / (d + r) <= 100
  /\ 100 * d / (d + r) + 100 * r / (d + r) == 100.
Proof.
  intros Hd Hr HS. split; [apply Qle_shift_div_l; lra|].
  split; [apply Qle_shift_div_r; lra|]. field. lra.
Qed.

Lemma normalizePair_f64_near (d r : Q) :
  quantum d -> quantum r -> 0 <= d -> 0 <= r -> 0 < d + r ->
  100 * d <= 2 ^ 1023 -> 100 * r <= 2 ^ 1023 ->
  exists a b,
    Binary64.normalizePair (Num d) (Num r) = {| D := Num a; R := Num b |}
    /\ 0 <= a /\ 0 <= b /\ quantum a /\ quantum b
    /\ Qabs (a - 100 * d / (d + r)) <= share_tolerance
    /\ Qabs (b - 100 * r / (d + r)) <= share_tolerance
    /\ Qabs (a + b - 100) <= share_tolerance.
Proof.
  intros Qd Qr Hd Hr HS Bd Br.
  destruct (normalizePair_shares d r Qd Qr Hd Hr HS Bd Br)
    as (a & b & E & Ha & Hb & Qa & Qb & A1 & A2 & B1 & B2).
  exists a, b. split; [exact E|].
  split; [exact Ha|]. split; [exact Hb|]. split; [exact Qa|]. split; [exact Qb|].
  destruct f64_constants as (He0 & He8 & Ht0 & Htol & _).
  destruct (shares_of_100 d r Hd Hr HS) as (X0 & X1 & _).
  destruct (shares_of_100 r d Hr Hd ltac:(lra)) as (Y0 & Y1 & _).
  assert (Esum : 100 * d / (d + r) + 100 * r / (d + r) == 100) by (field; lra).
  assert (Ey : 100 * r / (r + d) == 100 * r / (d + r)) by (field; lra).
  rewrite Ey in Y0, Y1.
  set (X := 100 * d / (d + r)) in *. set (Y := 100 * r / (d + r)) in *.
  set (e := f64_eps) in *. set (t := f64_eta) in *. set (T := share_tolerance) in *.
  assert (HXe : X * e <= 100 * e) by nra.
  assert (HYe : Y * e <= 100 * e) by nra.
  assert (HXe0 : 0 <= X * e) by nra.
  assert (HYe0 : 0 <= Y * e) by nra.
  assert (HXY : X * e + Y * e == 100 * e) by (rewrite <- Esum; ring).
  repeat split; apply Qabs_Qle_condition; split; lra.
Qed.

(** C5.  [normalizePair] on binary64 shares.  For non-negative shares with
    a positive sum, [100 d] and [100 r] at most [2^1023], the result is a pair of finite
    non-negative shares, each the exact share [100 x / (d + r)] within the
    tolerance, and their sum is 100 within the tolerance; and whenever the
    rounded sum of the arguments is not finite or not positive the result
    is exactly 50/50. *)
Theorem normalizePair_sum :
  (forall d r : Q,
      binary64 d -> binary64 r -> 0 <= d -> 0 <= r -> 0 < d + r ->
      100 * d <= 2 ^ 1023 -> 100 * r <= 2 ^ 1023 ->
      exists a b,
        Binary64.normalizePair (Num d) (Num r) = {| D := Num a; R := Num b |}
        /\ 0 <= a /\ 0 <= b
        /\ Qabs (a - 100 * d / (d + r)) <= share_tolerance
        /\ Qabs (b - 100 * r / (d + r)) <= share_tolerance
        /\ Qabs (a + b - 100) <= share_tolerance)
  /\ (forall d r : number,
        isFinite (Binary64.add d r) = false \/ jle (Binary64.add d r) (Num 0) = true ->
        Binary64.normalizePair d r = {| D := Num 50; R := Num 50 |}).
Proof.
  split.
  - intros d r Bd Br Hd Hr HS Md Mr.
    destruct (normalizePair_f64_near d r (binary64_quantum d Bd) (binary64_quantum r Br)
                Hd Hr HS Md Mr) as (a & b & E & Ha & Hb & _ & _ & A & B & S).
    exists a, b. repeat split; assumption.
  - intros d r Hs. unfold Binary64.normalizePair. cbv zeta.
    destruct Hs as [Hs|Hs]; rewrite Hs; [reflexivity|].
    rewrite orb_true_r. reflexivity.
Qed.

Lemma normalizePair_sum_witness :
  (exists a b,
      Binary64.normalizePair (Num 45) (Num 30) = {| D := Num a; R := Num b |}
      /\ 0 <= a /\ 0 <= b
      /\ Qabs (a - 100 * 45 / (45 + 30)) <= share_tolerance
      /\ Qabs (b - 100 * 30 / (45 + 30)) <= share_tolerance
      /\ Qabs (a + b - 100) <= share_tolerance)
  /\ Binary64.normalizePair PosInf (Num 3) = {| D := Num 50; R := Num 50 |}
  /\ Binary64.normalizePair (Num (-2)) (Num 1) = {| D := Num 50; R := Num 50 |}.
Proof.
  split; [|split].
  - apply (proj1 normalizePair_sum 45 30); try (vm_compute; reflexivity);
      try (apply Qle_bool_imp_le; reflexivity); reflexivity.
  - apply (proj2 normalizePair_sum PosInf (Num 3)). left. reflexivity.
  - apply (proj2 normalizePair_sum (Num (-2)) (Num 1)). right. vm_compute. reflexivity.
Defined.

(** The sum of the arguments is finite and positive, and the result is not
    a pair of finite shares: [100 * d] overflows. *)
Lemma normalizePair_overflow :
  isFinite (Binary64.add (Num (2 ^ 1020)) (Num (2 ^ 1020))) = true
  /\ jle (Binary64.add (Num (2 ^ 1020)) (Num (2 ^ 1020))) (Num 0) = false
  /\ binary64 (2 ^ 1020)
  /\ Binary64.normalizePair (Num (2 ^ 1020)) (Num (2 ^ 1020))
     = {| D := PosInf; R := PosInf |}.
Proof. vm_compute. repeat split; reflexivity. Qed.

(** With arguments of opposite signs the shares are as large as the
    arguments are against their sum, and so is the rounding of their sum:
    the shares of [2^52 + 1] and [- 2^52], whose sum is 1, add up to 128. *)
Example normalizePair_mixed_signs :
  num_eq (Binary64.add (Num (2 ^ 52 + 1)) (Num (- 2 ^ 52))) (Num 1)
  /\ exists a b,
       Binary64.normalizePair (Num (2 ^ 52 + 1)) (Num (- 2 ^ 52))
       = {| D := Num a; R := Num b |}
       /\ a + b == 128.
Proof.
  split; [vm_compute; reflexivity|].
  eexists _, _. split; [vm_compute; reflexivity|]. vm_compute. reflexivity.
Qed.

(** ** [weightedCombine] in binary64 *)



Lemma combine_constants :
  f64_eps == 1 # 9007199254740992
  /\ f64_eta <= kappa * 2 ^ (-500)
  /\ f64_eta <= kappa
  /\ kappa == 1 # 1267650600228229401496703205376
  /\ share_tolerance == 1 # 17592186044416
  /\ combine_tolerance == 1 # 1099511627776.
Proof.
  unfold f64_eps, f64_eta, kappa, share_tolerance, combine_tolerance.
  repeat split; try reflexivity; apply Qle_bool_imp_le; reflexivity.
Qed.


(** Normalising two shares that are within [2^-43] of a pair summing to
    100 within the tolerance gives that pair back within [2^-40]. *)
Lemma normalizePair_near_pair (a b d2 r2 : Q) :
  0 <= a -> 0 <= b -> Qabs (a + b - 100) <= share_tolerance ->
  a - 2 ^ (-43) <= d2 -> d2 <= a + 2 ^ (-43) ->
  b - 2 ^ (-43) <= r2 -> r2 <= b + 2 ^ (-43) ->
  0 <= d2 -> 0 <= r2 -> quantum d2 -> quantum r2 ->
  exists a' b',
    Binary64.normalizePair (Num d2) (Num r2) = {| D := Num a'; R := Num b' |}
    /\ Qabs (a' - a) <= combine_tolerance /\ Qabs (b' - b) <= combine_tolerance.
Proof.
  intros Ha Hb Hab La Ua Lb Ub Hd Hr Qd Qr.
  destruct combine_constants as (Ee & _ & Htk & Ek & ET & ETc).
  assert (E43 : 2 ^ (-43) == 1 # 8796093022208) by reflexivity.
  rewrite E43 in *. rewrite ET in Hab.
  apply Qabs_Qle_condition in Hab as [Hab1 Hab2].
  assert (HM : 20000 <= 2 ^ 1023) by (apply Qle_bool_imp_le; reflexivity).
  destruct (normalizePair_shares d2 r2 Qd Qr Hd Hr) as
    (a' & b' & E & Ha' & Hb' & _ & _ & A1 & A2 & B1 & B2); try lra.
  exists a', b'. split; [exact E|]. rewrite ETc.
  rewrite Ee in *. rewrite Ek in *.
  set (e := 1 # 9007199254740992) in *.
  set (k := 1 # 1267650600228229401496703205376) in *.
  set (t := f64_eta) in *.
  assert (Ht : 0 <= t) by (apply Qlt_le_weak, f64_eps_eta).
  set (S := d2 + r2) in *.
  assert (HS : 0 < S) by (unfold S; lra).
  assert (Hnear : forall x x2 : Q,
             0 <= x -> x <= 101 -> 0 <= x2 ->
             x - (1 # 8796093022208) <= x2 -> x2 <= x + (1 # 8796093022208) ->
             x - (1 # 2199023255552) <= 100 * x2 / S
             /\ 100 * x2 / S <= x + (1 # 2199023255552)).
  { intros x x2 Hx0 Hx1 Hx2 L U. set (X := 100 * x2 / S).
    assert (EX : 100 * x2 == X * S) by (unfold X; field; lra).
    assert (HS1 : 100 - (2 # 8796093022208) - (1 # 17592186044416) <= S) by (unfold S; lra).
    assert (HS2 : S <= 100 + (2 # 8796093022208) + (1 # 17592186044416)) by (unfold S; lra).
    split.
    - apply Qmult_le_r with S; [exact HS|]. rewrite <- EX.
      destruct (Qlt_le_dec x (1 # 2199023255552)) as [Hsmall|Hbig].
      + assert ((x - (1 # 2199023255552)) * S <= 0 * S)
          by (apply Qmult_le_compat_r; lra). lra.
      + assert ((x - (1 # 2199023255552)) * S
                <= (x - (1 # 2199023255552))
                   * (100 + (2 # 8796093022208) + (1 # 17592186044416))).
        { rewrite !(Qmult_comm (x - (1 # 2199023255552))).
          apply Qmult_le_compat_r; lra. }
        lra.
    - apply Qmult_le_r with S; [exact HS|]. rewrite <- EX.
      assert ((x + (1 # 2199023255552))
              * (100 - (2 # 8796093022208) - (1 # 17592186044416))
              <= (x + (1 # 2199023255552)) * S).
      { rewrite !(Qmult_comm (x + (1 # 2199023255552))).
        apply Qmult_le_compat_r; lra. }
      lra. }
  destruct (Hnear a d2 Ha ltac:(lra) Hd La Ua) as [XA1 XA2].
  destruct (Hnear b r2 Hb ltac:(lra) Hr Lb Ub) as [XB1 XB2].
  set (X := 100 * d2 / S) in *. set (Y := 100 * r2 / S) in *.
  assert (HX0 : 0 <= X) by (unfold X; apply Qle_shift_div_l; lra).
  assert (HY0 : 0 <= Y) by (unfold Y; apply Qle_shift_div_l; lra).
  unfold e, k in *.
  split; apply Qabs_Qle_condition; split; lra.
Qed.










(** ** The trials of the two engines *)

Section Trials.
Context `{MathLib}.

Lemma seat_loop_pos rnd swing margins pos :
  snd (seat_loop rnd swing margins pos) = (pos + length margins)%nat.
Proof.
  revert pos. induction margins as [|m ms IH]; intros pos; cbn [seat_loop length].
  - cbn. lia.
  - specialize (IH (S pos)). destruct (seat_loop rnd swing ms (S pos)) as [rest pos'].
    cbn in *. lia.
Qed.

Lemma seat_loop_length rnd swing margins pos :
  length (fst (seat_loop rnd swing margins pos)) = length margins.
Proof.
  revert pos. induction margins as [|m ms IH]; intros pos; cbn [seat_loop length].
  - reflexivity.
  - specialize (IH (S pos)). destruct (seat_loop rnd swing ms (S pos)) as [rest pos'].
    cbn in *. lia.
Qed.

Lemma count_wins_bounds wins : (0 <= count_wins wins <= Z.of_nat (length wins))%Z.
Proof.
  unfold count_wins. pose proof (length_filter (fun w : bool => Is_true w) wins). lia.
Qed.

(** The two engines run the same trial up to the control test: the same
    draws give the same seats won and the same seat total. *)
Lemma odds_trial_same_seats (c : chamber) margins rnd pos :
  c <> house ->
  t_dSeats (odds_trial c margins rnd pos) = t_dSeats (sim_trial c margins rnd pos)
  /\ t_wins (odds_trial c margins rnd pos) = t_wins (sim_trial c margins rnd pos)
  /\ t_pos (odds_trial c margins rnd pos) = t_pos (sim_trial c margins rnd pos).
Proof.
  intros Hc. unfold odds_trial, sim_trial. cbv zeta.
  assert (E : swing_range c = SENATE_MC_SWING_RANGE_PTS) by (destruct c; [reflexivity|reflexivity|contradiction]).
  rewrite E.
  destruct (seat_loop rnd _ margins (S pos)) as [wins pos']. cbn. auto.
Qed.

(** For the senate the control test is the same too. *)
Lemma odds_trial_senate margins rnd pos :
  odds_trial senate margins rnd pos = sim_trial senate margins rnd pos.
Proof.
  unfold odds_trial, sim_trial. cbv zeta. cbn [swing_range andb].
  destruct (seat_loop rnd _ margins (S pos)) as [wins pos'].
  cbn [current_control_line]. rewrite orb_false_r. reflexivity.
Qed.

(** For the governors the two control tests differ on a total of 25 only. *)
Lemma odds_trial_governor margins rnd pos :
  t_control (odds_trial governor margins rnd pos)
  = t_control (sim_trial governor margins rnd pos)
    || (t_dSeats (sim_trial governor margins rnd pos) =? 25)%Z.
Proof.
  unfold odds_trial, sim_trial. cbv zeta. cbn [swing_range andb].
  destruct (seat_loop rnd _ margins (S pos)) as [wins pos']. reflexivity.
Qed.

(** Seats at margin 0 under a swing of 0: a seat is won when its draw is
    under one half. *)
Lemma jlt_proper_r x a b : a == b -> jlt x (Num a) = jlt x (Num b).
Proof.
  intros Hab. destruct x as [q| | |]; try reflexivity. cbn [jlt]. unfold Qltb.
  f_equal. destruct (Qle_bool a q) eqn:E1; destruct (Qle_bool b q) eqn:E2;
    rewrite ?Qle_bool_iff, ?Qle_bool_gt in *; try reflexivity; lra.
Qed.

Lemma winProbD_fast_zero_sum a b :
  a + b == 0 -> exists r, winProbD_fast (jadd (Num a) (Num b)) = Num r /\ r == 1 # 2.
Proof.
  intros Hab. rewrite jadd_Num, (winProbD_fast_proper _ 0 Hab).
  pose proof winProbD_fast_zero as Hz.
  destruct (winProbD_fast (Num 0)) as [r| | |]; try contradiction.
  exists r. split; [reflexivity|]. cbn in Hz. rewrite Hz. reflexivity.
Qed.

Lemma seat_loop_even rnd sw n pos :
  sw == 0 ->
  seat_loop rnd (Num sw) (replicate n (Num 0)) pos
  = (map (fun k => jlt (rnd k) (Num (1 # 2))) (seq pos n), (pos + n)%nat).
Proof.
  intros Hsw. revert pos. induction n as [|n IH]; intros pos.
  - cbn. f_equal. lia.
  - cbn [replicate seat_loop seq map]. rewrite IH.
    destruct (winProbD_fast_zero_sum 0 sw ltac:(lra)) as (r & -> & Hr).
    rewrite (jlt_proper_r _ _ _ Hr). f_equal. lia.
Qed.
End Trials.

(** C1 (where the code departs from it).  On the same 36 margins and the
    same draws, the two governor engines reach the same seat total, 25, and
    classify it differently: [runGovernorSimulation] counts no control win
    ([25 >= 26] fails), [runOddsOverTimeState] counts one (its tie rule). *)
Theorem governor_tie_classification `{MathLib} :
  t_dSeats (sim_trial governor (replicate 36 (Num 0)) tie_draws 0) = 25%Z
  /\ t_dSeats (odds_trial governor (replicate 36 (Num 0)) tie_draws 0) = 25%Z
  /\ t_control (sim_trial governor (replicate 36 (Num 0)) tie_draws 0) = false
  /\ t_control (odds_trial governor (replicate 36 (Num 0)) tie_draws 0) = true.
Proof.
  assert (Hsw : (0.5 * 2 + - 1) * 7 == 0) by reflexivity.
  unfold sim_trial, odds_trial, draw_swing, swing_range, SENATE_MC_SWING_RANGE_PTS.
  cbv zeta. change (tie_draws 0%nat) with (Num 0.5). jnum idtac.
  rewrite (seat_loop_even tie_draws _ 36 1 Hsw).
  repeat split; vm_compute; reflexivity.
Qed.
(** ** Histograms *)

Lemma sum_list_replicate_0 n : sum_list (replicate n 0%Z) = 0%Z.
Proof. induction n as [|n IH]; cbn; [reflexivity|]. exact IH. Qed.

Lemma sum_list_alter_succ (i : nat) (cs : list Z) :
  (i < length cs)%nat -> sum_list (alter Z.succ i cs) = (sum_list cs + 1)%Z.
Proof.
  revert i. induction cs as [|c cs IH]; intros i Hi; cbn in Hi; [lia|].
  destruct i as [|i].
  - change (alter Z.succ 0%nat (c :: cs)) with (Z.succ c :: cs).
    unfold sum_list. cbn [foldr]. lia.
  - change (alter Z.succ (S i) (c :: cs)) with (c :: alter Z.succ i cs).
    specialize (IH i ltac:(lia)). unfold sum_list in *. cbn [foldr]. lia.
Qed.

Lemma sum_list_incr i cs :
  (0 <= i < Z.of_nat (length cs))%Z -> sum_list (incr i cs) = (sum_list cs + 1)%Z.
Proof.
  intros Hi. unfold incr. destruct (Z.ltb_spec i 0); [lia|].
  apply sum_list_alter_succ. lia.
Qed.

Lemma length_incr i cs : length (incr i cs) = length cs.
Proof.
  unfold incr. destruct (i <? 0)%Z; [reflexivity|]. apply length_alter.
Qed.

(** The full-range strategy counts exactly the samples inside the range. *)
Lemma range_fold_sum lo hi samples cs :
  length cs = Z.to_nat (hi - lo + 1) ->
  let cs' :=
    foldl (fun cs v =>
             if (v <? lo)%Z || (hi <? v)%Z then cs else incr (v - lo) cs) cs samples in
  length cs' = length cs
  /\ sum_list cs' = (sum_list cs + count_in_range lo hi samples)%Z.
Proof.
  revert cs. induction samples as [|v vs IH]; intros cs Hlen; cbn [foldl].
  - split; [reflexivity|]. unfold count_in_range. cbn. lia.
  - unfold count_in_range. rewrite filter_cons.
    destruct (Z.ltb_spec v lo) as [Hlo|Hlo]; cbn [orb].
    + destruct (IH cs Hlen) as [L S]. split; [exact L|].
      rewrite S. unfold count_in_range.
      destruct (decide (Is_true (in_range lo hi v))) as [Hin|]; [|reflexivity].
      unfold in_range in Hin. apply Is_true_true, andb_prop in Hin as [Hin _].
      apply Z.leb_le in Hin. lia.
    + destruct (Z.ltb_spec hi v) as [Hhi|Hhi].
      * destruct (IH cs Hlen) as [L S]. split; [exact L|].
        rewrite S. unfold count_in_range.
        destruct (decide (Is_true (in_range lo hi v))) as [Hin|]; [|reflexivity].
        unfold in_range in Hin. apply Is_true_true, andb_prop in Hin as [_ Hin].
        apply Z.leb_le in Hin. lia.
      * assert (Hl' : length (incr (v - lo) cs) = Z.to_nat (hi - lo + 1))
          by (rewrite length_incr; exact Hlen).
        destruct (IH _ Hl') as [L S]. rewrite length_incr in L.
        split; [exact L|]. rewrite S, sum_list_incr by lia.
        unfold count_in_range.
        destruct (decide (Is_true (in_range lo hi v))) as [Hin|Hout].
        -- cbn [length]. lia.
        -- exfalso. apply Hout. unfold in_range. apply Is_true_true.
           apply andb_true_intro. split; apply Z.leb_le; lia.
Qed.

Lemma buildRangeHistogram_sum samples lo hi :
  sum_list (counts (buildRangeHistogram samples lo hi)) = count_in_range lo hi samples.
Proof.
  unfold buildRangeHistogram. cbn [counts].
  destruct (range_fold_sum lo hi samples (replicate (Z.to_nat (hi - lo + 1)) 0%Z)) as [_ S].
  - apply length_replicate.
  - cbv zeta in S. rewrite S, sum_list_replicate_0. lia.
Qed.

Lemma count_in_range_le lo hi samples :
  (0 <= count_in_range lo hi samples <= Z.of_nat (length samples))%Z.
Proof.
  unfold count_in_range.
  pose proof (length_filter (fun v => Is_true (in_range lo hi v)) samples). lia.
Qed.

Lemma count_in_range_all lo hi samples :
  Forall (fun v => (lo <= v <= hi)%Z) samples ->
  count_in_range lo hi samples = Z.of_nat (length samples).
Proof.
  intros Hall. unfold count_in_range. f_equal. f_equal.
  induction Hall as [|v vs Hv _ IH]; [reflexivity|].
  rewrite filter_cons. destruct (decide _) as [|Hout]; [cbn; congruence|].
  exfalso. apply Hout. unfold in_range. apply Is_true_true.
  apply andb_true_intro. split; apply Z.leb_le; lia.
Qed.

Lemma count_in_range_none lo hi samples :
  Forall (fun v => (v < lo)%Z \/ (hi < v)%Z) samples ->
  count_in_range lo hi samples = 0%Z.
Proof.
  intros Hall. unfold count_in_range.
  induction Hall as [|v vs Hv _ IH]; [reflexivity|].
  rewrite filter_cons. destruct (decide _) as [Hin|]; [|exact IH].
  exfalso. unfold in_range in Hin. apply Is_true_true, andb_prop in Hin as [H1 H2].
  apply Z.leb_le in H1, H2. lia.
Qed.

(** The binned strategy counts every sample. *)
Lemma min_fold_spec samples a :
  exists b, foldl min_step (Some a) samples = Some b
    /\ (b <= a)%Z /\ Forall (fun v => (b <= v)%Z) samples.
Proof.
  revert a. induction samples as [|v vs IH]; intros a; cbn [foldl min_step].
  - exists a. repeat split; [lia | constructor].
  - destruct (Z.ltb_spec v a) as [Hlt|Hge].
    + destruct (IH v) as (b & E & Hb & Hall). exists b.
      repeat split; [exact E | lia | constructor; [lia | exact Hall]].
    + destruct (IH a) as (b & E & Hb & Hall). exists b.
      repeat split; [exact E | lia | constructor; [lia | exact Hall]].
Qed.

Lemma max_fold_spec samples a :
  exists b, foldl max_step (Some a) samples = Some b
    /\ (a <= b)%Z /\ Forall (fun v => (v <= b)%Z) samples.
Proof.
  revert a. induction samples as [|v vs IH]; intros a; cbn [foldl max_step].
  - exists a. repeat split; [lia | constructor].
  - destruct (Z.ltb_spec a v) as [Hlt|Hge].
    + destruct (IH v) as (b & E & Hb & Hall). exists b.
      repeat split; [exact E | lia | constructor; [lia | exact Hall]].
    + destruct (IH a) as (b & E & Hb & Hall). exists b.
      repeat split; [exact E | lia | constructor; [lia | exact Hall]].
Qed.

Lemma binned_fold_sum (size off minB n : Z) samples cs :
  length cs = Z.to_nat n ->
  Forall (fun v => (0 <= (toBinStart size off v - minB) / size < n)%Z) samples ->
  sum_list
    (foldl (fun cs v =>
              let b := toBinStart size off v in
              let idx := ((b - minB) / size)%Z in
              if (0 <=? idx)%Z && (idx <? n)%Z then incr idx cs else cs) cs samples)
  = (sum_list cs + Z.of_nat (length samples))%Z.
Proof.
  intros Hlen Hall. revert cs Hlen.
  induction Hall as [|v vs Hv _ IH]; intros cs Hlen; cbn [foldl length].
  - lia.
  - cbv zeta.
    destruct (Z.leb_spec 0 ((toBinStart size off v - minB) / size)); [|lia].
    destruct (Z.ltb_spec ((toBinStart size off v - minB) / size) n); [|lia].
    cbn [andb]. rewrite IH by (rewrite length_incr; exact Hlen).
    rewrite sum_list_incr by lia. lia.
Qed.

Lemma toBinStart_index size off a v :
  (0 < size)%Z ->
  ((toBinStart size off v - toBinStart size off a) / size
   = (v - off) / size - (a - off) / size)%Z.
Proof.
  intros Hs. unfold toBinStart.
  replace ((v - off) / size * size + off - ((a - off) / size * size + off))%Z
    with (((v - off) / size - (a - off) / size) * size)%Z by lia.
  apply Z.div_mul. lia.
Qed.

Lemma min_max_spec samples :
  exists a b,
    match foldl min_step None samples, foldl max_step None samples with
    | Some a', Some b' => (a', b')
    | _, _ => (0%Z, 0%Z)
    end = (a, b)
    /\ Forall (fun v => (a <= v <= b)%Z) samples.
Proof.
  destruct samples as [|v0 vs].
  - exists 0%Z, 0%Z. split; [reflexivity | constructor].
  - cbn [foldl min_step max_step].
    destruct (min_fold_spec vs v0) as (a & -> & Ha & Hmin).
    destruct (max_fold_spec vs v0) as (b & -> & Hb & Hmax).
    exists a, b. split; [reflexivity|].
    constructor; [lia|]. rewrite Forall_forall in *. intros v Hv.
    specialize (Hmin v Hv). specialize (Hmax v Hv). lia.
Qed.

Lemma buildBinnedHistogram_sum samples size off :
  sum_list (counts (buildBinnedHistogram samples size off))
  = Z.of_nat (length samples).
Proof.
  unfold buildBinnedHistogram. cbv zeta.
  assert (Hs : (0 < Z.max 1 size)%Z) by lia.
  set (bs := Z.max 1 size) in *.
  destruct (min_max_spec samples) as (a & b & -> & Hall).
  cbn [counts].
  set (n := Z.max 1 ((toBinStart bs off b - toBinStart bs off a) / bs + 1)).
  rewrite binned_fold_sum.
  - rewrite sum_list_replicate_0. lia.
  - apply length_replicate.
  - eapply Forall_impl; [exact Hall|]. intros v [Hav Hvb]. cbv beta.
    rewrite toBinStart_index by exact Hs. unfold n.
    rewrite toBinStart_index by exact Hs.
    assert (((a - off) / bs <= (v - off) / bs)%Z) by (apply Z.div_le_mono; lia).
    assert (((v - off) / bs <= (b - off) / bs)%Z) by (apply Z.div_le_mono; lia).
    lia.
Qed.

(** ** The samples of a simulation *)

Lemma int16_small z : (-32768 <= z < 32768)%Z -> int16 z = z.
Proof. intros Hz. unfold int16. rewrite Z.mod_small by lia. lia. Qed.

Section Samples.
Context `{MathLib}.

Lemma sim_trial_total c margins rnd pos :
  (baseD (SEAT_RULES c) <= t_dSeats (sim_trial c margins rnd pos)
   <= baseD (SEAT_RULES c) + Z.of_nat (length margins))%Z.
Proof.
  unfold sim_trial. cbv zeta.
  pose proof (seat_loop_length rnd (draw_swing rnd pos (swing_range c)) margins (S pos)) as Hl.
  destruct (seat_loop rnd _ margins (S pos)) as [wins pos']. cbn [fst] in Hl.
  cbn [t_dSeats]. pose proof (count_wins_bounds wins). lia.
Qed.

(** The samples a loop of [n] trials adds: [n] of them, each the seat total
    of a trial. *)
Lemma sim_loop_samples c margins rnd n st :
  (length margins <= 1000)%nat ->
  exists new,
    s_samples (sim_loop n (sim_trial c margins) rnd st) = s_samples st ++ new
    /\ length new = n
    /\ Forall (fun v => (baseD (SEAT_RULES c) <= v
                         <= baseD (SEAT_RULES c) + Z.of_nat (length margins))%Z) new.
Proof.
  intros Hm. revert st. induction n as [|n IH]; intros st; cbn [sim_loop].
  - exists []. rewrite app_nil_r. repeat split. constructor.
  - destruct (IH (sim_step (sim_trial c margins) rnd st)) as (new & E & L & F).
    exists (int16 (t_dSeats (sim_trial c margins rnd (s_pos st))) :: new).
    rewrite E. unfold sim_step at 1. cbn [s_samples]. rewrite <- app_assoc.
    repeat split; [cbn; lia|].
    constructor; [|exact F].
    pose proof (sim_trial_total c margins rnd (s_pos st)) as Ht.
    assert (Hb : (0 <= baseD (SEAT_RULES c) <= 100)%Z) by (destruct c; cbn; lia).
    rewrite int16_small by lia. exact Ht.
Qed.

Lemma baseline_margins_length c models :
  length (baseline_margins c models) = Z.to_nat (upSeats c).
Proof.
  unfold baseline_margins. cbv zeta. rewrite length_app, length_replicate.
  pose proof (length_take_le (omap (fun m => stored_margin <$> m) models)
                (Z.to_nat (upSeats c))) as Hl.
  rewrite length_take. lia.
Qed.

Lemma runSimulation_samples c dt ind rnd :
  length (seatSamples (runSimulation c dt ind rnd)) = NUM_SIMS
  /\ Forall (fun v => (baseD (SEAT_RULES c) <= v
                       <= baseD (SEAT_RULES c) + upSeats c)%Z)
       (seatSamples (runSimulation c dt ind rnd)).
Proof.
  unfold runSimulation. cbv zeta. cbn [seatSamples].
  set (margins := baseline_margins c (chamber_models dt c ind)).
  assert (Hl : length margins = Z.to_nat (upSeats c)) by apply baseline_margins_length.
  assert (Hu : (0 <= upSeats c <= 435)%Z) by (destruct c; vm_compute; split; discriminate).
  destruct (sim_loop_samples c margins rnd NUM_SIMS (sim_init (length margins) 0))
    as (new & -> & L & F); [lia|].
  cbn [sim_init s_samples app]. split; [exact L|].
  eapply Forall_impl; [exact F|]. intros v Hv. cbv beta in *. lia.
Qed.
End Samples.

Section HistogramTotals.
Context `{MathLib}.

Lemma count_wins_none (l : list nat) (f : nat -> bool) :
  (forall k, f k = false) -> count_wins (map f l) = 0%Z.
Proof.
  intros Hf. unfold count_wins. induction l as [|k l IH]; [reflexivity|].
  cbn [map]. rewrite filter_cons, Hf.
  destruct (decide (Is_true false)) as [[]|]. exact IH.
Qed.

(** With every draw at 0.5 and every margin at 0 no seat is won. *)
Lemma sim_trial_half_draws c n pos :
  t_dSeats (sim_trial c (replicate n (Num 0)) half_draws pos) = baseD (SEAT_RULES c).
Proof.
  unfold sim_trial, draw_swing. cbv zeta. change (half_draws pos) with (Num 0.5).
  assert (Hr : exists q, swing_range c = Num q) by (destruct c; eexists; reflexivity).
  destruct Hr as [q ->]. jnum idtac.
  rewrite seat_loop_even by (cbn; ring). cbn [t_dSeats].
  rewrite count_wins_none by reflexivity. lia.
Qed.

Lemma sim_loop_half_draws c m n st :
  exists new,
    s_samples (sim_loop n (sim_trial c (replicate m (Num 0))) half_draws st)
    = s_samples st ++ new
    /\ Forall (fun v => v = baseD (SEAT_RULES c)) new.
Proof.
  revert st. induction n as [|n IH]; intros st; cbn [sim_loop].
  - exists []. rewrite app_nil_r. split; [reflexivity | constructor].
  - destruct (IH (sim_step (sim_trial c (replicate m (Num 0))) half_draws st))
      as (new & E & F).
    eexists (_ :: new). rewrite E. unfold sim_step at 1. cbn [s_samples].
    rewrite <- app_assoc. split; [reflexivity|].
    constructor; [|exact F]. rewrite sim_trial_half_draws.
    apply int16_small. destruct c; cbn; lia.
Qed.

Lemma governor_samples_no_data :
  Forall (fun v => v = 6%Z) (seatSamples (runGovernorSimulation no_data None half_draws)).
Proof.
  unfold runGovernorSimulation, runSimulation. cbv zeta. cbn [seatSamples].
  change (baseline_margins governor (chamber_models no_data governor None))
    with (replicate 36 (Num 0)).
  destruct (sim_loop_half_draws governor 36 NUM_SIMS
              (sim_init (length (replicate 36 (Num 0))) 0)) as (new & -> & F).
  exact F.
Qed.
End HistogramTotals.

Lemma runSimulation_distribution `{MathLib} c dt ind rnd :
  seatDistribution (runSimulation c dt ind rnd)
  = buildSeatHistogram (seatSamples (runSimulation c dt ind rnd)) c.
Proof.
  unfold runSimulation. cbv zeta. cbn [seatDistribution seatSamples]. reflexivity.
Qed.

(** C2 (as the code has it).  The counts of the house histogram (binned) and
    of the senate histogram (one bin per total from 34 to 69) sum to the
    trial count.  The governor histogram shows the totals from 21 to 31 only:
    its counts sum to the number of trials whose total lies in that range,
    which is at most the trial count. *)
Theorem seat_histogram_counts `{MathLib} (dt : data) (ind : option pair) (rnd : rng) :
  sum_list (counts (seatDistribution (runHouseSimulation dt rnd))) = Z.of_nat NUM_SIMS
  /\ sum_list (counts (seatDistribution (runSenateSimulation dt ind rnd)))
     = Z.of_nat NUM_SIMS
  /\ sum_list (counts (seatDistribution (runGovernorSimulation dt ind rnd)))
     = count_in_range 21 31 (seatSamples (runGovernorSimulation dt ind rnd))
  /\ (count_in_range 21 31 (seatSamples (runGovernorSimulation dt ind rnd))
      <= Z.of_nat NUM_SIMS)%Z.
Proof.
  unfold runHouseSimulation, runSenateSimulation, runGovernorSimulation.
  rewrite !runSimulation_distribution.
  destruct (runSimulation_samples house dt None rnd) as [Lh _].
  destruct (runSimulation_samples senate dt ind rnd) as [Ls Fs].
  destruct (runSimulation_samples governor dt ind rnd) as [Lg _].
  revert Lh Ls Fs Lg.
  generalize (seatSamples (runSimulation house dt None rnd)).
  generalize (seatSamples (runSimulation senate dt ind rnd)).
  generalize (seatSamples (runSimulation governor dt ind rnd)).
  generalize NUM_SIMS. intros N gov sen hou Lh Ls Fs Lg.
  split; [|split; [|split]].
  - rewrite <- Lh. apply buildBinnedHistogram_sum.
  - rewrite <- Ls.
    change (buildSeatHistogram sen senate) with (buildRangeHistogram sen 34 (34 + 35)).
    rewrite buildRangeHistogram_sum. apply count_in_range_all.
    eapply Forall_impl; [exact Fs|]. intros v Hv.
    unfold upSeats in Hv. cbn [SEAT_RULES baseD baseR total] in Hv. lia.
  - apply buildRangeHistogram_sum.
  - rewrite <- Lg. apply count_in_range_le.
Qed.

(** C2 fails as stated: with no governor data and every draw at 0.5 each of
    the 10,000 trials totals 6 seats, outside the range shown, and the
    governor histogram counts none of them. *)
Lemma governor_histogram_drops_trials :
  sum_list (counts (seatDistribution
                      (@runGovernorSimulation rational_MathLib no_data None half_draws)))
  <> Z.of_nat NUM_SIMS.
Proof.
  unfold runGovernorSimulation. rewrite runSimulation_distribution.
  pose proof (@governor_samples_no_data rational_MathLib) as F.
  unfold runGovernorSimulation in F. revert F.
  generalize (seatSamples (@runSimulation rational_MathLib governor no_data None half_draws)).
  intros samples F.
  change (buildSeatHistogram samples governor) with (buildRangeHistogram samples 21 31).
  rewrite buildRangeHistogram_sum, count_in_range_none.
  - change (Z.of_nat NUM_SIMS) with 10000%Z. discriminate.
  - eapply Forall_impl; [exact F|]. intros v ->. lia.
Qed.
(** ** The house model and the house polls *)

(** C10.  Changing the house polls of the snapshot changes neither the model
    of any district (pair, hence margin, and win probability), nor the
    margins of the house time series on any day, nor, on the same draws, the
    result of the house simulation; and an indicator handed to the house
    simulation changes nothing. *)
Theorem house_model_ignores_polls `{MathLib} (dt : data) (p : gmap string poll_avg)
    (did : string) (g : gb_point) (ind : option pair) (rnd : rng) :
  getHouseModel (with_house_polls p dt) did = getHouseModel dt did
  /\ house_day_margins (with_house_polls p dt) g = house_day_margins dt g
  /\ runHouseSimulation (with_house_polls p dt) rnd = runHouseSimulation dt rnd
  /\ runSimulation house dt ind rnd = runHouseSimulation dt rnd.
Proof.
  split; [|split; [|split]].
  - unfold getHouseModel, house_gb, with_house_polls. cbn [data_house data_senate
      data_governor gb ratios]. reflexivity.
  - unfold house_day_margins, with_house_polls. cbn [data_house ratios]. reflexivity.
  - unfold runHouseSimulation, runSimulation.
    change (chamber_models (with_house_polls p dt) house None)
      with (chamber_models dt house None).
    reflexivity.
  - unfold runHouseSimulation, runSimulation.
    change (chamber_models dt house ind) with (chamber_models dt house None).
    reflexivity.
Qed.
(** ** The columnar encoding round trip *)

Lemma index_from_spec dates i acc d j :
  index_from i dates acc !! d = Some j ->
  (acc !! d = Some j /\ d ∉ dates) \/ ((i <= j)%nat /\ dates !! (j - i)%nat = Some d).
Proof.
  revert i acc. induction dates as [|d0 rest IH]; intros i acc Hj; cbn [index_from] in Hj.
  - left. split; [exact Hj | apply not_elem_of_nil].
  - apply IH in Hj as [[Hacc Hnot] | [Hle Hl]].
    + destruct (decide (d0 = d)) as [->|Hne].
      * rewrite lookup_insert_eq in Hacc. injection Hacc as <-.
        right. split; [lia|]. replace (i - i)%nat with 0%nat by lia. reflexivity.
      * rewrite lookup_insert_ne in Hacc by exact Hne.
        left. split; [exact Hacc|]. rewrite not_elem_of_cons. split; [congruence | exact Hnot].
    + right. split; [lia|].
      replace (j - i)%nat with (S (j - S i)) by lia. exact Hl.
Qed.

Lemma index_from_is_Some dates i acc d :
  d ∈ dates \/ is_Some (acc !! d) -> is_Some (index_from i dates acc !! d).
Proof.
  revert i acc. induction dates as [|d0 rest IH]; intros i acc Hd; cbn [index_from].
  - destruct Hd as [Hd|Hd]; [|exact Hd]. apply elem_of_nil in Hd. destruct Hd.
  - apply IH. destruct Hd as [Hd|Hd].
    + apply elem_of_cons in Hd as [->|Hd]; [|left; exact Hd].
      right. rewrite lookup_insert_eq. eauto.
    + right. destruct (decide (d0 = d)) as [->|Hne].
      * rewrite lookup_insert_eq. eauto.
      * rewrite lookup_insert_ne by exact Hne. exact Hd.
Qed.

(** Looking a date of the shared index up gives a position that holds it. *)
Lemma date_index_lookup dates d :
  d ∈ dates -> exists j, date_index dates !! d = Some j /\ dates !! j = Some d.
Proof.
  intros Hd. unfold date_index.
  destruct (index_from_is_Some dates 0 ∅ d (or_introl Hd)) as [j Hj].
  exists j. split; [exact Hj|].
  apply index_from_spec in Hj as [[Hacc _] | [_ Hl]].
  - rewrite lookup_empty in Hacc. discriminate.
  - replace (j - 0)%nat with j in Hl by lia. exact Hl.
Qed.

Lemma all_dates_elem (stateOddsMap : gmap string (list odds_point)) key arr e :
  stateOddsMap !! key = Some arr -> e ∈ arr -> op_date e ∈ all_dates stateOddsMap.
Proof.
  intros Hk He. unfold all_dates. rewrite merge_sort_Permutation.
  apply elem_of_remove_dups. apply list_elem_of_join.
  exists (map op_date arr). split.
  - apply (list_elem_of_fmap_2 op_date). exact He.
  - change (map op_date arr) with ((fun kv : string * list odds_point => map op_date (snd kv)) (key, arr)).
    apply (list_elem_of_fmap_2 (fun kv : string * list odds_point => map op_date (snd kv))).
    apply elem_of_map_to_list. exact Hk.
Qed.

Lemma decode_points_dates (arr : list odds_point) :
  decode_points (map (fun e => Some (op_date e)) arr) (map op_pDem arr) (map op_margin arr)
  = Some arr.
Proof.
  unfold decode_points. induction arr as [|e arr IH]; [reflexivity|].
  cbn [map zip zip_with mapM fst snd fmap option_fmap option_map].
  cbn in IH. rewrite IH. destruct e. reflexivity.
Qed.

(** A dense series holds the positions [s, s + 1, ...]. *)
Lemma consecutive_lookup prev l a :
  prev = Some a -> consecutive prev l = true ->
  forall k, (k < length l)%nat -> l !! k = Some (Some (a + 1 + k)%nat).
Proof.
  revert prev a. induction l as [|v rest IH]; intros prev a -> Hc k Hk; cbn in Hk; [lia|].
  cbn [consecutive] in Hc. destruct v as [b|]; [|discriminate].
  apply andb_prop in Hc as [Hb Hc]. apply Nat.eqb_eq in Hb. subst b.
  destruct k as [|k].
  - change (Some (Some (a + 1)%nat) = Some (Some (a + 1 + 0)%nat)). do 2 f_equal. lia.
  - change (rest !! k = Some (Some (a + 1 + S k)%nat)).
    rewrite (IH (Some (a + 1)%nat) (a + 1)%nat eq_refl Hc k ltac:(lia)). do 2 f_equal. lia.
Qed.

Lemma isDense_lookup indices :
  isDense indices = true ->
  exists s, head indices = Some (Some s)
    /\ forall k, (k < length indices)%nat -> indices !! k = Some (Some (s + k)%nat).
Proof.
  unfold isDense. destruct indices as [|first rest]; [discriminate|].
  destruct first as [f|]; [|discriminate].
  destruct (last (Some f :: rest)) as [[l|]|]; try discriminate.
  intros Hd. apply andb_prop in Hd as [_ Hc].
  exists f. split; [reflexivity|]. intros k Hk. destruct k as [|k].
  - change (Some (Some f) = Some (Some (f + 0)%nat)). do 2 f_equal. lia.
  - cbn in Hk.
    change (rest !! k = Some (Some (f + S k)%nat)).
    rewrite (consecutive_lookup (Some f) rest f eq_refl Hc k ltac:(lia)).
    do 2 f_equal. lia.
Qed.

Lemma encode_seat_decode (dates : list string) (arr : list odds_point) :
  Forall (fun e => op_date e ∈ dates) arr ->
  decode_seat dates (encode_seat (date_index dates) arr) = Some arr.
Proof.
  intros Hall. unfold encode_seat. cbv zeta.
  set (indices := map (fun e => date_index dates !! op_date e) arr).
  set (pDem := map op_pDem arr). set (margin := map op_margin arr).
  assert (Hidx : forall k e, arr !! k = Some e ->
            exists j, indices !! k = Some (Some j) /\ dates !! j = Some (op_date e)).
  { intros k e Hk. rewrite Forall_forall in Hall.
    destruct (date_index_lookup dates (op_date e)) as (j & Hj & Hd).
    { apply Hall. eapply list_elem_of_lookup_2. exact Hk. }
    exists j. split; [|exact Hd]. unfold indices.
    change (map ?f arr) with (f <$> arr). rewrite list_lookup_fmap, Hk. cbn. rewrite Hj.
    reflexivity. }
  assert (Hlen : length indices = length arr) by (unfold indices; apply length_map).
  destruct (isDense indices) eqn:Hd; cbn [decode_seat].
  - apply isDense_lookup in Hd as (s & Hs & Hk). rewrite Hs. cbn [default].
    unfold pDem, margin.
    etransitivity; [|apply decode_points_dates]. f_equal.
    rewrite length_map. apply list_eq. intros k.
    change (map ?f ?l) with (f <$> l). rewrite !list_lookup_fmap.
    destruct (arr !! k) as [e|] eqn:He.
    + assert (Hlt : (k < length arr)%nat) by (eapply lookup_lt_Some; exact He).
      rewrite lookup_seq_lt by exact Hlt. cbn.
      destruct (Hidx k e He) as (j & Hj & Hdj).
      rewrite Hk in Hj by lia. injection Hj as <-. rewrite Hdj. reflexivity.
    + assert (Hge : (length arr <= k)%nat) by (apply lookup_ge_None; exact He).
      rewrite lookup_seq_ge by exact Hge. reflexivity.
  - unfold pDem, margin.
    etransitivity; [|apply decode_points_dates]. f_equal.
    apply list_eq. intros k.
    change (map ?f ?l) with (f <$> l). rewrite !list_lookup_fmap.
    destruct (arr !! k) as [e|] eqn:He.
    + destruct (Hidx k e He) as (j & Hj & Hdj). rewrite Hj. cbn. rewrite Hdj. reflexivity.
    + assert (Hge : (length indices <= k)%nat) by (rewrite Hlen; apply lookup_ge_None; exact He).
      apply lookup_ge_None in Hge. rewrite Hge. reflexivity.
Qed.

(** C8.  Decoding the encoded entry of a seat against the shared dates gives
    back the seat's list of points, in order, whichever of the dense and the
    sparse form the encoder chose. *)
Theorem encodeStateOddsColumnar_round_trip
    (stateOddsMap : gmap string (list odds_point)) (key : string)
    (arr : list odds_point) :
  stateOddsMap !! key = Some arr ->
  exists e,
    col_states (encodeStateOddsColumnar stateOddsMap) !! key = Some e
    /\ decode_seat (col_dates (encodeStateOddsColumnar stateOddsMap)) e = Some arr.
Proof.
  intros Hk. unfold encodeStateOddsColumnar. cbv zeta. cbn [col_states col_dates].
  rewrite lookup_fmap, Hk. cbn. eexists. split; [reflexivity|].
  apply encode_seat_decode. rewrite Forall_forall. intros e He.
  eapply all_dates_elem; [exact Hk | exact He].
Qed.

Lemma encodeStateOddsColumnar_round_trip_witness :
  exists e,
    col_states (encodeStateOddsColumnar sample_odds) !! "CA"%string = Some e
    /\ decode_seat (col_dates (encodeStateOddsColumnar sample_odds)) e
       = Some [ {| op_date := "2026-01-01"; op_pDem := Num 0.99; op_margin := Num (-21) |};
                {| op_date := "2026-01-03"; op_pDem := Num 0.98; op_margin := Num (-20.5) |} ].
Proof.
  apply (encodeStateOddsColumnar_round_trip sample_odds "CA"%string).
  vm_compute. reflexivity.
Defined.

(** The encoder on the sample: the series without a gap is dense, the other
    sparse. *)
Example encode_sample_dense :
  col_states (encodeStateOddsColumnar sample_odds) !! "AZ"%string
  = Some (Dense (Some 1%nat) [Num 0.61; Num 0.64] [Num (-2.1); Num (-2.6)]).
Proof. vm_compute. reflexivity. Qed.

Example encode_sample_sparse :
  col_states (encodeStateOddsColumnar sample_odds) !! "CA"%string
  = Some (Sparse [Some 0%nat; Some 2%nat] [Num 0.99; Num 0.98] [Num (-21); Num (-20.5)]).
Proof. vm_compute. reflexivity. Qed.
(** ** Rolling windows by prefix sums *)

Lemma sum_Q_from acc l : foldl Qplus acc l == acc + sum_Q l.
Proof.
  unfold sum_Q. revert acc. induction l as [|v l IH]; intros acc; cbn [foldl].
  - ring.
  - rewrite IH, (IH (0 + v)). ring.
Qed.


Lemma sum_Q_cons v l : sum_Q (v :: l) == v + sum_Q l.
Proof. unfold sum_Q. cbn [foldl]. rewrite sum_Q_from. fold (sum_Q l). ring. Qed.



(** ** The rounding error of the prefix sums *)

Section PrefixSums.
Context (B : Q) (HB0 : 0 <= B) (HB : B <= 2 ^ 900).

Let c : Q := f64_eps * B + f64_eta.



End PrefixSums.

Section WindowMean.
Context (B : Q) (HB0 : 0 <= B) (HB : B <= 2 ^ 900).

Let c : Q := f64_eps * B + f64_eta.



End WindowMean.








(** ** The poll matrix *)

Lemma cell_index_inj (n day day' i i' : nat) :
  (i < n)%nat -> (i' < n)%nat -> (day * n + i = day' * n + i')%nat ->
  day = day' /\ i = i'.
Proof.
  intros Hi Hi' E.
  assert (Hd : day = day').
  { destruct (Nat.lt_trichotomy day day') as [Hlt | [Heq | Hgt]]; [|exact Heq|].
    - assert ((S day) * n <= day' * n)%nat by (apply Nat.mul_le_mono_r; lia). lia.
    - assert ((S day') * n <= day * n)%nat by (apply Nat.mul_le_mono_r; lia). lia. }
  subst day'. split; [reflexivity | lia].
Qed.

Section DayLoop.
Context (polls : list state_poll) (W n i : nat).
Let dates := map sp_date polls.
Let psD := prefix_sums (map sp_D polls).
Let psR := prefix_sums (map sp_R polls).

Lemma day_step_length st day dt :
  length (r_D (day_step polls psD psR W n i st day dt)) = length (r_D st)
  /\ length (r_R (day_step polls psD psR W n i st day dt)) = length (r_R st).
Proof.
  unfold day_step. destruct dt as [t|]; [|split; reflexivity]. cbv zeta.
  destruct (_ =? 0)%nat; cbn [r_D r_R]; [split; reflexivity|].
  rewrite !length_insert. split; reflexivity.
Qed.

Lemma day_step_frame st day dt j :
  j <> (day * n + i)%nat ->
  r_D (day_step polls psD psR W n i st day dt) !! j = r_D st !! j
  /\ r_R (day_step polls psD psR W n i st day dt) !! j = r_R st !! j.
Proof.
  intros Hj. unfold day_step. destruct dt as [t|]; [|split; reflexivity]. cbv zeta.
  destruct (_ =? 0)%nat; cbn [r_D r_R]; [split; reflexivity|].
  rewrite !list_lookup_insert_ne by congruence. split; reflexivity.
Qed.

Lemma day_loop_length dds d0 st :
  length (r_D (day_loop polls psD psR W n i dds d0 st)) = length (r_D st)
  /\ length (r_R (day_loop polls psD psR W n i dds d0 st)) = length (r_R st).
Proof.
  revert d0 st. induction dds as [|dt dds IH]; intros d0 st; cbn [day_loop].
  - split; reflexivity.
  - destruct (IH (S d0) (day_step polls psD psR W n i st d0 dt)) as [-> ->].
    apply day_step_length.
Qed.

(** The loop writes at the indices [day' * n + i] of its own days only. *)
Lemma day_loop_frame dds d0 st j :
  (forall day', (d0 <= day')%nat -> j <> (day' * n + i)%nat) ->
  r_D (day_loop polls psD psR W n i dds d0 st) !! j = r_D st !! j
  /\ r_R (day_loop polls psD psR W n i dds d0 st) !! j = r_R st !! j.
Proof.
  revert d0 st. induction dds as [|dt dds IH]; intros d0 st Hj; cbn [day_loop].
  - split; reflexivity.
  - destruct (IH (S d0) (day_step polls psD psR W n i st d0 dt)) as [-> ->].
    + intros day' Hd. apply Hj. lia.
    + apply day_step_frame. apply Hj. lia.
Qed.


End DayLoop.

Section SeatLoop.
Context (src : gmap string (list state_poll)) (W n : nat) (dds : list (option Z)).

Lemma seat_step_length m i k :
  length (fst (seat_step src W n dds m i k)) = length (fst m)
  /\ length (snd (seat_step src W n dds m i k)) = length (snd m).
Proof.
  unfold seat_step. destruct (src !! k) as [[|p ps]|]; try (split; reflexivity).
  cbv zeta. cbn [fst snd]. apply day_loop_length.
Qed.

Lemma seat_step_frame m i k j :
  (forall day', j <> (day' * n + i)%nat) ->
  fst (seat_step src W n dds m i k) !! j = fst m !! j
  /\ snd (seat_step src W n dds m i k) !! j = snd m !! j.
Proof.
  intros Hj. unfold seat_step. destruct (src !! k) as [[|p ps]|]; try (split; reflexivity).
  cbv zeta. cbn [fst snd]. apply day_loop_frame. intros day' _. apply Hj.
Qed.



Lemma seat_loop_pm_length keys i0 m :
  length (fst (seat_loop_pm src W n dds keys i0 m)) = length (fst m)
  /\ length (snd (seat_loop_pm src W n dds keys i0 m)) = length (snd m).
Proof.
  revert i0 m. induction keys as [|k keys IH]; intros i0 m; cbn [seat_loop_pm].
  - split; reflexivity.
  - destruct (IH (S i0) (seat_step src W n dds m i0 k)) as [-> ->].
    apply seat_step_length.
Qed.


End SeatLoop.





(** ** The stable sort by date *)










(** The sample matrix, evaluated: on the third day the Ohio cell holds the
    mean 45 of its three polls, on the first day, before any poll, NaN. *)
Example sample_matrix_cells :
  (fun pm => (read_f32 (pollDDay pm) 4, read_f32 (pollDDay pm) 0, read_f32 (pollDDay pm) 5))
    <$> buildPollMatrixForDays sample_parseDate (Some sample_state_polls)
          ["OH"; "TX"]%string sample_days 6
  = Some (Num (11796480 # 262144), NaN, NaN).
Proof. vm_compute. reflexivity. Qed.

(** Polls of the same day keep their order: of the three polls of day 5
    the window of two takes the last two, with the mean 46. *)
Example calcLastNPollsSeries_same_day :
  sort_by_date sample_same_day = sample_same_day
  /\ match calcLastNPollsSeries sample_same_day 2 5 with
     | [pt] => num_eq (gm_dem pt) (Num 46) /\ num_eq (gm_rep pt) (Num 44)
     | _ => False
     end.
Proof. vm_compute. repeat split; reflexivity. Qed.
(** ** The poll of a day without observations *)

Lemma latest_avg_finite (pollsOf : list state_poll) :
  pollsOf <> [] ->
  exists d r s, latest_avg pollsOf = {| poll_D := Num d; poll_R := Num r; poll_S := Num s |}.
Proof.
  intros Hne. unfold latest_avg. cbv zeta.
  set (recent := drop _ pollsOf).
  assert (Hn : ~ inject_Z (Z.of_nat (length recent)) == 0).
  { intros E. unfold Qeq in E. cbn in E.
    assert (Hl : length recent = 0%nat) by lia.
    unfold recent in Hl. rewrite length_drop in Hl.
    destruct pollsOf as [|p ps]; [congruence|]. cbn [length] in Hl.
    unfold STATE_POLL_WINDOW in Hl. lia. }
  rewrite !jdiv_Num by exact Hn. eauto.
Qed.

Lemma latest_polls_lookup (spd : gmap string (list state_poll)) k pollsOf :
  spd !! k = Some pollsOf -> pollsOf <> [] ->
  latest_polls spd !! k = Some (latest_avg pollsOf).
Proof.
  intros Hk Hne. unfold latest_polls. rewrite lookup_omap, Hk. cbn.
  destruct pollsOf; [congruence | reflexivity].
Qed.

(** After [applyLatestStatePollsToData], the latest poll of a senate or
    governor seat with dated polls is their latest average. *)
Lemma applyLatest_polls spd dt modeKey k pollsOf :
  modeKey <> house -> spd modeKey !! k = Some pollsOf -> pollsOf <> [] ->
  polls (DATA_of (applyLatestStatePollsToData spd dt) modeKey) !! k
  = Some (latest_avg pollsOf)
  /\ ratios (DATA_of (applyLatestStatePollsToData spd dt) modeKey)
     = ratios (DATA_of dt modeKey).
Proof.
  intros Hm Hk Hne.
  destruct modeKey; [| |congruence]; cbn [DATA_of applyLatestStatePollsToData
    data_senate data_governor apply_latest polls ratios];
    (split; [|reflexivity]);
    erewrite lookup_union_Some_l; try reflexivity;
    apply latest_polls_lookup; assumption.
Qed.

Lemma seat_statics_latest (cd : chamber_data) k pollsOf :
  polls cd !! k = Some (latest_avg pollsOf) -> pollsOf <> [] ->
  st_pollD0 (seat_statics cd k) = fround (poll_D (latest_avg pollsOf))
  /\ st_pollR0 (seat_statics cd k) = fround (poll_R (latest_avg pollsOf)).
Proof.
  intros Hp Hne. unfold seat_statics. cbv zeta. cbn [st_pollD0 st_pollR0]. rewrite Hp.
  destruct (latest_avg_finite pollsOf Hne) as (d & r & s & ->). cbn. split; reflexivity.
Qed.



Lemma sum_Q_bounds (l : list Q) lo hi :
  Forall (fun v => lo <= v <= hi) l ->
  lo * inject_Z (Z.of_nat (length l)) <= sum_Q l
  /\ sum_Q l <= hi * inject_Z (Z.of_nat (length l)).
Proof.
  induction 1 as [|v l [Hlo Hhi] _ [IH1 IH2]].
  - change (length (@nil Q)) with 0%nat. change (inject_Z (Z.of_nat 0)) with 0.
    change (sum_Q []) with 0. split; rewrite Qmult_0_r; apply Qle_refl.
  - rewrite sum_Q_cons. cbn [length].
    rewrite Nat2Z.inj_succ, <- Z.add_1_r, inject_Z_plus.
    change (inject_Z 1) with 1. split; lra.
Qed.

Lemma fround_percent a : 0 <= a <= 100 -> isFinite (fround (Num a)) = true.
Proof.
  intros [H0 H1]. cbn [fround]. unfold fround_Q.
  destruct (Qis0 a) eqn:E0; [reflexivity|].
  apply Qis0_false in E0. assert (Ha : 0 < a) by lra.
  assert (E1 : Qltb 0 a = true) by (apply Qltb_lt; assumption). rewrite E1. cbv zeta.
  pose proof (fround_pos_mono a 100 Ha H1) as Hm.
  assert (E100 : fround_pos 100 == 100) by (vm_compute; reflexivity).
  assert (E2 : Qle_bool (2 ^ 128) (fround_pos a) = false).
  { apply Qle_bool_gt. assert (100 < 2 ^ 128) by reflexivity. lra. }
  rewrite E2. reflexivity.
Qed.

Lemma recent_polls_length pollsOf :
  length (recent_polls pollsOf) = Nat.min 6 (length pollsOf).
Proof. unfold recent_polls. rewrite length_drop. change (Z.to_nat STATE_POLL_WINDOW) with 6%nat. lia. Qed.

Lemma latest_avg_mean (pollsOf : list state_poll) lo hi :
  pollsOf <> [] ->
  Forall (fun p => lo <= sp_D p <= hi /\ lo <= sp_R p <= hi) (recent_polls pollsOf) ->
  exists d r s,
    latest_avg pollsOf = {| poll_D := Num d; poll_R := Num r; poll_S := Num s |}
    /\ d == sum_Q (map sp_D (recent_polls pollsOf))
            / inject_Z (Z.of_nat (length (recent_polls pollsOf)))
    /\ r == sum_Q (map sp_R (recent_polls pollsOf))
            / inject_Z (Z.of_nat (length (recent_polls pollsOf)))
    /\ lo <= d <= hi /\ lo <= r <= hi.
Proof.
  intros Hne Hall. unfold latest_avg. cbv zeta. fold (recent_polls pollsOf).
  set (recent := recent_polls pollsOf) in *.
  assert (Hlen : (0 < length recent)%nat).
  { unfold recent. rewrite recent_polls_length.
    destruct pollsOf as [|p ps]; [congruence|]. cbn [length]. lia. }
  assert (Hn : 0 < inject_Z (Z.of_nat (length recent))).
  { change 0 with (inject_Z 0). rewrite <- Zlt_Qlt. lia. }
  assert (HD : Forall (fun v => lo <= v <= hi) (map sp_D recent)).
  { apply Forall_fmap. eapply Forall_impl; [exact Hall|]. intros p [Hp _]. exact Hp. }
  assert (HR : Forall (fun v => lo <= v <= hi) (map sp_R recent)).
  { apply Forall_fmap. eapply Forall_impl; [exact Hall|]. intros p [_ Hp]. exact Hp. }
  apply sum_Q_bounds in HD as [HD0 HD1]. apply sum_Q_bounds in HR as [HR0 HR1].
  rewrite length_map in HD0, HD1, HR0, HR1.
  rewrite !jdiv_Num by lra.
  set (n := inject_Z (Z.of_nat (length recent))) in *.
  eexists _, _, _. split; [reflexivity|]. split; [reflexivity|]. split; [reflexivity|].
  split; (split; [apply Qle_shift_div_l | apply Qle_shift_div_r]; lra).
Qed.



Section Fallback.
Context `{MathLib} (parseDate : string -> option Z).


End Fallback.

(** ** Evaluations on small inputs *)

Example normalizePair_30_20 :
  pair_eq (normalizePair (Num 30) (Num 20)) {| D := Num 60; R := Num 40 |}.
Proof. split; reflexivity. Qed.

Example normalizePair_nan : normalizePair NaN (Num 20) = neutral_pair.
Proof. reflexivity. Qed.

Example weightedCombine_two :
  pair_eq
    (weightedCombine
       [ Some {| c_pair := Some {| D := Num 40; R := Num 60 |}; c_w := Num 35 |};
         Some {| c_pair := Some {| D := Num 57; R := Num 43 |}; c_w := Num 50 |};
         Some {| c_pair := None; c_w := Num 0 |} ])
    {| D := Num 50; R := Num 50 |}.
Proof. split; reflexivity. Qed.

Example range_histogram_drops :
  counts (buildRangeHistogram [21; 22; 22; 35; 6]%Z 21 31)
  = [1; 2; 0; 0; 0; 0; 0; 0; 0; 0; 0]%Z.
Proof. reflexivity. Qed.

Example binned_histogram_keeps :
  counts (buildBinnedHistogram [210; 215; 230; 214]%Z 12 2) = [3; 0; 1]%Z
  /\ h_min (buildBinnedHistogram [210; 215; 230; 214]%Z 12 2) = 206%Z
  /\ h_max (buildBinnedHistogram [210; 215; 230; 214]%Z 12 2) = 241%Z.
Proof. repeat split. Qed.

Example fround_tenth : fround (Num 0.1) = Num (13421773 # 134217728).
Proof. vm_compute. reflexivity. Qed.

Example fround_half : num_eq (fround (Num 0.4999999995)) (Num 0.5).
Proof. vm_compute. reflexivity. Qed.

Example fround_tie_even :
  fround (Num 16777217) = Num 16777216 /\ fround (Num 16777219) = Num 16777220.
Proof. split; vm_compute; reflexivity. Qed.

Example calcLastNPollsSeries_sample :
  map (fun pt => (gm_date pt, gm_count pt)) (calcLastNPollsSeries sample_gb_polls 2 13)
  = [(10, 1%nat); (11, 2%nat); (12, 2%nat); (13, 2%nat)]%Z.
Proof. vm_compute. reflexivity. Qed.
(** ** Tallies of the trial loops *)

Lemma add_wins_length acc wins :
  length wins = length acc -> length (add_wins acc wins) = length acc.
Proof. intros Hl. unfold add_wins. rewrite length_zip_with. lia. Qed.

Lemma add_wins_sum acc wins :
  length wins = length acc ->
  sum_list (add_wins acc wins) = (sum_list acc + count_wins wins)%Z.
Proof.
  revert wins. induction acc as [|a acc IH]; intros [|w wins] Hl; try discriminate.
  - reflexivity.
  - cbn [length] in Hl. injection Hl as Hl. specialize (IH wins Hl).
    unfold add_wins in *. cbn [zip_with]. unfold sum_list in *. cbn [foldr].
    rewrite IH. unfold count_wins. rewrite filter_cons.
    destruct w; destruct (decide _) as [Hd|Hd]; cbn [length]; try lia;
      first [ exfalso; apply Hd; exact I | destruct Hd ].
Qed.

Lemma add_wins_step acc wins :
  length wins = length acc ->
  Forall2 (fun a a' => (a <= a' <= a + 1)%Z) acc (add_wins acc wins).
Proof.
  revert wins. induction acc as [|a acc IH]; intros [|w wins] Hl; try discriminate.
  - constructor.
  - cbn [length] in Hl. injection Hl as Hl. unfold add_wins. cbn [zip_with].
    constructor; [destruct w; lia | apply IH; exact Hl].
Qed.

Lemma sum_list_app l1 l2 : sum_list (l1 ++ l2) = (sum_list l1 + sum_list l2)%Z.
Proof. unfold sum_list. induction l1 as [|a l1 IH]; cbn; [reflexivity | rewrite IH; lia]. Qed.

Lemma foldl_add_sum_list l a : foldl Z.add a l = (a + sum_list l)%Z.
Proof.
  revert a. induction l as [|v l IH]; intros a; cbn [foldl].
  - unfold sum_list. cbn. lia.
  - rewrite IH. unfold sum_list. cbn [foldr]. lia.
Qed.

Lemma count_if_app f l1 l2 : count_if f (l1 ++ l2) = (count_if f l1 + count_if f l2)%Z.
Proof. unfold count_if. rewrite filter_app, length_app. lia. Qed.

Lemma count_if_bounds f l : (0 <= count_if f l <= Z.of_nat (length l))%Z.
Proof. unfold count_if. pose proof (length_filter (fun v => Is_true (f v)) l). lia. Qed.

Section LoopTallies.
Context (run : rng -> nat -> trial) (rnd : rng) (base : Z) (m : nat) (line : Z -> bool).
Hypothesis Hrun : forall pos, trial_spec base m line (run rnd pos).

Lemma trial_spec_total pos :
  (base <= t_dSeats (run rnd pos) <= base + Z.of_nat m)%Z.
Proof.
  destruct (Hrun pos) as (Hl & Hd & _). rewrite Hd.
  pose proof (count_wins_bounds (t_wins (run rnd pos))). lia.
Qed.

(** What [n] more trials add to the tallies; [totals] are their seat
    totals. *)
Lemma sim_loop_tallies n st :
  length (s_wins st) = m ->
  exists totals,
    s_samples (sim_loop n run rnd st) = s_samples st ++ map int16 totals
    /\ length totals = n
    /\ Forall (fun v => (base <= v <= base + Z.of_nat m)%Z) totals
    /\ s_demControl (sim_loop n run rnd st) = (s_demControl st + count_if line totals)%Z
    /\ s_sumDSeats (sim_loop n run rnd st) = (s_sumDSeats st + sum_list totals)%Z
    /\ length (s_wins (sim_loop n run rnd st)) = m
    /\ sum_list (s_wins (sim_loop n run rnd st))
       = (sum_list (s_wins st) + sum_list totals - Z.of_nat n * base)%Z
    /\ Forall2 (fun a a' => (a <= a' <= a + Z.of_nat n)%Z)
         (s_wins st) (s_wins (sim_loop n run rnd st)).
Proof.
  revert st. induction n as [|n IH]; intros st Hw; cbn [sim_loop].
  - exists []. cbn [map]. rewrite app_nil_r.
    assert (Hc0 : count_if line [] = 0%Z) by reflexivity.
    assert (Hs0 : sum_list [] = 0%Z) by reflexivity.
    rewrite Hc0, Hs0.
    split; [reflexivity|]. split; [reflexivity|]. split; [constructor|].
    split; [lia|]. split; [lia|]. split; [exact Hw|]. split; [lia|].
    apply Forall2_same_length_lookup_2; [reflexivity|].
    intros i a a' Ha Ha'. rewrite Ha in Ha'. injection Ha' as <-. lia.
  - destruct (Hrun (s_pos st)) as (Hl & Hd & Hc).
    pose proof (trial_spec_total (s_pos st)) as Ht.
    assert (P1 : s_samples (sim_step run rnd st)
                 = s_samples st ++ [int16 (t_dSeats (run rnd (s_pos st)))])
      by reflexivity.
    assert (P2 : s_demControl (sim_step run rnd st)
                 = (s_demControl st + count_if line [t_dSeats (run rnd (s_pos st))])%Z).
    { unfold sim_step. cbn [s_demControl]. rewrite Hc. unfold count_if.
      rewrite filter_cons, filter_nil.
      destruct (line (t_dSeats (run rnd (s_pos st)))); destruct (decide _) as [Hd'|Hd'];
        cbn [length]; try lia; first [ exfalso; apply Hd'; exact I | destruct Hd' ]. }
    assert (P3 : s_sumDSeats (sim_step run rnd st)
                 = (s_sumDSeats st + t_dSeats (run rnd (s_pos st)))%Z) by reflexivity.
    assert (P4 : s_wins (sim_step run rnd st)
                 = add_wins (s_wins st) (t_wins (run rnd (s_pos st)))) by reflexivity.
    set (t := run rnd (s_pos st)) in *.
    set (st1 := sim_step run rnd st) in *.
    assert (Hw1 : length (s_wins st1) = m) by (rewrite P4, add_wins_length; lia).
    destruct (IH st1 Hw1) as (totals & E & L & F & C & SD & W & WS & WB).
    exists (t_dSeats t :: totals).
    change (t_dSeats t :: totals) with ([t_dSeats t] ++ totals).
    rewrite E, C, SD, WS, P1, P2, P3, P4, <- app_assoc, count_if_app, sum_list_app.
    assert (Hs1 : sum_list [t_dSeats t] = t_dSeats t) by (unfold sum_list; cbn; lia).
    rewrite Hs1, add_wins_sum by lia.
    split; [reflexivity|]. split; [cbn; lia|].
    split; [constructor; assumption|].
    split; [lia|]. split; [lia|]. split; [exact W|]. split; [lia|].
    pose proof (add_wins_step (s_wins st) (t_wins t) ltac:(lia)) as Hstep.
    rewrite P4 in WB.
    apply Forall2_same_length_lookup_2.
    { apply Forall2_length in WB, Hstep. lia. }
    intros i a a' Ha Ha'.
    destruct (Forall2_lookup_l _ _ _ _ _ Hstep Ha) as (b & Hb & Hab).
    destruct (Forall2_lookup_l _ _ _ _ _ WB Hb) as (a'' & Ha'' & Hba).
    rewrite Ha' in Ha''. injection Ha'' as <-. lia.
Qed.

(** From the initial state: the tallies of [n] trials. *)
Lemma sim_loop_init_tallies n pos :
  exists totals,
    s_samples (sim_loop n run rnd (sim_init m pos)) = map int16 totals
    /\ length totals = n
    /\ Forall (fun v => (base <= v <= base + Z.of_nat m)%Z) totals
    /\ s_demControl (sim_loop n run rnd (sim_init m pos)) = count_if line totals
    /\ s_sumDSeats (sim_loop n run rnd (sim_init m pos)) = sum_list totals
    /\ length (s_wins (sim_loop n run rnd (sim_init m pos))) = m
    /\ sum_list (s_wins (sim_loop n run rnd (sim_init m pos)))
       = (sum_list totals - Z.of_nat n * base)%Z
    /\ Forall (fun w => (0 <= w <= Z.of_nat n)%Z)
         (s_wins (sim_loop n run rnd (sim_init m pos))).
Proof.
  destruct (sim_loop_tallies n (sim_init m pos)) as (totals & E & L & F & C & SD & W & WS & WB).
  { cbn [sim_init s_wins]. apply length_replicate. }
  cbn [sim_init s_samples s_demControl s_sumDSeats s_wins app] in E, C, SD, WS, WB.
  rewrite sum_list_replicate_0 in WS.
  exists totals. split; [exact E|]. split; [exact L|]. split; [exact F|].
  split; [lia|]. split; [lia|]. split; [exact W|]. split; [lia|].
  apply Forall_lookup_2. intros i w Hw.
  destruct (Forall2_lookup_r _ _ _ _ _ WB Hw) as (a & Ha & Haw).
  apply lookup_replicate in Ha as [-> _]. lia.
Qed.
End LoopTallies.

Lemma map_int16_small (l : list Z) :
  Forall (fun v => (-32768 <= v < 32768)%Z) l -> map int16 l = l.
Proof.
  induction 1 as [|v l Hv _ IH]; [reflexivity|].
  cbn [map]. rewrite IH, int16_small by exact Hv. reflexivity.
Qed.

Lemma sim_trial_spec `{MathLib} c margins rnd pos :
  trial_spec (baseD (SEAT_RULES c)) (length margins)
    (fun v => (current_control_line c <=? v)%Z) (sim_trial c margins rnd pos).
Proof.
  unfold trial_spec, sim_trial. cbv zeta.
  pose proof (seat_loop_length rnd (draw_swing rnd pos (swing_range c)) margins (S pos)) as Hl.
  destruct (seat_loop rnd _ margins (S pos)) as [wins pos']. cbn [fst] in Hl.
  cbn [t_wins t_dSeats t_control]. split; [exact Hl|]. split; reflexivity.
Qed.

Lemma odds_trial_spec `{MathLib} c margins rnd pos :
  trial_spec (baseD (SEAT_RULES c)) (length margins)
    (fun v => (match c with
               | senate => SENATE_CONTROL_RULE_demAtLeast
               | _ => majorityLine (SEAT_RULES c)
               end <=? v)%Z
              || (match c with governor => true | _ => false end
                  && (v =? majorityLine (SEAT_RULES c) - 1)%Z))
    (odds_trial c margins rnd pos).
Proof.
  unfold trial_spec, odds_trial. cbv zeta.
  pose proof (seat_loop_length rnd (draw_swing rnd pos SENATE_MC_SWING_RANGE_PTS)
                margins (S pos)) as Hl.
  destruct (seat_loop rnd _ margins (S pos)) as [wins pos']. cbn [fst] in Hl.
  cbn [t_wins t_dSeats t_control]. split; [exact Hl|]. split; reflexivity.
Qed.

Lemma runSimulation_loop `{MathLib} c dt ind rnd :
  exists st,
    st = sim_loop NUM_SIMS
           (sim_trial c (baseline_margins c (chamber_models dt c ind))) rnd
           (sim_init (Z.to_nat (upSeats c)) 0)
    /\ demControl (runSimulation c dt ind rnd) = s_demControl st
    /\ seatSamples (runSimulation c dt ind rnd) = s_samples st
    /\ seatWins (runSimulation c dt ind rnd) = s_wins st.
Proof.
  eexists. split; [reflexivity|].
  unfold runSimulation. cbv zeta. cbn [demControl seatSamples seatWins].
  rewrite baseline_margins_length. repeat split.
Qed.

(** The tallies of a current-day simulator, over any number of trials. *)
Lemma current_day_tallies `{MathLib} c margins rnd n :
  length margins = Z.to_nat (upSeats c) ->
  exists samples,
    s_samples (sim_loop n (sim_trial c margins) rnd (sim_init (Z.to_nat (upSeats c)) 0))
    = samples
    /\ length samples = n
    /\ Forall (fun v => (baseD (SEAT_RULES c) <= v
                         <= baseD (SEAT_RULES c) + upSeats c)%Z) samples
    /\ s_demControl (sim_loop n (sim_trial c margins) rnd
                       (sim_init (Z.to_nat (upSeats c)) 0))
       = count_if (fun v => (current_control_line c <=? v)%Z) samples
    /\ length (s_wins (sim_loop n (sim_trial c margins) rnd
                         (sim_init (Z.to_nat (upSeats c)) 0)))
       = Z.to_nat (upSeats c)
    /\ sum_list (s_wins (sim_loop n (sim_trial c margins) rnd
                           (sim_init (Z.to_nat (upSeats c)) 0)))
       = (sum_list samples - Z.of_nat n * baseD (SEAT_RULES c))%Z
    /\ Forall (fun w => (0 <= w <= Z.of_nat n)%Z)
         (s_wins (sim_loop n (sim_trial c margins) rnd
                    (sim_init (Z.to_nat (upSeats c)) 0))).
Proof.
  intros Hl.
  assert (Hu : (0 <= upSeats c <= 435)%Z) by (destruct c; vm_compute; split; discriminate).
  assert (Hb : (0 <= baseD (SEAT_RULES c) <= 100)%Z) by (destruct c; cbn; lia).
  destruct (sim_loop_init_tallies (sim_trial c margins) rnd (baseD (SEAT_RULES c))
              (length margins) (fun v => (current_control_line c <=? v)%Z)
              (fun pos => sim_trial_spec c margins rnd pos) n 0)
    as (totals & E & L & F & C & _ & W & WS & WB).
  rewrite Hl in *.
  rewrite map_int16_small in E.
  2:{ eapply Forall_impl; [exact F|]. intros v Hv. cbv beta in *. lia. }
  exists totals. split; [exact E|]. split; [exact L|].
  split. { eapply Forall_impl; [exact F|]. intros v Hv. cbv beta in *. lia. }
  split; [exact C|]. split; [exact W|]. split; [exact WS|]. exact WB.
Qed.

(** X1.  In every current-day simulator the count of control wins is the
    number of seat samples at or above the control line of the chamber (51
    for the senate, the majority line for the governors and the house), and
    there are [NUM_SIMS] samples, each between the base seats and the base
    plus the seats up. *)
Theorem control_count_matches_samples `{MathLib} (c : chamber) (dt : data)
    (ind : option pair) (rnd : rng) :
  demControl (runSimulation c dt ind rnd)
  = count_if (fun v => (current_control_line c <=? v)%Z)
      (seatSamples (runSimulation c dt ind rnd))
  /\ length (seatSamples (runSimulation c dt ind rnd)) = NUM_SIMS
  /\ Forall (fun v => (baseD (SEAT_RULES c) <= v <= baseD (SEAT_RULES c) + upSeats c)%Z)
       (seatSamples (runSimulation c dt ind rnd)).
Proof.
  destruct (runSimulation_loop c dt ind rnd) as (st & Hst & -> & -> & _).
  destruct (current_day_tallies c (baseline_margins c (chamber_models dt c ind)) rnd
              NUM_SIMS (baseline_margins_length _ _))
    as (samples & E & L & F & C & _).
  rewrite <- Hst in E, C. rewrite C, E. repeat split; assumption.
Qed.

(** X2.  The per-seat win counters of a current-day simulator: one for each
    seat up, each between 0 and the number of trials, and together they
    count the seats won over all the trials, which is the sum of the seat
    samples less the base seats of every trial. *)
Theorem seat_wins_match_samples `{MathLib} (c : chamber) (dt : data)
    (ind : option pair) (rnd : rng) :
  length (seatWins (runSimulation c dt ind rnd)) = Z.to_nat (upSeats c)
  /\ Forall (fun w => (0 <= w <= Z.of_nat NUM_SIMS)%Z)
       (seatWins (runSimulation c dt ind rnd))
  /\ sum_list (seatWins (runSimulation c dt ind rnd))
     = (sum_list (seatSamples (runSimulation c dt ind rnd))
        - Z.of_nat NUM_SIMS * baseD (SEAT_RULES c))%Z.
Proof.
  destruct (runSimulation_loop c dt ind rnd) as (st & Hst & _ & -> & ->).
  destruct (current_day_tallies c (baseline_margins c (chamber_models dt c ind)) rnd
              NUM_SIMS (baseline_margins_length _ _))
    as (samples & E & _ & _ & _ & W & WS & WB).
  rewrite <- Hst in E, W, WS, WB. rewrite E. repeat split; assumption.
Qed.

(** ** Reported figures *)

Lemma scale_pos f : 0 < inject_Z (10 ^ Z.of_nat f).
Proof.
  change 0 with (inject_Z 0). rewrite <- Zlt_Qlt. apply Z.pow_pos_nonneg; lia.
Qed.

Lemma Qfloor_half_Z (k : Z) : Qfloor (inject_Z k + (1 # 2)) = k.
Proof.
  pose proof (Qfloor_bounds (inject_Z k + (1 # 2))) as [H1 H2].
  assert (Ha : inject_Z (Qfloor (inject_Z k + (1 # 2))) < inject_Z (k + 1)).
  { rewrite inject_Z_plus. change (inject_Z 1) with 1. lra. }
  assert (Hb : inject_Z (k - 1) < inject_Z (Qfloor (inject_Z k + (1 # 2)))).
  { unfold Z.sub. rewrite inject_Z_plus, inject_Z_opp. change (inject_Z 1) with 1. lra. }
  rewrite <- Zlt_Qlt in Ha, Hb. lia.
Qed.

Lemma Qabs_nonneg_eq a : 0 <= a -> Qabs a = a.
Proof.
  destruct a as [n d]. unfold Qle, Qabs. cbn. intros Hn. f_equal. apply Z.abs_eq. lia.
Qed.

(** A multiple of [10^-f] is its own rounding to [f] decimals. *)
Lemma toFixed_exact f (k : Z) :
  (0 <= k)%Z -> inject_Z k / inject_Z (10 ^ Z.of_nat f) < inject_Z (10 ^ 21) ->
  num_eq (toFixed f (Num (inject_Z k / inject_Z (10 ^ Z.of_nat f))))
         (Num (inject_Z k / inject_Z (10 ^ Z.of_nat f))).
Proof.
  intros Hk Hbig. pose proof (scale_pos f) as Hs.
  unfold toFixed. cbv zeta.
  set (scale := inject_Z (10 ^ Z.of_nat f)) in *.
  assert (Hk' : 0 <= inject_Z k) by (change 0 with (inject_Z 0); rewrite <- Zle_Qle; lia).
  assert (Hq : 0 <= inject_Z k / scale) by (apply Qle_shift_div_l; lra).
  rewrite (Qabs_nonneg_eq _ Hq).
  assert (E1 : Qle_bool (inject_Z (10 ^ 21)) (inject_Z k / scale) = false)
    by (apply Qle_bool_gt; exact Hbig).
  rewrite E1.
  assert (E2 : Qltb (inject_Z k / scale) 0 = false) by (apply Qltb_ge; exact Hq).
  rewrite E2. cbn [num_eq].
  assert (E3 : inject_Z k / scale * scale + (1 # 2) == inject_Z k + (1 # 2)).
  { field. lra. }
  rewrite (Qfloor_proper _ _ E3), Qfloor_half_Z. reflexivity.
Qed.

(** Rounding to [f] decimals keeps a number between the integers it lies
    between. *)
Lemma toFixed_between f a (lo hi : Z) :
  (0 <= lo)%Z -> inject_Z lo <= a <= inject_Z hi ->
  exists r, toFixed f (Num a) = Num r /\ inject_Z lo <= r <= inject_Z hi.
Proof.
  intros Hlo [Ha1 Ha2]. pose proof (scale_pos f) as Hs.
  assert (H0 : 0 <= a).
  { assert (0 <= inject_Z lo) by (change 0 with (inject_Z 0); rewrite <- Zle_Qle; lia). lra. }
  unfold toFixed. cbv zeta. rewrite (Qabs_nonneg_eq _ H0).
  destruct (Qle_bool (inject_Z (10 ^ 21)) a); [exists a; split; [reflexivity | split; assumption]|].
  assert (E2 : Qltb a 0 = false) by (apply Qltb_ge; exact H0).
  rewrite E2. eexists. split; [reflexivity|].
  set (S10 := (10 ^ Z.of_nat f)%Z) in *.
  pose proof (Qfloor_bounds (a * inject_Z S10 + (1 # 2))) as [F1 F2].
  set (n := Qfloor (a * inject_Z S10 + (1 # 2))) in *.
  assert (L : (lo * S10 <= n)%Z).
  { assert (inject_Z (lo * S10 - 1) < inject_Z n); [|rewrite <- Zlt_Qlt in *; lia].
    unfold Z.sub. rewrite inject_Z_plus, inject_Z_opp, inject_Z_mult.
    change (inject_Z 1) with 1.
    assert (inject_Z lo * inject_Z S10 <= a * inject_Z S10)
      by (apply Qmult_le_compat_r; lra).
    lra. }
  assert (U : (n <= hi * S10)%Z).
  { assert (inject_Z n < inject_Z (hi * S10 + 1)); [|rewrite <- Zlt_Qlt in *; lia].
    rewrite inject_Z_plus, inject_Z_mult. change (inject_Z 1) with 1.
    assert (a * inject_Z S10 <= inject_Z hi * inject_Z S10)
      by (apply Qmult_le_compat_r; lra).
    lra. }
  rewrite Zle_Qle, inject_Z_mult in L, U.
  split; [apply Qle_shift_div_l | apply Qle_shift_div_r]; assumption.
Qed.

(** A count out of 10,000 as a share: a number between 0 and 1. *)
Lemma toFixed_share (k : Z) :
  (0 <= k <= 10000)%Z ->
  exists p,
    toFixed 4 (jdiv (num_of_Z k) (num_of_Z (Z.of_nat NUM_SIMS))) = Num p
    /\ p == inject_Z k / 10000 /\ 0 <= p <= 1.
Proof.
  intros Hk. unfold num_of_Z. change (Z.of_nat NUM_SIMS) with 10000%Z.
  assert (HN : ~ inject_Z 10000 == 0) by discriminate.
  rewrite jdiv_Num by exact HN.
  assert (Hkq : 0 <= inject_Z k <= 10000).
  { split; [change 0 with (inject_Z 0) | change 10000 with (inject_Z 10000)];
      rewrite <- Zle_Qle; lia. }
  pose proof (toFixed_exact 4 k ltac:(lia)) as P.
  change (inject_Z (10 ^ Z.of_nat 4)) with (inject_Z 10000) in P.
  destruct (toFixed 4 (Num (inject_Z k / inject_Z 10000))) as [p| | |] eqn:Ep.
  - exists p. split; [reflexivity|].
    assert (P' : p == inject_Z k / inject_Z 10000).
    { apply P. apply Qlt_shift_div_r; [reflexivity|].
      assert (10000 < inject_Z (10 ^ 21) * inject_Z 10000) by reflexivity. lra. }
    split; [exact P'|]. rewrite P'.
    split; [apply Qle_shift_div_l | apply Qle_shift_div_r]; try reflexivity;
      change (inject_Z 10000) with 10000; lra.
  - exfalso. apply P. apply Qlt_shift_div_r; [reflexivity|].
    assert (10000 < inject_Z (10 ^ 21) * inject_Z 10000) by reflexivity.
    change (inject_Z 10000) with 10000 in *. lra.
  - exfalso. apply P. apply Qlt_shift_div_r; [reflexivity|].
    assert (10000 < inject_Z (10 ^ 21) * inject_Z 10000) by reflexivity.
    change (inject_Z 10000) with 10000 in *. lra.
  - exfalso. apply P. apply Qlt_shift_div_r; [reflexivity|].
    assert (10000 < inject_Z (10 ^ 21) * inject_Z 10000) by reflexivity.
    change (inject_Z 10000) with 10000 in *. lra.
Qed.

(** A sum of seats over 10,000 trials as a mean: between the bounds of a
    trial. *)
Lemma toFixed_mean (s lo hi : Z) :
  (0 <= lo)%Z -> (10000 * lo <= s <= 10000 * hi)%Z ->
  exists e,
    toFixed 1 (jdiv (num_of_Z s) (num_of_Z (Z.of_nat NUM_SIMS))) = Num e
    /\ inject_Z lo <= e <= inject_Z hi.
Proof.
  intros Hlo [S1 S2]. unfold num_of_Z. change (Z.of_nat NUM_SIMS) with 10000%Z.
  assert (HN : ~ inject_Z 10000 == 0) by discriminate.
  rewrite jdiv_Num by exact HN.
  apply toFixed_between; [exact Hlo|].
  rewrite Zle_Qle, inject_Z_mult in S1, S2.
  change (inject_Z 10000) with 10000 in *.
  split; [apply Qle_shift_div_l | apply Qle_shift_div_r]; lra.
Qed.

Lemma num_sims_value : Z.of_nat NUM_SIMS = 10000%Z.
Proof. reflexivity. Qed.

(** X3.  The chances a current-day simulator reports are complementary:
    pDem is the count of control wins over 10,000, a value between 0 and 1
    that its rounding to four decimals leaves as it is, pRep is one less
    pDem, and the expected seats lie between the base seats and the base
    plus the seats up. *)
Theorem report_probabilities `{MathLib} (c : chamber) (dt : data)
    (ind : option pair) (rnd : rng) :
  (0 <= demControl (runSimulation c dt ind rnd) <= 10000)%Z
  /\ num_eq (cr_pDem (report (runSimulation c dt ind rnd)))
       (Num (inject_Z (demControl (runSimulation c dt ind rnd)) / 10000))
  /\ num_eq (jadd (cr_pDem (report (runSimulation c dt ind rnd)))
               (cr_pRep (report (runSimulation c dt ind rnd))))
       (Num 1)
  /\ exists e, cr_expectedDSeats (report (runSimulation c dt ind rnd)) = Num e
       /\ inject_Z (baseD (SEAT_RULES c)) <= e
          <= inject_Z (baseD (SEAT_RULES c) + upSeats c).
Proof.
  destruct (runSimulation_loop c dt ind rnd) as (st & Hst & Hd & Hs & _).
  destruct (current_day_tallies c (baseline_margins c (chamber_models dt c ind)) rnd
              NUM_SIMS (baseline_margins_length _ _))
    as (samples & E & L & F & C & _).
  rewrite <- Hst in E, C.
  unfold report. cbv zeta. cbn [cr_pDem cr_pRep cr_expectedDSeats].
  rewrite Hd, Hs, E, C. clear Hd Hs E C Hst st. unfold num_of_Z.
  rewrite num_sims_value.
  pose proof (count_if_bounds (fun v => (current_control_line c <=? v)%Z) samples) as Hk.
  rewrite L, num_sims_value in Hk.
  set (k := count_if _ samples) in *.
  assert (HN : ~ inject_Z 10000 == 0) by discriminate.
  assert (Hkq : 0 <= inject_Z k <= 10000).
  { split; [change 0 with (inject_Z 0) | change 10000 with (inject_Z 10000)];
      rewrite <- Zle_Qle; lia. }
  split; [lia|].
  jnum ltac:(exact HN).
  assert (P1 : num_eq (toFixed 4 (Num (inject_Z k / inject_Z 10000)))
                      (Num (inject_Z k / inject_Z 10000))).
  { apply (toFixed_exact 4 k); [lia|].
    apply Qlt_shift_div_r; [reflexivity|].
    change (inject_Z (10 ^ Z.of_nat 4)) with 10000.
    assert (10000 < inject_Z (10 ^ 21) * 10000) by reflexivity. lra. }
  assert (P2 : num_eq (toFixed 4 (Num ((inject_Z 10000 + - inject_Z k) / inject_Z 10000)))
                      (Num (inject_Z (10000 - k) / inject_Z 10000))).
  { assert (Eq : (inject_Z 10000 + - inject_Z k) / inject_Z 10000
                 = inject_Z (10000 - k) / inject_Z 10000).
    { unfold Z.sub. rewrite inject_Z_plus, inject_Z_opp. reflexivity. }
    rewrite Eq. apply (toFixed_exact 4 (10000 - k)); [lia|].
    apply Qlt_shift_div_r; [reflexivity|].
    change (inject_Z (10 ^ Z.of_nat 4)) with 10000.
    assert (inject_Z (10000 - k) <= 10000).
    { change 10000 with (inject_Z 10000). rewrite <- Zle_Qle. lia. }
    assert (10000 < inject_Z (10 ^ 21) * 10000) by reflexivity. lra. }
  destruct (toFixed 4 (Num (inject_Z k / inject_Z 10000))) as [p| | |] eqn:Ep;
    try contradiction.
  destruct (toFixed 4 (Num ((inject_Z 10000 + - inject_Z k) / inject_Z 10000)))
    as [q| | |] eqn:Eq; try contradiction.
  cbn [num_eq] in P1, P2. split; [exact P1|]. split.
  { cbn [jadd num_eq]. rewrite P1, P2. unfold Z.sub.
    rewrite inject_Z_plus, inject_Z_opp. field. }
  rewrite foldl_add_sum_list, Z.add_0_l.
  assert (Hsum : (Z.of_nat (length samples) * baseD (SEAT_RULES c) <= sum_list samples
                  <= Z.of_nat (length samples)
                     * (baseD (SEAT_RULES c) + upSeats c))%Z).
  { clear -F. induction F as [|v l Hv _ IH]; [unfold sum_list; cbn; lia|].
    unfold sum_list in *. cbn [foldr length]. lia. }
  rewrite L, num_sims_value in Hsum.
  assert (Hb : (0 <= baseD (SEAT_RULES c) <= 100)%Z) by (destruct c; cbn; lia).
  assert (Hu : (0 <= upSeats c <= 435)%Z) by (destruct c; vm_compute; split; discriminate).
  apply toFixed_between; [lia|].
  destruct Hsum as [S1 S2]. rewrite Zle_Qle, inject_Z_mult in S1, S2.
  change (inject_Z 10000) with 10000 in *.
  split; [apply Qle_shift_div_l | apply Qle_shift_div_r]; lra.
Qed.

(** ** The per-seat report *)

Lemma sorted_keys_elem {A} (m : gmap string A) k :
  k ∈ sorted_keys m <-> is_Some (m !! k).
Proof.
  unfold sorted_keys. rewrite merge_sort_Permutation.
  change (map fst (map_to_list m)) with (fst <$> map_to_list m).
  rewrite list_elem_of_fmap. split.
  - intros ([k' v] & -> & Hin). apply elem_of_map_to_list in Hin. cbn. eauto.
  - intros [v Hv]. exists (k, v). split; [reflexivity|]. apply elem_of_map_to_list. exact Hv.
Qed.

Lemma sorted_keys_NoDup {A} (m : gmap string A) : NoDup (sorted_keys m).
Proof.
  unfold sorted_keys. rewrite merge_sort_Permutation. apply NoDup_fst_map_to_list.
Qed.

Lemma omap_all_some_lookup {A B} (g : A -> option B) (l : list A) i :
  Forall (fun a => is_Some (g a)) l -> omap g l !! i = (l !! i) ≫= g.
Proof.
  intros Hall. revert i. induction Hall as [|a l [b Hb] _ IH]; intros i.
  - reflexivity.
  - change (omap g (a :: l)) with (match g a with Some y => y :: omap g l | None => omap g l end).
    rewrite Hb. destruct i as [|i]; cbn; [rewrite Hb; reflexivity | apply IH].
Qed.

Lemma omap_all_some_length {A B} (g : A -> option B) (l : list A) :
  Forall (fun a => is_Some (g a)) l -> length (omap g l) = length l.
Proof.
  induction 1 as [|a l [b Hb] _ IH]; [reflexivity|].
  change (omap g (a :: l)) with (match g a with Some y => y :: omap g l | None => omap g l end).
  rewrite Hb. cbn. rewrite IH. reflexivity.
Qed.

Lemma chamber_models_lookup `{MathLib} dt c ind idx k :
  chamber_keys dt c !! idx = Some k ->
  exists m,
    chamber_models dt c ind !! idx = Some (Some m)
    /\ match c with
       | house => getHouseModel dt k
       | _ => getStateModel dt c k ind
       end = Some m.
Proof.
  intros Hk.
  assert (Hin : is_Some (ratios (DATA_of dt c) !! k)).
  { apply sorted_keys_elem. eapply list_elem_of_lookup_2. exact Hk. }
  destruct Hin as [ratio Hr]. unfold chamber_keys in Hk.
  destruct c; unfold chamber_models;
    change (map ?f ?l) with (f <$> l); rewrite list_lookup_fmap;
    cbn [DATA_of] in *; rewrite Hk; cbn [fmap option_fmap option_map];
    unfold getStateModel, getHouseModel; cbv zeta; cbn [DATA_of]; rewrite Hr;
    eexists; split; reflexivity.
Qed.

Lemma chamber_models_length `{MathLib} dt c ind :
  length (chamber_models dt c ind) = length (chamber_keys dt c).
Proof. unfold chamber_models, chamber_keys. destruct c; rewrite length_map; reflexivity. Qed.

Lemma reported_seats_lookup `{MathLib} dt c ind idx :
  reported_seats c (chamber_keys dt c) (chamber_models dt c ind) !! idx
  = if decide (idx < Z.to_nat (upSeats c))%nat
    then k ← chamber_keys dt c !! idx;
         m ← mjoin (chamber_models dt c ind !! idx);
         Some (k, m)
    else None.
Proof.
  unfold reported_seats.
  destruct (decide (idx < Z.to_nat (upSeats c))%nat) as [Hlt|Hge].
  2:{ apply lookup_take_ge. lia. }
  rewrite lookup_take_lt by exact Hlt.
  rewrite omap_all_some_lookup.
  - rewrite lookup_zip_with.
    destruct (chamber_keys dt c !! idx) as [k|] eqn:Hk; [|reflexivity].
    destruct (chamber_models_lookup dt c ind idx k Hk) as (m & Hm & _).
    rewrite Hm. reflexivity.
  - apply Forall_lookup_2. intros i [k o] Hi.
    apply lookup_zip_with_Some in Hi as (k' & o' & Hko & Hk & Ho).
    injection Hko as <- <-.
    destruct (chamber_models_lookup dt c ind i k Hk) as (m & Hm & _).
    rewrite Hm in Ho. injection Ho as <-. cbn. eauto.
Qed.

Lemma foldl_insert_lookup {A K} `{Countable K} (l : list (K * A)) (acc : gmap K A) k :
  NoDup (map fst l) ->
  foldl (fun (acc : gmap K A) (e : K * A) => <[fst e := snd e]> acc) acc l !! k
  = match list_find (fun e : K * A => fst e = k) l with
    | Some (_, e) => Some (snd e)
    | None => acc !! k
    end.
Proof.
  revert acc. induction l as [|[k0 v0] l IH]; intros acc Hnd; [reflexivity|].
  cbn [map] in Hnd. apply NoDup_cons in Hnd as [Hnotin Hnd].
  cbn [foldl]. rewrite IH by exact Hnd. cbn [list_find fst snd].
  destruct (decide (k0 = k)) as [->|Hne].
  - cbn. destruct (list_find (fun e : K * A => fst e = k) l) as [[i e]|] eqn:Hf.
    + apply list_find_Some in Hf as (Hi & He & _). exfalso. apply Hnotin.
      rewrite <- He. change (fst e ∈ fst <$> l). apply list_elem_of_fmap_2.
      eapply list_elem_of_lookup_2. exact Hi.
    + apply lookup_insert_eq.
  - destruct (list_find (fun e : K * A => fst e = k) l) as [[i e]|]; cbn; [reflexivity|].
    apply lookup_insert_ne. exact Hne.
Qed.

Lemma assign_all_lookup {A} (l : list (string * A)) k i v :
  NoDup (map fst l) -> l !! i = Some (k, v) -> assign_all l !! k = Some v.
Proof.
  intros Hnd Hi. unfold assign_all. rewrite foldl_insert_lookup by exact Hnd.
  destruct (list_find (fun e : string * A => fst e = k) l) as [[j e]|] eqn:Hf.
  - apply list_find_Some in Hf as (Hj & He & _).
    assert (j = i); [|subst j; rewrite Hi in Hj; injection Hj as <-; reflexivity].
    eapply NoDup_lookup; [exact Hnd| |].
    + change (map fst l) with (fst <$> l). rewrite list_lookup_fmap, Hj. reflexivity.
    + change (map fst l) with (fst <$> l). rewrite list_lookup_fmap, Hi. cbn. f_equal.
      symmetry. exact He.
  - apply list_find_None in Hf. rewrite Forall_forall in Hf.
    exfalso. apply (Hf (k, v)); [eapply list_elem_of_lookup_2; exact Hi | reflexivity].
Qed.

Lemma assign_all_dom {A} (l : list (string * A)) k :
  is_Some (assign_all l !! k) <-> k ∈ map fst l.
Proof.
  unfold assign_all.
  assert (G : forall acc : gmap string A,
             is_Some (foldl (fun (acc : gmap string A) (e : string * A) =>
                               <[fst e := snd e]> acc) acc l !! k)
             <-> k ∈ map fst l \/ is_Some (acc !! k)).
  { induction l as [|[k0 v0] l IH]; intros acc; cbn [foldl map fst snd].
    - rewrite elem_of_nil. tauto.
    - rewrite IH, elem_of_cons. destruct (decide (k = k0)) as [->|Hne].
      + rewrite lookup_insert_eq. split; intros _; [|right]; eauto.
      + rewrite lookup_insert_ne by congruence. tauto. }
  rewrite G, lookup_empty. split; [intros [?|[? ?]]; [assumption|discriminate] | auto].
Qed.

Lemma perState_entries_lookup `{MathLib} c dt ind r idx :
  perState_entries c dt ind r !! idx
  = (fun km : string * seat_model =>
       (fst km,
        {| sr_pDem :=
             toFixed 4 (jdiv (num_of_Z (default 0%Z (seatWins r !! idx)))
                             (num_of_Z (Z.of_nat NUM_SIMS)));
           sr_margin := toFixed 2 (marginRD (combinedPair (snd km))) |}))
    <$> reported_seats c (chamber_keys dt c) (chamber_models dt c ind) !! idx.
Proof. unfold perState_entries. apply list_lookup_imap. Qed.

Lemma perState_entries_keys `{MathLib} c dt ind r :
  map fst (perState_entries c dt ind r)
  = take (Z.to_nat (upSeats c)) (chamber_keys dt c).
Proof.
  apply list_eq. intros i.
  change (map fst ?l) with (fst <$> l). rewrite list_lookup_fmap, perState_entries_lookup.
  rewrite reported_seats_lookup.
  destruct (decide (i < Z.to_nat (upSeats c))%nat) as [Hlt|Hge].
  - rewrite lookup_take_lt by exact Hlt.
    destruct (chamber_keys dt c !! i) as [k|] eqn:Hk; [|reflexivity].
    destruct (chamber_models_lookup dt c ind i k Hk) as (m & Hm & _).
    rewrite Hm. reflexivity.
  - rewrite lookup_take_ge by lia. reflexivity.
Qed.

(** X4.  The per-seat report of a current-day simulator covers the first
    [upSeats] seats in key order and no other; the seat at position [idx]
    is simulated at the stored margin of its own model, and its reported
    chance is the share of counter [idx], its reported margin the margin of
    that model to two decimals. *)
Theorem perState_alignment `{MathLib} (c : chamber) (dt : data) (ind : option pair)
    (rnd : rng) :
  (forall k, is_Some (perState c dt ind (runSimulation c dt ind rnd) !! k)
             <-> k ∈ take (Z.to_nat (upSeats c)) (chamber_keys dt c))
  /\ forall idx k,
       (idx < Z.to_nat (upSeats c))%nat -> chamber_keys dt c !! idx = Some k ->
       exists m,
         match c with
         | house => getHouseModel dt k
         | _ => getStateModel dt c k ind
         end = Some m
         /\ baseline_margins c (chamber_models dt c ind) !! idx = Some (stored_margin m)
         /\ perState c dt ind (runSimulation c dt ind rnd) !! k
            = Some {| sr_pDem :=
                        toFixed 4
                          (jdiv (num_of_Z
                                   (default 0%Z
                                      (seatWins (runSimulation c dt ind rnd) !! idx)))
                                (num_of_Z (Z.of_nat NUM_SIMS)));
                      sr_margin := toFixed 2 (marginRD (combinedPair m)) |}.
Proof.
  split.
  - intros k. unfold perState. rewrite assign_all_dom, perState_entries_keys. reflexivity.
  - intros idx k Hlt Hk.
    destruct (chamber_models_lookup dt c ind idx k Hk) as (m & Hm & Hmodel).
    exists m. split; [exact Hmodel|]. split.
    + unfold baseline_margins. cbv zeta.
      assert (Hall : Forall (fun o : option seat_model => is_Some (stored_margin <$> o))
                       (chamber_models dt c ind)).
      { apply Forall_lookup_2. intros i o Ho.
        assert (Hi : (i < length (chamber_keys dt c))%nat).
        { rewrite <- (chamber_models_length dt c ind). eapply lookup_lt_Some. exact Ho. }
        apply lookup_lt_is_Some in Hi as [k' Hk'].
        destruct (chamber_models_lookup dt c ind i k' Hk') as (m' & Hm' & _).
        rewrite Hm' in Ho. injection Ho as <-. cbn. eauto. }
      rewrite lookup_app_l.
      2:{ rewrite length_take, omap_all_some_length by exact Hall.
          apply lookup_lt_Some in Hm. lia. }
      rewrite lookup_take_lt by exact Hlt.
      rewrite omap_all_some_lookup by exact Hall. rewrite Hm. reflexivity.
    + unfold perState. eapply assign_all_lookup.
      * rewrite perState_entries_keys.
        eapply sublist_NoDup; [exact (sorted_keys_NoDup (ratios (DATA_of dt c))) | apply sublist_take].
      * rewrite perState_entries_lookup, reported_seats_lookup.
        rewrite decide_True by exact Hlt. rewrite Hk, Hm. reflexivity.
Qed.

Lemma perState_alignment_witness :
  exists m,
    @getStateModel rational_MathLib sample_data senate "OH"%string None = Some m
    /\ baseline_margins senate (chamber_models sample_data senate None) !! 0%nat
       = Some (stored_margin m)
    /\ perState senate sample_data None (runSimulation senate sample_data None half_draws)
         !! "OH"%string
       = Some {| sr_pDem :=
                   toFixed 4
                     (jdiv (num_of_Z
                              (default 0%Z
                                 (seatWins (runSimulation senate sample_data None half_draws)
                                    !! 0%nat)))
                           (num_of_Z (Z.of_nat NUM_SIMS)));
                 sr_margin := toFixed 2 (marginRD (combinedPair m)) |}.
Proof.
  refine (proj2 (@perState_alignment rational_MathLib senate sample_data None half_draws)
            0%nat "OH"%string _ _).
  - vm_compute. lia.
  - vm_compute. reflexivity.
Defined.

(** ** Tallies of the odds over time *)

Lemma sum_list_between (l : list Z) lo hi :
  Forall (fun v => (lo <= v <= hi)%Z) l ->
  (Z.of_nat (length l) * lo <= sum_list l <= Z.of_nat (length l) * hi)%Z.
Proof.
  induction 1 as [|v l Hv _ IH]; [unfold sum_list; cbn; lia|].
  unfold sum_list in *. cbn [foldr length]. lia.
Qed.

Lemma odds_loop_tallies `{MathLib} c margins rnd N pos :
  exists totals,
    length totals = N
    /\ s_demControl (sim_loop N (odds_trial c margins) rnd (sim_init (length margins) pos))
       = count_if (fun v => (match c with
                             | senate => SENATE_CONTROL_RULE_demAtLeast
                             | _ => majorityLine (SEAT_RULES c)
                             end <=? v)%Z
                            || (match c with governor => true | _ => false end
                                && (v =? majorityLine (SEAT_RULES c) - 1)%Z)) totals
    /\ s_sumDSeats (sim_loop N (odds_trial c margins) rnd (sim_init (length margins) pos))
       = sum_list totals
    /\ Forall (fun v => (baseD (SEAT_RULES c) <= v
                         <= baseD (SEAT_RULES c) + Z.of_nat (length margins))%Z) totals
    /\ length (s_wins (sim_loop N (odds_trial c margins) rnd
                         (sim_init (length margins) pos))) = length margins
    /\ Forall (fun w => (0 <= w <= Z.of_nat N)%Z)
         (s_wins (sim_loop N (odds_trial c margins) rnd (sim_init (length margins) pos)))
    /\ sum_list (s_wins (sim_loop N (odds_trial c margins) rnd
                           (sim_init (length margins) pos)))
       = (sum_list totals - Z.of_nat N * baseD (SEAT_RULES c))%Z.
Proof.
  destruct (sim_loop_init_tallies (odds_trial c margins) rnd (baseD (SEAT_RULES c))
              (length margins) _ (fun p => odds_trial_spec c margins rnd p) N pos)
    as (totals & _ & L & F & C & SD & W & WS & WB).
  exists totals. repeat split; assumption.
Qed.

Lemma day_margins_length `{MathLib} cd keys pm ind day g :
  length (day_margins cd keys pm ind day g) = length keys.
Proof. unfold day_margins. apply length_imap. Qed.

Lemma odds_days_tallies `{MathLib} c cd keys pm ind rnd gbSeries d0 pos :
  map dr_date (odds_days c cd keys pm ind rnd gbSeries d0 pos) = map gs_date gbSeries
  /\ Forall (day_tallies_ok c (length keys))
       (odds_days c cd keys pm ind rnd gbSeries d0 pos).
Proof.
  revert d0 pos. induction gbSeries as [|g rest IH]; intros d0 pos.
  - split; [reflexivity | constructor].
  - cbn [odds_days]. cbv zeta. cbn [map dr_date].
    set (margins := day_margins cd keys pm ind d0 g).
    assert (Hm : length margins = length keys) by apply day_margins_length.
    destruct (odds_loop_tallies c margins rnd NUM_SIMS pos)
      as (totals & L & C & SD & F & W & WB & WS).
    rewrite Hm in *.
    set (st := sim_loop NUM_SIMS (odds_trial c margins) rnd (sim_init (length keys) pos)) in *.
    destruct (IH (S d0) (s_pos st)) as [IH1 IH2].
    split; [rewrite IH1; reflexivity|].
    constructor; [|exact IH2].
    unfold day_tallies_ok. cbn [dr_demControl dr_sumDSeats dr_margins dr_stateDemWins].
    pose proof (count_if_bounds
                  (fun v => (match c with
                             | senate => SENATE_CONTROL_RULE_demAtLeast
                             | _ => majorityLine (SEAT_RULES c)
                             end <=? v)%Z
                            || (match c with governor => true | _ => false end
                                && (v =? majorityLine (SEAT_RULES c) - 1)%Z)) totals) as Hc.
    pose proof (sum_list_between _ _ _ F) as Hs.
    rewrite L in Hc, Hs. rewrite C, SD, WS.
    split; [exact Hc|]. split; [exact Hs|]. split; [exact Hm|]. split; [exact W|].
    split; [exact WB | reflexivity].
Qed.


Lemma assign_imap_lookup {B} (keys : list string) (f : nat -> string -> B)
    (k : string) (v : B) :
  NoDup keys ->
  (is_Some (assign_all (imap (fun i k => (k, f i k)) keys) !! k) <-> k ∈ keys)
  /\ (assign_all (imap (fun i k => (k, f i k)) keys) !! k = Some v ->
      exists i, keys !! i = Some k /\ v = f i k).
Proof.
  intros Hnd.
  assert (Hkeys : map fst (imap (fun i k => (k, f i k)) keys) = keys).
  { apply list_eq. intros i.
    change (map fst ?l) with (fst <$> l). rewrite list_lookup_fmap, list_lookup_imap.
    destruct (keys !! i); reflexivity. }
  split.
  - rewrite assign_all_dom, Hkeys. reflexivity.
  - intros Hv.
    assert (Hin : k ∈ keys).
    { rewrite <- Hkeys. apply assign_all_dom. eauto. }
    apply list_elem_of_lookup in Hin as [i Hi]. exists i. split; [exact Hi|].
    rewrite (assign_all_lookup _ k i (f i k)) in Hv.
    + injection Hv as <-. reflexivity.
    + rewrite Hkeys. exact Hnd.
    + rewrite list_lookup_imap, Hi. reflexivity.
Qed.


Section OddsFigures.
Context `{MathLib} (parseDate : string -> option Z).

(** X5.  The chamber series of the odds over time has one point for every
    day of the generic-ballot series, in order and with its date; the chance
    of every point is a number between 0 and 1, and the expected seats lie
    between the base seats and the base plus the number of seats that have
    a ratio. *)
Theorem odds_chamber_series (dt : data) (spd : STATE_POLL_DATA_t) (c : chamber)
    (gbSeries : list gb_point) (ind : option pair) (rnd : rng) :
  map or_date (odds_chamber (runOddsOverTimeState parseDate dt spd c gbSeries ind rnd))
  = map gs_date gbSeries
  /\ Forall (fun o =>
               exists p e,
                 or_pDem o = Num p /\ 0 <= p <= 1
                 /\ or_expDem o = Num e
                 /\ inject_Z (baseD (SEAT_RULES c)) <= e
                    <= inject_Z (baseD (SEAT_RULES c)
                                 + Z.of_nat (length (chamber_keys dt c))))
       (odds_chamber (runOddsOverTimeState parseDate dt spd c gbSeries ind rnd)).
Proof.
  unfold runOddsOverTimeState. cbv zeta. fold (chamber_keys dt c).
  destruct (odds_days_tallies c (DATA_of dt c) (chamber_keys dt c)
              (buildPollMatrixForDays parseDate (Some (spd c)) (chamber_keys dt c)
                 (map gs_date gbSeries) STATE_POLL_WINDOW)
              ind rnd gbSeries 0 0) as [Hd Ht].
  set (days := odds_days _ _ _ _ _ _ _ _ _) in *. clearbody days.
  unfold odds_chamber. split.
  - rewrite <- Hd. rewrite !map_map. reflexivity.
  - apply Forall_map. eapply Forall_impl; [exact Ht|].
    intros r (Hc & Hs & _). cbn [or_pDem or_expDem].
    rewrite num_sims_value in Hc, Hs.
    destruct (toFixed_share (dr_demControl r) Hc) as (p & Ep & _ & Hp).
    assert (Hb : (0 <= baseD (SEAT_RULES c))%Z) by (destruct c; cbn; lia).
    destruct (toFixed_mean (dr_sumDSeats r) _ _ Hb Hs) as (e & Ee & He).
    exists p, e. repeat split; try assumption; apply Hp || apply He.
Qed.

(** X6.  The per-seat series of the odds over time: a series for every seat
    that has a ratio and for no other key, each with one point for every
    day of the generic-ballot series, in order and with its date, whose
    chance is a number between 0 and 1. *)
Theorem odds_perState_series (dt : data) (spd : STATE_POLL_DATA_t) (c : chamber)
    (gbSeries : list gb_point) (ind : option pair) (rnd : rng) (k : string) :
  (is_Some (odds_perState (chamber_keys dt c)
              (runOddsOverTimeState parseDate dt spd c gbSeries ind rnd) !! k)
   <-> is_Some (ratios (DATA_of dt c) !! k))
  /\ forall pts,
       odds_perState (chamber_keys dt c)
         (runOddsOverTimeState parseDate dt spd c gbSeries ind rnd) !! k = Some pts ->
       map op_date pts = map gs_date gbSeries
       /\ Forall (fun pt => exists p, op_pDem pt = Num p /\ 0 <= p <= 1) pts.
Proof.
  unfold runOddsOverTimeState. cbv zeta. fold (chamber_keys dt c).
  destruct (odds_days_tallies c (DATA_of dt c) (chamber_keys dt c)
              (buildPollMatrixForDays parseDate (Some (spd c)) (chamber_keys dt c)
                 (map gs_date gbSeries) STATE_POLL_WINDOW)
              ind rnd gbSeries 0 0) as [Hd Ht].
  set (days := odds_days _ _ _ _ _ _ _ _ _) in *. clearbody days.
  unfold odds_perState.
  pose proof (sorted_keys_NoDup (ratios (DATA_of dt c))) as Hnd.
  fold (chamber_keys dt c) in Hnd.
  split.
  - match goal with
    | |- context [imap (fun i k => (k, @?f i k)) _] =>
        rewrite (proj1 (assign_imap_lookup (chamber_keys dt c) f k [] Hnd))
    end.
    apply sorted_keys_elem.
  - intros pts Hpts.
    match type of Hpts with
    | context [imap (fun i k => (k, @?f i k)) _] =>
        destruct (proj2 (assign_imap_lookup (chamber_keys dt c) f k pts Hnd) Hpts)
          as (i & _ & ->)
    end.
    clear Hpts. split.
    + rewrite <- Hd, map_map. reflexivity.
    + apply Forall_map. eapply Forall_impl; [exact Ht|].
      intros r (_ & _ & _ & Hl & Hw & _). cbn [op_pDem].
      assert (Hk : (0 <= default 0%Z (dr_stateDemWins r !! i) <= 10000)%Z).
      { destruct (dr_stateDemWins r !! i) as [w|] eqn:Ew; cbn [default]; [|lia].
        rewrite Forall_lookup in Hw. specialize (Hw i w Ew).
        rewrite num_sims_value in Hw. exact Hw. }
      destruct (toFixed_share _ Hk) as (p & Ep & _ & Hp). exists p. split; assumption.
Qed.
End OddsFigures.

(** ** Normalisation and the probability model *)



(** ** The two combiners *)

(** X11.  The combination written out in the odds-over-time engine is
    [weightedCombine] on the components [getStateModel] builds: the
    generic-ballot pair with its weight, the poll pair and the indicator
    pair with theirs when they are present. *)
Theorem combine_inline_weightedCombine (gbPair : pair) (pollPair indPair : option pair) :
  combine_inline gbPair pollPair indPair
  = weightedCombine
      [ Some {| c_pair := Some gbPair; c_w := w_gb WEIGHTS |};
        Some {| c_pair := pollPair;
                c_w := if present pollPair then w_polls WEIGHTS else Num 0 |};
        Some {| c_pair := indPair;
                c_w := if present indPair then w_ind WEIGHTS else Num 0 |} ].
Proof.
  destruct pollPair as [pp|], indPair as [ip|]; reflexivity.
Qed.

(** ** What the bins of a histogram count *)

Lemma count_if_cons f v l :
  count_if f (v :: l) = ((if f v then 1 else 0) + count_if f l)%Z.
Proof.
  unfold count_if. rewrite filter_cons.
  destruct (f v); destruct (decide _) as [Hd|Hd]; cbn [length]; try lia;
    first [ exfalso; apply Hd; exact I | destruct Hd ].
Qed.

Lemma count_if_ext f g l : (forall v, f v = g v) -> count_if f l = count_if g l.
Proof.
  intros E. induction l as [|v l IH]; [reflexivity|].
  rewrite !count_if_cons, IH, E. reflexivity.
Qed.

(** A loop that adds one to the bin of every sample that has one. *)
Lemma fold_tally (step : list Z -> Z -> list Z) (bin : Z -> option nat)
    (samples : list Z) (cs : list Z) (i : nat) :
  (forall cs v, step cs v = match bin v with
                            | Some j => alter Z.succ j cs
                            | None => cs
                            end) ->
  length (foldl step cs samples) = length cs
  /\ foldl step cs samples !! i
     = (fun c => (c + count_if (fun v => bool_decide (bin v = Some i)) samples)%Z)
       <$> cs !! i.
Proof.
  intros Hstep. revert cs. induction samples as [|v samples IH]; intros cs.
  - cbn [foldl]. split; [reflexivity|].
    destruct (cs !! i) as [c|]; cbn; [|reflexivity].
    f_equal. unfold count_if. cbn. lia.
  - cbn [foldl]. destruct (IH (step cs v)) as [IH1 IH2]. rewrite IH1, IH2.
    rewrite Hstep, count_if_cons.
    destruct (bin v) as [j|] eqn:Eb.
    + rewrite length_alter. split; [reflexivity|].
      destruct (decide (j = i)) as [->|Hne].
      * rewrite list_lookup_alter_eq. rewrite bool_decide_true by reflexivity.
        destruct (cs !! i) as [c|]; cbn; [|reflexivity]. f_equal. lia.
      * rewrite list_lookup_alter_ne by exact Hne.
        rewrite bool_decide_false by congruence.
        destruct (cs !! i) as [c|]; cbn; [|reflexivity]. f_equal.
    + split; [reflexivity|]. rewrite bool_decide_false by discriminate.
      destruct (cs !! i) as [c|]; cbn; [|reflexivity]. f_equal.
Qed.

(** X12.  A range histogram has one bin for every value from [showMin] to
    [showMax], and bin [i] counts the samples equal to [showMin + i]; the
    samples outside the range are in no bin. *)
Theorem buildRangeHistogram_bins (samples : list Z) (showMin showMax : Z) (i : Z) :
  (showMin <= showMax)%Z -> (0 <= i <= showMax - showMin)%Z ->
  Z.of_nat (length (counts (buildRangeHistogram samples showMin showMax)))
  = (showMax - showMin + 1)%Z
  /\ counts (buildRangeHistogram samples showMin showMax) !! Z.to_nat i
     = Some (count_if (fun v => (v =? showMin + i)%Z) samples).
Proof.
  intros Hr Hi. unfold buildRangeHistogram. cbv zeta. cbn [counts].
  destruct (fold_tally
              (fun cs v => if (v <? showMin)%Z || (showMax <? v)%Z then cs
                           else incr (v - showMin) cs)
              (fun v => if (v <? showMin)%Z || (showMax <? v)%Z then None
                        else Some (Z.to_nat (v - showMin)))
              samples (replicate (Z.to_nat (showMax - showMin + 1)) 0%Z) (Z.to_nat i))
    as [Hlen Hget].
  { intros cs v. destruct ((v <? showMin)%Z || (showMax <? v)%Z) eqn:E; [reflexivity|].
    unfold incr. apply orb_false_iff in E as [E1 E2].
    apply Z.ltb_ge in E1. rewrite (proj2 (Z.ltb_ge _ _)) by lia. reflexivity. }
  rewrite Hlen, Hget, length_replicate. split; [lia|].
  rewrite lookup_replicate_2 by lia. cbn. f_equal. rewrite Z.add_0_l.
  apply count_if_ext. intros v.
  destruct ((v <? showMin)%Z || (showMax <? v)%Z) eqn:E.
  - rewrite bool_decide_false by discriminate. symmetry. apply Z.eqb_neq.
    apply orb_true_iff in E as [E|E]; apply Z.ltb_lt in E; lia.
  - apply orb_false_iff in E as [E1 E2]. apply Z.ltb_ge in E1, E2.
    destruct (Z.eqb_spec v (showMin + i)) as [->|Hne].
    + apply bool_decide_eq_true. f_equal. lia.
    + apply bool_decide_eq_false. intros [= Heq]. apply Hne. lia.
Qed.

Lemma buildRangeHistogram_bins_witness :
  Z.of_nat (length (counts (buildRangeHistogram [22; 25; 40; 25; 21]%Z 21 31))) = (31 - 21 + 1)%Z
  /\ counts (buildRangeHistogram [22; 25; 40; 25; 21]%Z 21 31) !! Z.to_nat 4
     = Some (count_if (fun v => (v =? 21 + 4)%Z) [22; 25; 40; 25; 21]%Z).
Proof. apply (buildRangeHistogram_bins [22; 25; 40; 25; 21]%Z 21 31 4); lia. Defined.

Lemma min_fold_elem samples a :
  exists b, foldl min_step (Some a) samples = Some b
    /\ (b = a \/ b ∈ samples) /\ (b <= a)%Z /\ Forall (fun v => (b <= v)%Z) samples.
Proof.
  revert a. induction samples as [|v samples IH]; intros a; cbn [foldl].
  - exists a. repeat split; [left; reflexivity | lia | constructor].
  - unfold min_step at 2.
    destruct (v <? a)%Z eqn:E; [apply Z.ltb_lt in E | apply Z.ltb_ge in E].
    + destruct (IH v) as (b & Hb & Hin & Hle & Hall). exists b.
      split; [exact Hb|]. split.
      * right. destruct Hin as [->|Hin]; [left | right; exact Hin].
      * split; [lia|]. constructor; assumption.
    + destruct (IH a) as (b & Hb & Hin & Hle & Hall). exists b.
      split; [exact Hb|]. split.
      * destruct Hin as [->|Hin]; [left; reflexivity | right; right; exact Hin].
      * split; [lia|]. constructor; [lia | assumption].
Qed.

Lemma max_fold_elem samples a :
  exists b, foldl max_step (Some a) samples = Some b
    /\ (b = a \/ b ∈ samples) /\ (a <= b)%Z /\ Forall (fun v => (v <= b)%Z) samples.
Proof.
  revert a. induction samples as [|v samples IH]; intros a; cbn [foldl].
  - exists a. repeat split; [left; reflexivity | lia | constructor].
  - unfold max_step at 2.
    destruct (a <? v)%Z eqn:E; [apply Z.ltb_lt in E | apply Z.ltb_ge in E].
    + destruct (IH v) as (b & Hb & Hin & Hle & Hall). exists b.
      split; [exact Hb|]. split.
      * right. destruct Hin as [->|Hin]; [left | right; exact Hin].
      * split; [lia|]. constructor; assumption.
    + destruct (IH a) as (b & Hb & Hin & Hle & Hall). exists b.
      split; [exact Hb|]. split.
      * destruct Hin as [->|Hin]; [left; reflexivity | right; right; exact Hin].
      * split; [lia|]. constructor; [lia | assumption].
Qed.

Lemma bin_of_value (size off q v : Z) :
  (0 < size)%Z ->
  ((v - off) / size = q <-> q * size + off <= v < (q + 1) * size + off)%Z.
Proof.
  intros Hs. pose proof (Z.div_mod (v - off) size ltac:(lia)) as Hdm.
  pose proof (Z.mod_pos_bound (v - off) size Hs) as Hm.
  split.
  - intros <-. nia.
  - intros [H1 H2]. symmetry. apply (Z.div_unique_pos _ _ _ (v - off - q * size)); lia.
Qed.

(** X13.  A binned histogram of a non-empty sample: its bins have the
    width [binSize] and start at values congruent to [binOffset]; they
    cover every sample, the least sample lies in the first bin and the
    greatest in the last; and bin [i] counts the samples from
    [min + i * binSize] up to, not including, [min + (i + 1) * binSize]. *)
Theorem buildBinnedHistogram_bins (samples : list Z) (binSize binOffset : Z) :
  (1 <= binSize)%Z -> samples <> [] ->
  ((h_min (buildBinnedHistogram samples binSize binOffset) - binOffset) mod binSize = 0)%Z
  /\ (Z.of_nat (length (counts (buildBinnedHistogram samples binSize binOffset))) * binSize
      = h_max (buildBinnedHistogram samples binSize binOffset)
        - h_min (buildBinnedHistogram samples binSize binOffset) + 1)%Z
  /\ Forall (fun v => (h_min (buildBinnedHistogram samples binSize binOffset) <= v
                       <= h_max (buildBinnedHistogram samples binSize binOffset))%Z) samples
  /\ (exists v, v ∈ samples
        /\ (v < h_min (buildBinnedHistogram samples binSize binOffset) + binSize)%Z)
  /\ (exists v, v ∈ samples
        /\ (h_max (buildBinnedHistogram samples binSize binOffset) - binSize < v)%Z)
  /\ forall i : nat,
       (i < length (counts (buildBinnedHistogram samples binSize binOffset)))%nat ->
       counts (buildBinnedHistogram samples binSize binOffset) !! i
       = Some (count_if
                 (fun v =>
                    (h_min (buildBinnedHistogram samples binSize binOffset)
                     + Z.of_nat i * binSize <=? v)%Z
                    && (v <? h_min (buildBinnedHistogram samples binSize binOffset)
                             + (Z.of_nat i + 1) * binSize)%Z)
                 samples).
Proof.
  intros Hsize Hne. unfold buildBinnedHistogram. cbv zeta.
  rewrite (Z.max_r 1 binSize) by lia.
  destruct samples as [|v0 rest] eqn:Es; [congruence|]. rewrite <- Es in *.
  assert (Hmin : exists a, foldl min_step None samples = Some a
                   /\ a ∈ samples /\ Forall (fun v => (a <= v)%Z) samples).
  { rewrite Es. cbn [foldl min_step].
    destruct (min_fold_elem rest v0) as (a & Ha & Hin & Hle & Hall). exists a.
    split; [exact Ha|]. split.
    - destruct Hin as [->|Hin]; [left | right; exact Hin].
    - constructor; assumption. }
  assert (Hmax : exists b, foldl max_step None samples = Some b
                   /\ b ∈ samples /\ Forall (fun v => (v <= b)%Z) samples).
  { rewrite Es. cbn [foldl max_step].
    destruct (max_fold_elem rest v0) as (b & Hb & Hin & Hle & Hall). exists b.
    split; [exact Hb|]. split.
    - destruct Hin as [->|Hin]; [left | right; exact Hin].
    - constructor; assumption. }
  destruct Hmin as (a & -> & Ha & Hall_a). destruct Hmax as (b & -> & Hb & Hall_b).
  clear Es v0 rest Hne.
  assert (Hab : (a <= b)%Z) by (rewrite Forall_forall in Hall_a; apply Hall_a; exact Hb).
  set (qa := ((a - binOffset) / binSize)%Z).
  set (qb := ((b - binOffset) / binSize)%Z).
  assert (Hqab : (qa <= qb)%Z) by (apply Z.div_le_mono; lia).
  assert (EminB : toBinStart binSize binOffset a = (qa * binSize + binOffset)%Z) by reflexivity.
  assert (EmaxB : toBinStart binSize binOffset b = (qb * binSize + binOffset)%Z) by reflexivity.
  assert (En : Z.max 1 ((toBinStart binSize binOffset b - toBinStart binSize binOffset a)
                        / binSize + 1) = (qb - qa + 1)%Z).
  { rewrite toBinStart_index by lia. fold qa qb. lia. }
  rewrite En. cbn [counts h_min h_max].
  match goal with
  | |- context [foldl ?f (replicate _ _) samples] => set (step := f)
  end.
  set (bin := fun v : Z =>
                if (0 <=? (v - binOffset) / binSize - qa)%Z
                   && ((v - binOffset) / binSize - qa <? qb - qa + 1)%Z
                then Some (Z.to_nat ((v - binOffset) / binSize - qa))
                else None).
  assert (Hstep : forall cs v, step cs v = match bin v with
                                           | Some j => alter Z.succ j cs
                                           | None => cs
                                           end).
  { intros cs v. unfold step, bin. rewrite toBinStart_index by lia. fold qa.
    destruct ((0 <=? (v - binOffset) / binSize - qa)%Z
              && ((v - binOffset) / binSize - qa <? qb - qa + 1)%Z) eqn:E; [|reflexivity].
    apply andb_true_iff in E as [E1 E2]. apply Z.leb_le in E1. unfold incr.
    rewrite (proj2 (Z.ltb_ge _ _)) by lia. reflexivity. }
  clearbody step.
  destruct (fold_tally step bin samples (replicate (Z.to_nat (qb - qa + 1)) 0%Z) 0 Hstep)
    as [Hlen _].
  rewrite Hlen, length_replicate.
  pose proof (proj1 (bin_of_value binSize binOffset qa a ltac:(lia)) eq_refl) as Ba.
  pose proof (proj1 (bin_of_value binSize binOffset qb b ltac:(lia)) eq_refl) as Bb.
  rewrite EminB.
  split. { replace (qa * binSize + binOffset - binOffset)%Z with (qa * binSize)%Z by lia.
           apply Z.mod_mul. lia. }
  split; [nia|].
  split. { rewrite Forall_forall in *. intros v Hv.
           specialize (Hall_a v Hv). specialize (Hall_b v Hv). nia. }
  split; [exists a; split; [exact Ha | nia]|].
  split; [exists b; split; [exact Hb | nia]|].
  intros i Hi.
  destruct (fold_tally step bin samples (replicate (Z.to_nat (qb - qa + 1)) 0%Z) i Hstep)
    as [_ Hget].
  rewrite Hget, lookup_replicate_2 by lia. cbn [fmap option_fmap option_map].
  f_equal. rewrite Z.add_0_l. apply count_if_ext. intros v. unfold bin.
  pose proof (bin_of_value binSize binOffset (qa + Z.of_nat i) v ltac:(lia)) as Bv.
  destruct ((0 <=? (v - binOffset) / binSize - qa)%Z
            && ((v - binOffset) / binSize - qa <? qb - qa + 1)%Z) eqn:E.
  - apply andb_true_iff in E as [E1 E2]. apply Z.leb_le in E1. apply Z.ltb_lt in E2.
    destruct (decide ((v - binOffset) / binSize = qa + Z.of_nat i)%Z) as [Heq|Hneq].
    + rewrite bool_decide_true by (f_equal; lia).
      apply Bv in Heq. symmetry. apply andb_true_iff.
      split; [apply Z.leb_le | apply Z.ltb_lt]; nia.
    + rewrite bool_decide_false by (intros [= Hx]; apply Hneq; lia).
      symmetry. apply andb_false_iff.
      destruct (Z.leb_spec (qa * binSize + binOffset + Z.of_nat i * binSize) v) as [L1|L1];
        [|left; reflexivity].
      right. apply Z.ltb_ge.
      destruct (Z.lt_ge_cases v (qa * binSize + binOffset + (Z.of_nat i + 1) * binSize))
        as [L2|L2]; [|exact L2].
      exfalso. apply Hneq. apply Bv. nia.
  - rewrite bool_decide_false by discriminate.
    symmetry. apply andb_false_iff.
    destruct (Z.leb_spec (qa * binSize + binOffset + Z.of_nat i * binSize) v) as [L1|L1];
      [|left; reflexivity].
    right. apply Z.ltb_ge.
    destruct (Z.lt_ge_cases v (qa * binSize + binOffset + (Z.of_nat i + 1) * binSize))
      as [L2|L2]; [|exact L2].
    exfalso.
    assert (Heq : ((v - binOffset) / binSize = qa + Z.of_nat i)%Z) by (apply Bv; nia).
    apply andb_false_iff in E as [E|E];
      [apply Z.leb_gt in E | apply Z.ltb_ge in E]; lia.
Qed.

Lemma buildBinnedHistogram_bins_witness :
  ((h_min (buildBinnedHistogram [215; 230; 219; 204]%Z 12 2) - 2) mod 12 = 0)%Z
  /\ (Z.of_nat (length (counts (buildBinnedHistogram [215; 230; 219; 204]%Z 12 2))) * 12
      = h_max (buildBinnedHistogram [215; 230; 219; 204]%Z 12 2)
        - h_min (buildBinnedHistogram [215; 230; 219; 204]%Z 12 2) + 1)%Z
  /\ Forall (fun v => (h_min (buildBinnedHistogram [215; 230; 219; 204]%Z 12 2) <= v
                       <= h_max (buildBinnedHistogram [215; 230; 219; 204]%Z 12 2))%Z)
       [215; 230; 219; 204]%Z
  /\ (exists v, v ∈ [215; 230; 219; 204]%Z
        /\ (v < h_min (buildBinnedHistogram [215; 230; 219; 204]%Z 12 2) + 12)%Z)
  /\ (exists v, v ∈ [215; 230; 219; 204]%Z
        /\ (h_max (buildBinnedHistogram [215; 230; 219; 204]%Z 12 2) - 12 < v)%Z)
  /\ forall i : nat,
       (i < length (counts (buildBinnedHistogram [215; 230; 219; 204]%Z 12 2)))%nat ->
       counts (buildBinnedHistogram [215; 230; 219; 204]%Z 12 2) !! i
       = Some (count_if
                 (fun v =>
                    (h_min (buildBinnedHistogram [215; 230; 219; 204]%Z 12 2)
                     + Z.of_nat i * 12 <=? v)%Z
                    && (v <? h_min (buildBinnedHistogram [215; 230; 219; 204]%Z 12 2)
                             + (Z.of_nat i + 1) * 12)%Z)
                 [215; 230; 219; 204]%Z).
Proof.
  apply (buildBinnedHistogram_bins [215; 230; 219; 204]%Z 12 2); [lia | discriminate].
Defined.

(** ** The median *)

#[export] Instance Qle_trans' : Transitive Qle := Qle_trans.

#[export] Instance Qle_total' : Total Qle.
Proof. intros a b. destruct (Qlt_le_dec a b); [left; apply Qlt_le_weak|right]; assumption. Qed.


Lemma finite_values_elem arr q : q ∈ finite_values arr <-> Num q ∈ arr.
Proof.
  unfold finite_values. rewrite list_elem_of_omap. split.
  - intros (x & Hx & Hq). destruct x; try discriminate. injection Hq as ->. exact Hx.
  - intros Hx. exists (Num q). split; [exact Hx | reflexivity].
Qed.

(** Two ascending lists with the same entries agree, place by place, as
    values. *)
Lemma sorted_perm_Qeq (l1 l2 : list Q) :
  StronglySorted Qle l1 -> StronglySorted Qle l2 -> l1 ≡ₚ l2 ->
  map Qred l1 = map Qred l2.
Proof.
  intros S1 S2 Hp.
  apply (StronglySorted_unique_strong Qle).
  - intros x1 x2 H1 H2 L1 L2.
    change (map Qred l1) with (Qred <$> l1) in H1.
    change (map Qred l2) with (Qred <$> l2) in H2.
    apply list_elem_of_fmap in H1 as (y1 & -> & _).
    apply list_elem_of_fmap in H2 as (y2 & -> & _).
    apply Qred_complete.
    apply (proj1 (Qred_le _ _)) in L1. apply (proj1 (Qred_le _ _)) in L2.
    apply Qle_antisym; assumption.
  - apply (StronglySorted_fmap Qred Qle Qle); [|exact S1].
    intros x y Hxy. apply Qred_le. exact Hxy.
  - apply (StronglySorted_fmap Qred Qle Qle); [|exact S2].
    intros x y Hxy. apply Qred_le. exact Hxy.
  - change (map Qred l1) with (Qred <$> l1). change (map Qred l2) with (Qred <$> l2).
    rewrite Hp. reflexivity.
Qed.

Lemma read_sum_Qred (l1 l2 : list Q) i :
  map Qred l1 = map Qred l2 -> num_eq (read_sum l1 i) (read_sum l2 i).
Proof.
  intros E. unfold read_sum.
  assert (Ei : Qred <$> (l1 !! i) = Qred <$> (l2 !! i)).
  { rewrite <- !list_lookup_fmap. change (Qred <$> l1) with (map Qred l1).
    change (Qred <$> l2) with (map Qred l2). rewrite E. reflexivity. }
  destruct (l1 !! i) as [q1|], (l2 !! i) as [q2|]; try discriminate; [|exact I].
  cbn in Ei. injection Ei as Ei. cbn [num_eq]. apply Qred_eq_iff. exact Ei.
Qed.

Lemma num_eq_jadd x x' y y' : num_eq x x' -> num_eq y y' -> num_eq (jadd x y) (jadd x' y').
Proof.
  destruct x, x'; try contradiction; destruct y, y'; try contradiction;
    cbn [jadd num_eq]; try tauto.
  intros -> ->. reflexivity.
Qed.

Lemma num_eq_half x x' : num_eq x x' -> num_eq (jdiv x (Num 2)) (jdiv x' (Num 2)).
Proof.
  destruct x, x'; try contradiction; cbn [num_eq]; try tauto.
  intros E. rewrite !jdiv_Num by discriminate. cbn [num_eq]. rewrite E. reflexivity.
Qed.

Lemma median_sorted (arr : list number) :
  StronglySorted Qle (merge_sort Qle (finite_values arr))
  /\ merge_sort Qle (finite_values arr) ≡ₚ finite_values arr.
Proof.
  split; [apply StronglySorted_merge_sort; apply _ | apply merge_sort_Permutation].
Qed.

Lemma median_perm (arr arr' : list number) :
  finite_values arr ≡ₚ finite_values arr' -> num_eq (median arr) (median arr').
Proof.
  intros Hp.
  destruct (median_sorted arr) as [S1 P1]. destruct (median_sorted arr') as [S2 P2].
  assert (E : map Qred (merge_sort Qle (finite_values arr))
              = map Qred (merge_sort Qle (finite_values arr'))).
  { apply sorted_perm_Qeq; [exact S1 | exact S2|]. rewrite P1, P2. exact Hp. }
  assert (El : length (merge_sort Qle (finite_values arr))
               = length (merge_sort Qle (finite_values arr'))).
  { rewrite <- (length_map Qred), E, length_map. reflexivity. }
  unfold median. cbv zeta. rewrite <- El.
  destruct (_ =? 0)%nat; [exact I|].
  destruct (_ =? 1)%nat; [apply read_sum_Qred; exact E|].
  apply num_eq_half, num_eq_jadd; apply read_sum_Qred; exact E.
Qed.

(** X14.  The median does not depend on the order of the entries, and
    entries that are not finite do not count: inputs with the same finite
    entries, in any order, have the same median, and the median is NaN
    exactly when no entry is finite. *)
Theorem median_order_irrelevant (arr arr' : list number) :
  finite_values arr ≡ₚ finite_values arr' ->
  num_eq (median arr) (median arr')
  /\ (median arr = NaN <-> finite_values arr = []).
Proof.
  intros Hp. split; [apply median_perm; exact Hp|].
  destruct (median_sorted arr) as [S1 P1].
  unfold median. cbv zeta.
  set (a := merge_sort Qle (finite_values arr)) in *.
  assert (Hlen : length a = length (finite_values arr)) by (rewrite P1; reflexivity).
  destruct (Nat.eqb_spec (length a) 0) as [E0|E0].
  - split; [intros _|reflexivity]. apply length_zero_iff_nil. lia.
  - split; [|intros Hnil; rewrite Hnil in Hlen; cbn in Hlen; lia].
    intros Hnan. exfalso.
    assert (Hmid : (length a / 2 < length a)%nat) by (apply Nat.div_lt; lia).
    destruct (lookup_lt_is_Some_2 a _ Hmid) as [q Hq].
    destruct (Nat.eqb_spec (length a mod 2) 1) as [E1|E1].
    + unfold read_sum in Hnan. rewrite Hq in Hnan. discriminate.
    + assert (Hm1 : (length a / 2 - 1 < length a)%nat) by lia.
      destruct (lookup_lt_is_Some_2 a _ Hm1) as [q' Hq'].
      unfold read_sum in Hnan. rewrite Hq, Hq' in Hnan.
      cbn [jadd] in Hnan. rewrite jdiv_Num in Hnan by discriminate. discriminate.
Qed.

Lemma median_order_irrelevant_witness :
  num_eq (median [Num 3; NaN; Num 1; PosInf; Num 2]) (median [Num 1; Num 3; Num 2])
  /\ (median [Num 3; NaN; Num 1; PosInf; Num 2] = NaN
      <-> finite_values [Num 3; NaN; Num 1; PosInf; Num 2] = []).
Proof.
  apply (median_order_irrelevant [Num 3; NaN; Num 1; PosInf; Num 2] [Num 1; Num 3; Num 2]).
  apply perm_swap.
Defined.








Example median_sample :
  num_eq (median [Num 3; NaN; Num 1; PosInf; Num 2; Num 8]) (Num 2.5)
  /\ median [NaN; PosInf] = NaN.
Proof. split; vm_compute; reflexivity. Qed.

(** ** The national indicator *)






(** ** Downsampling *)

Lemma keep_every_sublist step arr : keep_every step arr `sublist_of` arr.
Proof.
  unfold keep_every. generalize (length arr - 1)%nat as last.
  intros last.
  assert (G : forall (f : nat -> bool) (l : list odds_point),
             omap id (imap (fun i x => if f i then Some x else None) l) `sublist_of` l).
  { intros f l. revert f. induction l as [|x l IH]; intros f; [constructor|].
    cbn [imap].
    change (omap id ((if f 0%nat then Some x else None) :: ?t))
      with (match id (if f 0%nat then Some x else None) with
            | Some y => y :: omap id t
            | None => omap id t
            end).
    destruct (f 0%nat); cbn [id].
    - apply sublist_skip. apply (IH (fun i => f (S i))).
    - apply sublist_cons. apply (IH (fun i => f (S i))). }
  apply (G (fun i => (i =? 0)%nat || (i =? last)%nat || (i mod step =? 0)%nat)).
Qed.

Lemma omap_id_app {A} (l1 l2 : list (option A)) :
  omap id (l1 ++ l2) = omap id l1 ++ omap id l2.
Proof. apply omap_app. Qed.

Lemma keep_every_head step arr : head (keep_every step arr) = head arr.
Proof. unfold keep_every. destruct arr as [|x l]; reflexivity. Qed.

Lemma keep_every_last step arr : last (keep_every step arr) = last arr.
Proof.
  unfold keep_every. destruct (decide (arr = [])) as [->|Hne]; [reflexivity|].
  destruct (exists_last (l := arr)) as (l & x & ->); [exact Hne|].
  rewrite imap_app, omap_id_app. cbn [imap].
  rewrite length_app. cbn [length].
  replace (length l + 0 =? length l + 1 - 1)%nat with true
    by (symmetry; apply Nat.eqb_eq; lia).
  rewrite orb_true_r. cbn [orb].
  change (omap id [Some x]) with [x]. rewrite !last_snoc. reflexivity.
Qed.

(** X17.  Downsampling a series only leaves points out: the result is a
    subsequence of the series, in the same order, with the same first and
    the same last point; a series of at most two points is returned as it
    is, and the map keeps its keys. *)
Theorem downsample_keeps_endpoints (stateOddsMap : gmap string (list odds_point))
    (key : string) :
  match stateOddsMap !! key with
  | None => downsampleStateOdds stateOddsMap !! key = None
  | Some arr =>
      exists arr',
        downsampleStateOdds stateOddsMap !! key = Some arr'
        /\ arr' `sublist_of` arr
        /\ head arr' = head arr
        /\ last arr' = last arr
        /\ ((length arr <= 2)%nat -> arr' = arr)
  end.
Proof.
  unfold downsampleStateOdds. rewrite lookup_fmap.
  destruct (stateOddsMap !! key) as [arr|]; [|reflexivity].
  cbn [fmap option_fmap option_map]. exists (downsample arr). split; [reflexivity|].
  unfold downsample.
  destruct (Nat.leb_spec (length arr) 2) as [Hle|Hgt].
  - repeat split; reflexivity.
  - destruct (downsample_step arr) as [step|].
    + split; [apply keep_every_sublist|]. split; [apply keep_every_head|].
      split; [apply keep_every_last|]. intros; lia.
    + repeat split; reflexivity.
Qed.

Lemma is_NaN_dec (x : number) : {x = NaN} + {x <> NaN}.
Proof. destruct x; [right|right|right|left]; congruence. Qed.

Lemma Math_min_NaN_l y : Math_min NaN y = NaN.
Proof. reflexivity. Qed.

Lemma foldl_min_NaN vals : foldl Math_min NaN vals = NaN.
Proof. induction vals as [|v vals IH]; [reflexivity | exact IH]. Qed.

Lemma foldl_max_NaN vals : foldl Math_max NaN vals = NaN.
Proof. induction vals as [|v vals IH]; [reflexivity | exact IH]. Qed.

Lemma jle_refl_notNaN x : x <> NaN -> jle x x = true.
Proof. destruct x; try congruence; intros _; [|reflexivity|reflexivity].
  apply jle_Num. apply Qle_refl. Qed.

Lemma jle_trans x y z : jle x y = true -> jle y z = true -> jle x z = true.
Proof.
  destruct x, y, z; cbn [jle]; try congruence; try reflexivity.
  intros H1 H2. apply Qle_bool_iff in H1, H2. apply Qle_bool_iff. lra.
Qed.

Ltac solve_minmax :=
  split; [auto|];
  split; first [ reflexivity | apply jle_Num; lra | apply jle_Num; apply Qle_refl ].

Lemma Math_min_spec x y :
  x <> NaN -> y <> NaN ->
  (Math_min x y = x \/ Math_min x y = y)
  /\ jle (Math_min x y) x = true /\ jle (Math_min x y) y = true.
Proof.
  intros Hx Hy. destruct x as [a| | |], y as [b| | |]; try congruence;
    cbn [Math_min jlt];
    try (destruct (Qltb b a) eqn:E; [apply Qltb_lt in E | apply Qltb_ge in E]);
    solve_minmax.
Qed.

Lemma Math_max_spec x y :
  x <> NaN -> y <> NaN ->
  (Math_max x y = x \/ Math_max x y = y)
  /\ jle x (Math_max x y) = true /\ jle y (Math_max x y) = true.
Proof.
  intros Hx Hy. destruct x as [a| | |], y as [b| | |]; try congruence;
    cbn [Math_max jlt];
    try (destruct (Qltb a b) eqn:E; [apply Qltb_lt in E | apply Qltb_ge in E]);
    solve_minmax.
Qed.

(** The least of an accumulator and the values: NaN when one of them is
    NaN, else one of them that is at most each of them. *)
Lemma foldl_min_spec vals acc :
  foldl Math_min acc vals = NaN
  \/ (foldl Math_min acc vals <> NaN
      /\ (foldl Math_min acc vals = acc \/ foldl Math_min acc vals ∈ vals)
      /\ jle (foldl Math_min acc vals) acc = true
      /\ Forall (fun v => jle (foldl Math_min acc vals) v = true) vals).
Proof.
  revert acc. induction vals as [|v vals IH]; intros acc; cbn [foldl].
  - destruct (is_NaN_dec acc) as [->|Hn]; [left; reflexivity|].
    right. split; [exact Hn|]. split; [left; reflexivity|].
    split; [apply jle_refl_notNaN; exact Hn | constructor].
  - destruct (is_NaN_dec acc) as [->|Ha]; [left; apply foldl_min_NaN|].
    destruct (is_NaN_dec v) as [->|Hv].
    { left. destruct acc; try congruence; apply foldl_min_NaN. }
    destruct (Math_min_spec acc v Ha Hv) as (Hsel & L1 & L2).
    destruct (IH (Math_min acc v)) as [Hnan|(Hn & Hin & Hle & Hall)]; [left; exact Hnan|].
    right. split; [exact Hn|]. split.
    + destruct Hin as [Hin|Hin].
      * rewrite Hin. destruct Hsel as [->| ->]; [left; reflexivity | right; left].
      * right. right. exact Hin.
    + split; [eapply jle_trans; eassumption|].
      constructor; [eapply jle_trans; eassumption | exact Hall].
Qed.

Lemma foldl_max_spec vals acc :
  foldl Math_max acc vals = NaN
  \/ (foldl Math_max acc vals <> NaN
      /\ (foldl Math_max acc vals = acc \/ foldl Math_max acc vals ∈ vals)
      /\ jle acc (foldl Math_max acc vals) = true
      /\ Forall (fun v => jle v (foldl Math_max acc vals) = true) vals).
Proof.
  revert acc. induction vals as [|v vals IH]; intros acc; cbn [foldl].
  - destruct (is_NaN_dec acc) as [->|Hn]; [left; reflexivity|].
    right. split; [exact Hn|]. split; [left; reflexivity|].
    split; [apply jle_refl_notNaN; exact Hn | constructor].
  - destruct (is_NaN_dec acc) as [->|Ha]; [left; apply foldl_max_NaN|].
    destruct (is_NaN_dec v) as [->|Hv].
    { left. destruct acc; try congruence; apply foldl_max_NaN. }
    destruct (Math_max_spec acc v Ha Hv) as (Hsel & L1 & L2).
    destruct (IH (Math_max acc v)) as [Hnan|(Hn & Hin & Hle & Hall)]; [left; exact Hnan|].
    right. split; [exact Hn|]. split.
    + destruct Hin as [Hin|Hin].
      * rewrite Hin. destruct Hsel as [->| ->]; [left; reflexivity | right; left].
      * right. right. exact Hin.
    + split; [eapply jle_trans; eassumption|].
      constructor; [eapply jle_trans; eassumption | exact Hall].
Qed.

(** When the span of the values is below a finite bound, they are finite
    and any two of them differ by less than the bound. *)
Lemma span_below (vals : list number) (c : Q) x y :
  vals <> [] ->
  jlt (jsub (Math_max_all vals) (Math_min_all vals)) (Num c) = true ->
  x ∈ vals -> y ∈ vals ->
  exists a b, x = Num a /\ y = Num b /\ a - b < c.
Proof.
  intros Hne Hlt Hx Hy. unfold Math_max_all, Math_min_all in Hlt.
  destruct (foldl_max_spec vals NegInf) as [E|(Hn & Hin & _ & Hall)];
    [rewrite E in Hlt; discriminate|].
  destruct (foldl_min_spec vals PosInf) as [E'|(Hn' & Hin' & _ & Hall')];
    [rewrite E' in Hlt; destruct (foldl Math_max NegInf vals); discriminate|].
  set (mx := foldl Math_max NegInf vals) in *.
  set (mn := foldl Math_min PosInf vals) in *.
  rewrite Forall_forall in Hall, Hall'.
  assert (Hmn_mx : jle mn mx = true).
  { eapply jle_trans; [apply Hall'; exact Hx | apply Hall; exact Hx]. }
  destruct mx as [M| | |], mn as [m| | |]; try discriminate; try congruence.
  - pose proof (Hall x Hx) as X1. pose proof (Hall' x Hx) as X2.
    pose proof (Hall y Hy) as Y1. pose proof (Hall' y Hy) as Y2.
    destruct x as [a| | |]; try discriminate. destruct y as [b| | |]; try discriminate.
    exists a, b. split; [reflexivity|]. split; [reflexivity|].
    cbn [jsub jneg jadd] in Hlt. apply jlt_Num in Hlt.
    apply jle_Num in X1, X2, Y1, Y2. lra.
Qed.

Lemma keep_every_elem step arr j y :
  arr !! j = Some y -> (j = 0 \/ j = length arr - 1 \/ j mod step = 0)%nat ->
  y ∈ keep_every step arr.
Proof.
  intros Hj Hkeep. unfold keep_every. apply list_elem_of_omap.
  exists (Some y). split; [|reflexivity].
  apply list_elem_of_lookup. exists j. rewrite list_lookup_imap, Hj. cbn.
  replace ((j =? 0)%nat || (j =? length arr - 1)%nat || (j mod step =? 0)%nat) with true;
    [reflexivity|].
  symmetry. destruct Hkeep as [->|[->|Hm]].
  - reflexivity.
  - rewrite Nat.eqb_refl, orb_true_r. reflexivity.
  - rewrite Hm. apply orb_true_r.
Qed.

(** X18.  Downsampling drops points only from a series whose chances span
    less than 0.05: all the chances of such a series are finite and any two
    of them differ by less than 0.05; and of any seven consecutive points
    of the series at least one is kept. *)
Theorem downsample_only_flat (arr : list odds_point) :
  downsample arr <> arr ->
  (forall p q, p ∈ arr -> q ∈ arr ->
     exists a b, op_pDem p = Num a /\ op_pDem q = Num b /\ a - b < 0.05)
  /\ (forall i x, arr !! i = Some x ->
        exists j y, (j <= i < j + 7)%nat /\ arr !! j = Some y /\ y ∈ downsample arr).
Proof.
  intros Hd. unfold downsample in *.
  destruct (Nat.leb_spec (length arr) 2) as [Hle|Hgt]; [congruence|].
  unfold downsample_step in *. cbv zeta in *.
  set (range := jsub (Math_max_all (map op_pDem arr)) (Math_min_all (map op_pDem arr))) in *.
  assert (Hne : map op_pDem arr <> []) by (destruct arr; [cbn in Hgt; lia | discriminate]).
  assert (Hflat : jlt range (Num 0.05) = true).
  { destruct (jlt range (Num 0.02)) eqn:E2.
    - destruct range as [r| | |]; try discriminate; [|reflexivity].
      apply jlt_Num in E2. apply jlt_Num. lra.
    - destruct (jlt range (Num 0.05)); [reflexivity | congruence]. }
  split.
  - intros p q Hp Hq.
    apply (span_below (map op_pDem arr) 0.05 (op_pDem p) (op_pDem q) Hne Hflat);
      change (map op_pDem arr) with (op_pDem <$> arr); apply list_elem_of_fmap_2;
      assumption.
  - intros i x Hi.
    assert (G : forall step, (0 < step <= 7)%nat ->
                  exists j y, (j <= i < j + 7)%nat /\ arr !! j = Some y
                              /\ y ∈ keep_every step arr).
    { intros step Hs. exists (i - i mod step)%nat.
      pose proof (Nat.mod_upper_bound i step ltac:(lia)) as Hm.
      pose proof (Nat.div_mod_eq i step) as Hdm.
      assert (Hj : (i - i mod step < length arr)%nat).
      { apply lookup_lt_Some in Hi. lia. }
      destruct (lookup_lt_is_Some_2 arr _ Hj) as [y Hy]. exists y.
      split; [lia|]. split; [exact Hy|].
      apply (keep_every_elem step arr (i - i mod step) y Hy). right. right.
      replace (i - i mod step)%nat with (i / step * step)%nat by lia.
      apply Nat.Div0.mod_mul. }
    destruct (jlt range (Num 0.02)); [apply G; lia|].
    destruct (jlt range (Num 0.05)); [apply G; lia | congruence].
Qed.

Lemma downsample_only_flat_witness :
  (forall p q, p ∈ flat_series -> q ∈ flat_series ->
     exists a b, op_pDem p = Num a /\ op_pDem q = Num b /\ a - b < 0.05)
  /\ (forall i x, flat_series !! i = Some x ->
        exists j y, (j <= i < j + 7)%nat /\ flat_series !! j = Some y
                    /\ y ∈ downsample flat_series).
Proof. apply (downsample_only_flat flat_series). vm_compute. discriminate. Defined.

Example downsample_flat_series :
  downsample flat_series
  = [ {| op_date := "2026-01-01"; op_pDem := Num 0.97; op_margin := Num (-14) |};
      {| op_date := "2026-01-04"; op_pDem := Num 0.97; op_margin := Num (-14) |} ].
Proof. vm_compute. reflexivity. Qed.

(** ** House districts over time *)




Section HouseDistrictTheorems.
Context `{MathLib}.



End HouseDistrictTheorems.




(** ** CSV lines *)

Lemma trimStart_no_space s : Forall (fun c => is_space c = false) s -> trimStart s = s.
Proof. destruct 1 as [|c s Hc _]; [reflexivity|]. cbn. rewrite Hc. reflexivity. Qed.

Lemma trim_no_space s : Forall (fun c => is_space c = false) s -> trim s = s.
Proof.
  intros Hs. unfold trim, trimEnd. rewrite (trimStart_no_space s Hs).
  rewrite trimStart_no_space by (apply Forall_rev; exact Hs). apply rev_involutive.
Qed.

Lemma trimStart_head s :
  match trimStart s with
  | c :: _ => is_space c = false
  | [] => True
  end.
Proof.
  induction s as [|c s IH]; [exact I|]. cbn [trimStart].
  destruct (is_space c) eqn:E; [exact IH | exact E].
Qed.

Lemma trimStart_idem s : trimStart (trimStart s) = trimStart s.
Proof.
  pose proof (trimStart_head s) as H. destruct (trimStart s) as [|c r]; [reflexivity|].
  cbn. rewrite H. reflexivity.
Qed.

Lemma trimStart_suffix s : exists pre, s = pre ++ trimStart s.
Proof.
  induction s as [|c s [pre IH]]; [exists []; reflexivity|]. cbn [trimStart].
  destruct (is_space c); [|exists []; reflexivity].
  exists (c :: pre). cbn. rewrite <- IH. reflexivity.
Qed.

(** A trimmed text has no white space at either end. *)
Lemma trim_ends s :
  match trim s with
  | c :: _ => is_space c = false
  | [] => True
  end
  /\ match rev (trim s) with
     | c :: _ => is_space c = false
     | [] => True
     end.
Proof.
  unfold trim, trimEnd. rewrite rev_involutive. split; [|apply trimStart_head].
  pose proof (trimStart_head s) as Hh.
  set (t := trimStart s) in *. clearbody t.
  destruct (trimStart_suffix (rev t)) as [pre Hpre].
  pose proof (trimStart_head (rev t)) as Hr.
  destruct (trimStart (rev t)) as [|c r] eqn:E; [exact I|].
  assert (Ht : t = rev r ++ c :: rev pre).
  { rewrite <- (rev_involutive t), Hpre, rev_app_distr. cbn [rev]. rewrite <- app_assoc.
    reflexivity. }
  cbn [rev]. destruct (rev r) as [|c' r'] eqn:Er; cbn [app].
  - exact Hr.
  - rewrite Ht in Hh. cbn [app] in Hh. exact Hh.
Qed.

Lemma trim_idem s : trim (trim s) = trim s.
Proof.
  destruct (trim_ends s) as [H1 H2]. set (t := trim s) in *. clearbody t.
  unfold trim, trimEnd.
  assert (E1 : trimStart t = t) by (destruct t as [|c r]; [reflexivity | cbn; rewrite H1; reflexivity]).
  rewrite E1.
  assert (E2 : trimStart (rev t) = rev t)
    by (destruct (rev t) as [|c r]; [reflexivity | cbn; rewrite H2; reflexivity]).
  rewrite E2. apply rev_involutive.
Qed.

Lemma trimStart_Forall (P : code_unit -> Prop) s : Forall P s -> Forall P (trimStart s).
Proof.
  induction 1 as [|c s Hc Hs IH]; [constructor|]. cbn [trimStart].
  destruct (is_space c); [exact IH | constructor; assumption].
Qed.

Lemma trim_Forall (P : code_unit -> Prop) s : Forall P s -> Forall P (trim s).
Proof.
  intros Hs. unfold trim, trimEnd. apply Forall_rev, trimStart_Forall, Forall_rev,
    trimStart_Forall. exact Hs.
Qed.

Lemma is_quote_comma : is_quote comma_char = false.
Proof. reflexivity. Qed.

Lemma is_comma_comma : is_comma comma_char = true.
Proof. reflexivity. Qed.

Lemma is_quote_eq c : is_quote c = true -> c = quote_char.
Proof. apply Ascii.eqb_eq. Qed.

Lemma is_comma_eq c : is_comma c = true -> c = comma_char.
Proof. apply Ascii.eqb_eq. Qed.

Lemma join_commas_cons f fields :
  fields <> [] -> join_commas (f :: fields) = f ++ comma_char :: join_commas fields.
Proof. destruct fields; [congruence | reflexivity]. Qed.

(** The loop outside quotes on a text without quotes. *)
Lemma csv_plain line cur res :
  Forall (fun c => is_quote c = false) line ->
  exists fields,
    csv_fields line cur false res = res ++ fields
    /\ length fields = S (count_commas line)
    /\ (Forall (fun c => is_comma c = false) cur ->
        Forall (fun f => trim f = f /\ Forall (fun c => is_comma c = false) f) fields)
    /\ (Forall (fun c => is_space c = false) line ->
        Forall (fun c => is_space c = false) cur ->
        join_commas fields = cur ++ line).
Proof.
  intros Hq. revert cur res. induction Hq as [|ch rest Hch _ IH]; intros cur res.
  - exists [trim cur]. cbn [csv_fields]. split; [reflexivity|]. split; [reflexivity|].
    split.
    + intros Hc. constructor; [|constructor]. split; [apply trim_idem|].
      apply trim_Forall. exact Hc.
    + intros _ Hs. cbn [join_commas]. rewrite app_nil_r. apply trim_no_space. exact Hs.
  - cbn [csv_fields]. rewrite Hch.
    assert (Hcc : count_commas (ch :: rest)
                  = if is_comma ch then S (count_commas rest) else count_commas rest).
    { unfold count_commas. rewrite filter_cons.
      destruct (is_comma ch); [rewrite decide_True by reflexivity
                              | rewrite decide_False by discriminate]; reflexivity. }
    rewrite Hcc. clear Hcc.
    destruct (is_comma ch) eqn:Ec.
    + destruct (IH [] (res ++ [trim cur])) as (fields & E & L & T & J).
      exists (trim cur :: fields). rewrite E, <- app_assoc. split; [reflexivity|].
      cbn [length]. split; [lia|].
      split.
      * intros Hc. constructor; [|apply T; constructor].
        split; [apply trim_idem | apply trim_Forall; exact Hc].
      * intros Hs Hcur. apply Forall_cons in Hs as [_ Hs].
        assert (Hf : fields <> []) by (destruct fields; [discriminate | discriminate]).
        rewrite join_commas_cons by exact Hf.
        rewrite (J Hs ltac:(constructor)), (trim_no_space cur Hcur).
        apply is_comma_eq in Ec. subst ch. reflexivity.
    + destruct (IH (cur ++ [ch]) res) as (fields & E & L & T & J).
      exists fields. split; [exact E|].
      split; [exact L|]. split.
      * intros Hc. apply T. apply Forall_app. split; [exact Hc|].
        constructor; [exact Ec | constructor].
      * intros Hs Hcur. apply Forall_cons in Hs as [Hs1 Hs].
        rewrite J; [rewrite <- app_assoc; reflexivity | exact Hs|].
        apply Forall_app. split; [exact Hcur | constructor; [exact Hs1 | constructor]].
Qed.

(** X21.  A line without quotes has one field more than it has commas; no
    field contains a comma or has white space at either end; and when the
    line has no white space at all, joining the fields with commas gives
    the line back. *)
Theorem parseCSVLine_plain (line : jstring) :
  Forall (fun c => is_quote c = false) line ->
  length (parseCSVLine line) = S (count_commas line)
  /\ Forall (fun f => trim f = f /\ Forall (fun c => is_comma c = false) f)
       (parseCSVLine line)
  /\ (Forall (fun c => is_space c = false) line ->
      join_commas (parseCSVLine line) = line).
Proof.
  intros Hq. unfold parseCSVLine.
  destruct (csv_plain line [] [] Hq) as (fields & E & L & T & J).
  rewrite E. cbn [app]. split; [exact L|]. split; [apply T; constructor|].
  intros Hs. apply (J Hs). constructor.
Qed.

Lemma parseCSVLine_plain_witness :
  length (parseCSVLine (String.list_ascii_of_string "OH, 45 ,,R"))
  = S (count_commas (String.list_ascii_of_string "OH, 45 ,,R"))
  /\ Forall (fun f => trim f = f /\ Forall (fun c => is_comma c = false) f)
       (parseCSVLine (String.list_ascii_of_string "OH, 45 ,,R"))
  /\ (Forall (fun c => is_space c = false) (String.list_ascii_of_string "OH, 45 ,,R") ->
      join_commas (parseCSVLine (String.list_ascii_of_string "OH, 45 ,,R"))
      = String.list_ascii_of_string "OH, 45 ,,R").
Proof.
  apply (parseCSVLine_plain (String.list_ascii_of_string "OH, 45 ,,R")).
  repeat constructor.
Defined.

(** The loop inside quotes on an escaped text closed by a quote. *)
Lemma csv_in_quotes f tail cur res :
  tail = [] \/ (exists t, tail = comma_char :: t) ->
  csv_fields (csv_escape f ++ quote_char :: tail) cur true res
  = csv_fields tail (cur ++ f) false res.
Proof.
  intros Ht. revert cur. induction f as [|c f IH]; intros cur.
  - change (csv_escape []) with (@nil Ascii.ascii). rewrite app_nil_r. cbn [app].
    destruct Ht as [->|[t ->]]; cbn [csv_fields];
      change (is_quote quote_char) with true; cbv iota; [reflexivity|].
    change (is_quote comma_char) with false. reflexivity.
  - unfold csv_escape. cbn [map]. change (mjoin (?x :: ?l)) with (x ++ mjoin l).
    fold (csv_escape f).
    destruct (is_quote c) eqn:Ec.
    + apply is_quote_eq in Ec. subst c. cbn [app csv_fields].
      change (is_quote quote_char) with true. cbv iota.
      rewrite IH, <- app_assoc. reflexivity.
    + cbn [app csv_fields]. rewrite Ec. rewrite IH, <- app_assoc. reflexivity.
Qed.

Lemma csv_quoted_fields fields res :
  fields <> [] ->
  csv_fields (join_commas (map csv_quote fields)) [] false res = res ++ map trim fields.
Proof.
  revert res. induction fields as [|f fields IH]; intros res Hne; [congruence|].
  destruct fields as [|g fields].
  - cbn [map join_commas]. unfold csv_quote. cbn [csv_fields].
    change (is_quote quote_char) with true. cbv iota.
    rewrite (csv_in_quotes f [] [] res (or_introl eq_refl)). reflexivity.
  - cbn [map]. rewrite join_commas_cons by discriminate.
    unfold csv_quote at 1. cbn [app csv_fields].
    change (is_quote quote_char) with true. cbv iota.
    rewrite <- app_assoc. cbn [app].
    rewrite (csv_in_quotes f _ [] res (or_intror (ex_intro _ _ eq_refl))).
    cbn [app csv_fields]. rewrite is_quote_comma, is_comma_comma.
    change (csv_quote g :: map csv_quote fields) with (map csv_quote (g :: fields)).
    rewrite IH by discriminate. rewrite <- app_assoc. reflexivity.
Qed.

(** X22.  Quoted fields are read back: a line made of fields written
    between quotes, with every quote of their text doubled, and joined by
    commas, parses to those fields, trimmed; commas and quotes inside the
    quotes do not split or end a field, and the quotes do not protect
    white space at the ends. *)
Theorem parseCSVLine_quoted (fields : list jstring) :
  fields <> [] ->
  parseCSVLine (join_commas (map csv_quote fields)) = map trim fields.
Proof. intros Hne. unfold parseCSVLine. apply (csv_quoted_fields fields [] Hne). Qed.

Lemma parseCSVLine_quoted_witness :
  parseCSVLine
    (join_commas (map csv_quote [ String.list_ascii_of_string "Ohio, OH";
                                   String.list_ascii_of_string " 45 " ]))
  = map trim [ String.list_ascii_of_string "Ohio, OH"; String.list_ascii_of_string " 45 " ].
Proof. apply parseCSVLine_quoted. discriminate. Defined.

Example parseCSVLine_sample :
  parseCSVLine (String.list_ascii_of_string "OH, 45 ,,R")
  = map String.list_ascii_of_string ["OH"; "45"; EmptyString; "R"]%string.
Proof. vm_compute. reflexivity. Qed.

(** ** CSV rows *)

Lemma row_fold_dom (vals : list jstring) (entries : list (nat * jstring))
    (acc : gmap jstring jstring) h :
  is_Some (foldl (fun (obj : gmap jstring jstring) (e : nat * jstring) =>
                    if bool_decide (snd e = proto_key) then obj
                    else <[snd e := default [] (vals !! fst e)]> obj) acc entries !! h)
  <-> is_Some (acc !! h) \/ (h ∈ map snd entries /\ h <> proto_key).
Proof.
  revert acc. induction entries as [|[j k] entries IH]; intros acc; cbn [foldl map snd fst].
  - rewrite elem_of_nil. tauto.
  - rewrite IH, elem_of_cons. destruct (bool_decide_reflect (k = proto_key)) as [->|Hk].
    + split; [tauto|]. intros [?|[[->|?] ?]]; [tauto | congruence | tauto].
    + destruct (decide (h = k)) as [->|Hne].
      * rewrite lookup_insert_eq. split; [intros _; right; split; [left; reflexivity | exact Hk]|].
        intros _. left. eauto.
      * rewrite lookup_insert_ne by congruence. split; [tauto|].
        intros [?|[[?|?] ?]]; [tauto | congruence | tauto].
Qed.

Lemma row_fold_lookup (vals : list jstring) (entries : list (nat * jstring))
    (acc : gmap jstring jstring) i j h :
  NoDup (map snd entries) -> entries !! i = Some (j, h) -> h <> proto_key ->
  foldl (fun (obj : gmap jstring jstring) (e : nat * jstring) =>
           if bool_decide (snd e = proto_key) then obj
           else <[snd e := default [] (vals !! fst e)]> obj) acc entries !! h
  = Some (default [] (vals !! j)).
Proof.
  revert acc i. induction entries as [|[j0 k] entries IH]; intros acc i Hnd Hi Hh.
  - rewrite lookup_nil in Hi. discriminate.
  - cbn [map snd] in Hnd. apply NoDup_cons in Hnd as [Hnotin Hnd].
    cbn [foldl fst snd]. destruct i as [|i].
    + cbn in Hi. injection Hi as -> ->.
      rewrite bool_decide_false by exact Hh.
      assert (G : forall (es : list (nat * jstring)) (a : gmap jstring jstring),
                 h ∉ map snd es ->
                 foldl (fun (obj : gmap jstring jstring) (e : nat * jstring) =>
                          if bool_decide (snd e = proto_key) then obj
                          else <[snd e := default [] (vals !! fst e)]> obj) a es !! h
                 = a !! h).
      { induction es as [|[j1 k1] es IHes]; intros a Hn; [reflexivity|].
        cbn [map snd] in Hn. apply not_elem_of_cons in Hn as [Hn1 Hn2].
        cbn [foldl fst snd]. rewrite IHes by exact Hn2.
        destruct (bool_decide (k1 = proto_key)); [reflexivity|].
        apply lookup_insert_ne. congruence. }
      rewrite G by exact Hnotin. apply lookup_insert_eq.
    + change (((j0, k) :: entries) !! S i) with (entries !! i) in Hi.
      apply (IH _ i Hnd Hi Hh).
Qed.

Lemma row_of_dom headers vals h :
  is_Some (row_of headers vals !! h) <-> h ∈ headers /\ h <> proto_key.
Proof.
  unfold row_of. rewrite row_fold_dom, lookup_empty.
  assert (E : map snd (imap (fun j h0 => (j, h0)) headers) = headers).
  { apply list_eq. intros i. change (map snd ?l) with (snd <$> l).
    rewrite list_lookup_fmap, list_lookup_imap. destruct (headers !! i); reflexivity. }
  rewrite E. split; [intros [[? ?]|?]; [discriminate | assumption] | auto].
Qed.

Lemma row_of_lookup headers vals j h :
  NoDup headers -> headers !! j = Some h -> h <> proto_key ->
  row_of headers vals !! h = Some (default [] (vals !! j)).
Proof.
  intros Hnd Hj Hh. unfold row_of.
  apply (row_fold_lookup vals _ ∅ j j h).
  - assert (E : map snd (imap (fun j h0 => (j, h0)) headers) = headers).
    { apply list_eq. intros i. change (map snd ?l) with (snd <$> l).
      rewrite list_lookup_fmap, list_lookup_imap. destruct (headers !! i); reflexivity. }
    rewrite E. exact Hnd.
  - rewrite list_lookup_imap, Hj. reflexivity.
  - exact Hh.
Qed.

Lemma split_lines_nonempty text cur : split_lines text cur <> [].
Proof.
  revert cur. induction text as [|c rest IH]; intros cur; cbn [split_lines]; [discriminate|].
  destruct (Ascii.eqb c lf_char); [discriminate|].
  destruct (Ascii.eqb c cr_char); [|apply IH].
  destruct rest as [|c2 rest2]; [apply IH|].
  destruct (Ascii.eqb c2 lf_char); [discriminate | apply IH].
Qed.

Lemma parseCSV_map text first rest :
  split_lines text [] = first :: rest ->
  parseCSV text
  = map (fun line => row_of (parseCSVLine first) (parseCSVLine line)) (data_lines rest).
Proof.
  intros E. unfold parseCSV. cbv zeta. rewrite E.
  destruct rest as [|l rest]; [reflexivity|].
  change (length (first :: l :: rest) <? 2)%nat with false. cbv iota.
  generalize (l :: rest). clear. intros ls. unfold data_lines.
  induction ls as [|x ls IH]; [reflexivity|].
  change (omap ?f (x :: ls)) with (match f x with Some y => y :: omap f ls | None => omap f ls end).
  rewrite filter_cons. destruct (is_blank x) eqn:Eb.
  - rewrite decide_False by discriminate. exact IH.
  - rewrite decide_True by reflexivity. cbn [map]. rewrite IH. reflexivity.
Qed.

(** X23.  The rows of [parseCSV]: the text always has a first line, the
    header; there is one row for every later line that is not blank, in
    order (none when the text is a single line).  Every row has a value
    for exactly the header names, whatever the number of cells of its
    line, save the name [__proto__], which no row holds; with distinct
    header names the value for the name of column [j] is cell [j] of the
    line, or the empty text when the line has no such cell. *)
Theorem parseCSV_rows (text : jstring) :
  exists first rest,
    split_lines text [] = first :: rest
    /\ length (parseCSV text) = length (data_lines rest)
    /\ forall i line,
         data_lines rest !! i = Some line ->
         exists row,
           parseCSV text !! i = Some row
           /\ (forall h, is_Some (row !! h) <-> h ∈ parseCSVLine first /\ h <> proto_key)
           /\ (NoDup (parseCSVLine first) ->
               forall j h,
                 parseCSVLine first !! j = Some h -> h <> proto_key ->
                 row !! h = Some (default [] (parseCSVLine line !! j))).
Proof.
  destruct (split_lines text []) as [|first rest] eqn:E;
    [exfalso; apply (split_lines_nonempty text []); exact E|].
  exists first, rest. split; [reflexivity|].
  rewrite (parseCSV_map text first rest E). split; [apply length_map|].
  intros i line Hi. eexists. split.
  - change (map ?f ?l) with (f <$> l). rewrite list_lookup_fmap, Hi. reflexivity.
  - split; [intros h; apply row_of_dom|].
    intros Hnd j h Hj Hh. apply row_of_lookup; assumption.
Qed.

Example parseCSV_sample :
  map (fun row => row !! String.list_ascii_of_string "pollD")
    (parseCSV (String.list_ascii_of_string "state,pollD,pollR"
               ++ lf_char :: String.list_ascii_of_string "OH,45,47"
               ++ cr_char :: lf_char :: lf_char :: String.list_ascii_of_string "TX"))
  = [ Some (String.list_ascii_of_string "45"); Some [] ].
Proof. vm_compute. reflexivity. Qed.

(** ** The shared dates of the columnar encoding *)

Lemma ascii_compare_N a b :
  Ascii.compare a b = N.compare (Ascii.N_of_ascii a) (Ascii.N_of_ascii b).
Proof. reflexivity. Qed.

Lemma string_compare_trans_lt s1 s2 s3 :
  String.compare s1 s2 = Lt -> String.compare s2 s3 = Lt -> String.compare s1 s3 = Lt.
Proof.
  revert s2 s3. induction s1 as [|c1 s1 IH]; intros [|c2 s2] [|c3 s3]; cbn [String.compare];
    try discriminate; try reflexivity.
  rewrite !ascii_compare_N.
  destruct (N.compare_spec (Ascii.N_of_ascii c1) (Ascii.N_of_ascii c2)) as [E12|L12|G12];
    try discriminate;
    destruct (N.compare_spec (Ascii.N_of_ascii c2) (Ascii.N_of_ascii c3)) as [E23|L23|G23];
    try discriminate.
  - rewrite E12, E23, N.compare_refl. apply IH.
  - intros _ _. rewrite E12. apply N.compare_lt_iff in L23. rewrite L23. reflexivity.
  - intros _ _. rewrite <- E23. apply N.compare_lt_iff in L12. rewrite L12. reflexivity.
  - intros _ _. assert (L : (Ascii.N_of_ascii c1 < Ascii.N_of_ascii c3)%N) by lia.
    apply N.compare_lt_iff in L. rewrite L. reflexivity.
Qed.

Lemma string_compare_refl s : String.compare s s = Eq.
Proof.
  induction s as [|c s IH]; [reflexivity|]. cbn [String.compare].
  rewrite ascii_compare_N, N.compare_refl. exact IH.
Qed.

#[export] Instance key_le_trans : Transitive key_le.
Proof.
  intros a b c Hab Hbc. unfold key_le, String.leb in *.
  destruct (String.compare a b) eqn:Eab; cbn in Hab; try contradiction;
    destruct (String.compare b c) eqn:Ebc; cbn in Hbc; try contradiction.
  - apply String.compare_eq_iff in Eab, Ebc. subst. rewrite string_compare_refl. exact I.
  - apply String.compare_eq_iff in Eab. subst. rewrite Ebc. exact I.
  - apply String.compare_eq_iff in Ebc. subst. rewrite Eab. exact I.
  - rewrite (string_compare_trans_lt a b c Eab Ebc). exact I.
Qed.

#[export] Instance key_le_total : Total key_le.
Proof.
  intros a b. unfold key_le.
  destruct (String.leb_total a b) as [E|E]; rewrite E; [left | right]; exact I.
Qed.

Lemma all_dates_sorted (stateOddsMap : gmap string (list odds_point)) :
  StronglySorted key_le (all_dates stateOddsMap) /\ NoDup (all_dates stateOddsMap).
Proof.
  unfold all_dates. split.
  - apply StronglySorted_merge_sort; apply _.
  - rewrite merge_sort_Permutation. apply NoDup_remove_dups.
Qed.

Lemma all_dates_elem_iff (stateOddsMap : gmap string (list odds_point)) d :
  d ∈ all_dates stateOddsMap
  <-> exists key arr e, stateOddsMap !! key = Some arr /\ e ∈ arr /\ op_date e = d.
Proof.
  split.
  - unfold all_dates. rewrite merge_sort_Permutation, elem_of_remove_dups.
    intros Hd. apply list_elem_of_join in Hd as (l & Hd & Hl).
    change (map ?f ?x) with (f <$> x) in Hl.
    apply list_elem_of_fmap in Hl as ([key arr] & -> & Hkv).
    apply elem_of_map_to_list in Hkv. cbn [snd] in Hd.
    change (map ?f ?x) with (f <$> x) in Hd.
    apply list_elem_of_fmap in Hd as (e & -> & He). exists key, arr, e. auto.
  - intros (key & arr & e & Hk & He & <-). eapply all_dates_elem; eassumption.
Qed.

Lemma date_index_lookup_iff dates d j :
  NoDup dates -> (date_index dates !! d = Some j <-> dates !! j = Some d).
Proof.
  intros Hnd. split.
  - intros Hj. unfold date_index in Hj. apply index_from_spec in Hj as [[Hj _]|[_ Hj]].
    + rewrite lookup_empty in Hj. discriminate.
    + rewrite Nat.sub_0_r in Hj. exact Hj.
  - intros Hj.
    destruct (date_index_lookup dates d (list_elem_of_lookup_2 _ _ _ Hj)) as (j' & Hi & Hj').
    rewrite Hi. f_equal. eapply NoDup_lookup; eassumption.
Qed.

(** X24.  The shared dates of the columnar encoding are the dates that
    occur in the series, each once and in ascending order.  Every series
    is encoded under its key, with the chances and the margins of its
    points in order; the position kept for a point is the position of its
    date in the shared dates, and the dense form is used only for a series
    whose positions are consecutive, of which it keeps the first. *)
Theorem encodeStateOddsColumnar_dates (stateOddsMap : gmap string (list odds_point)) :
  StronglySorted key_le (col_dates (encodeStateOddsColumnar stateOddsMap))
  /\ NoDup (col_dates (encodeStateOddsColumnar stateOddsMap))
  /\ (forall d, d ∈ col_dates (encodeStateOddsColumnar stateOddsMap)
                <-> exists key arr e,
                      stateOddsMap !! key = Some arr /\ e ∈ arr /\ op_date e = d)
  /\ forall key arr,
       stateOddsMap !! key = Some arr ->
       exists positions,
         Forall2 (fun e j =>
                    col_dates (encodeStateOddsColumnar stateOddsMap) !! j
                    = Some (op_date e)) arr positions
         /\ (col_states (encodeStateOddsColumnar stateOddsMap) !! key
             = Some (Sparse (map Some positions) (map op_pDem arr) (map op_margin arr))
             \/ (col_states (encodeStateOddsColumnar stateOddsMap) !! key
                 = Some (Dense (head positions) (map op_pDem arr) (map op_margin arr))
                 /\ positions = seq (default 0%nat (head positions)) (length arr)
                 /\ arr <> [])).
Proof.
  unfold encodeStateOddsColumnar. cbv zeta. cbn [col_dates col_states].
  destruct (all_dates_sorted stateOddsMap) as [Hs Hnd].
  split; [exact Hs|]. split; [exact Hnd|]. split; [apply all_dates_elem_iff|].
  intros key arr Hk. rewrite lookup_fmap, Hk.
  cbn [fmap option_fmap option_map].
  set (dates := all_dates stateOddsMap) in *.
  assert (Hpos : exists positions,
             map (fun e => date_index dates !! op_date e) arr = map Some positions
             /\ Forall2 (fun e j => dates !! j = Some (op_date e)) arr positions).
  { assert (Hall : Forall (fun e => op_date e ∈ dates) arr).
    { apply Forall_forall. intros e He. eapply all_dates_elem; eassumption. }
    clear Hk. induction Hall as [|e arr He _ (positions & E & F)].
    - exists []. split; [reflexivity | constructor].
    - destruct (date_index_lookup dates (op_date e) He) as (j & Hj & Hd).
      exists (j :: positions). cbn [map]. rewrite Hj, E. split; [reflexivity|].
      constructor; assumption. }
  destruct Hpos as (positions & E & F). exists positions. split; [exact F|].
  unfold encode_seat. cbv zeta. rewrite E.
  destruct (isDense (map Some positions)) eqn:Ed; [right | left; reflexivity].
  destruct (isDense_lookup _ Ed) as (s & Hh & Hlk).
  split.
  - destruct positions; reflexivity.
  - assert (Hlen : length positions = length arr).
    { apply Forall2_length in F. lia. }
    split.
    + apply list_eq. intros k.
      destruct (decide (k < length positions)%nat) as [Hlt|Hge].
      * specialize (Hlk k). rewrite length_map in Hlk. specialize (Hlk Hlt).
        change (map Some positions) with (Some <$> positions) in Hlk, Hh.
        rewrite list_lookup_fmap in Hlk.
        destruct (positions !! k) as [j|] eqn:Ej; [|discriminate].
        cbn in Hlk. injection Hlk as ->.
        rewrite lookup_seq_lt by lia.
        destruct positions as [|p0 ps]; [cbn in Hlt; lia|].
        cbn in Hh. injection Hh as ->. reflexivity.
      * rewrite lookup_ge_None_2 by lia.
        symmetry. apply lookup_ge_None_2. rewrite length_seq. lia.
    + destruct arr as [|e arr]; [|discriminate].
      apply Forall2_nil_inv_l in F. subst positions. discriminate.
Qed.
(** ** The latest polls *)


Section PollSignal.
Context `{MathLib}.

(** X26.  A senate or governor seat with dated polls whose shares are
    between 0 and 100 never runs without a poll signal in the odds over
    time: whatever the poll matrix holds for a day, the engine has a poll
    pair for the seat, that of the rolling window or else that of the
    latest polls. *)
Theorem odds_poll_signal_present (spd : STATE_POLL_DATA_t) (dt : data) (c : chamber)
    (k : string) (pollsOf : list state_poll) (pm : option poll_matrix) (day n i : nat) :
  c <> house -> spd c !! k = Some pollsOf -> pollsOf <> [] ->
  Forall (fun p => 0 <= sp_D p <= 100 /\ 0 <= sp_R p <= 100) pollsOf ->
  is_Some (day_poll_pair pm day n i
             (seat_statics (DATA_of (applyLatestStatePollsToData spd dt) c) k))
  /\ is_Some (latest_pair pollsOf).
Proof.
  intros Hc Hk Hne Hall.
  assert (Hrec : Forall (fun p => 0 <= sp_D p <= 100 /\ 0 <= sp_R p <= 100)
                   (recent_polls pollsOf)) by (apply Forall_drop; exact Hall).
  destruct (latest_avg_mean pollsOf 0 100 Hne Hrec) as (d & r & s & E & _ & _ & Bd & Br).
  destruct (applyLatest_polls spd dt c k pollsOf Hc Hk Hne) as [Hp _].
  destruct (seat_statics_latest _ k pollsOf Hp Hne) as [HD0 HR0].
  rewrite E in HD0, HR0. cbn [poll_D poll_R] in HD0, HR0.
  pose proof (fround_percent d Bd) as Fd. pose proof (fround_percent r Br) as Fr.
  split.
  - unfold day_poll_pair, day_poll_shares.
    set (cell := match pm with
                 | Some m =>
                     if isFinite (read_f32 (pollDDay m) (day * n + i))
                        && isFinite (read_f32 (pollRDay m) (day * n + i))
                     then (read_f32 (pollDDay m) (day * n + i),
                           read_f32 (pollRDay m) (day * n + i))
                     else (NaN, NaN)
                 | None => (NaN, NaN)
                 end).
    assert (Hcell : (isFinite (fst cell) && isFinite (snd cell) = true)
                    \/ cell = (NaN, NaN)).
    { unfold cell. destruct pm as [m|]; [|right; reflexivity].
      destruct (isFinite (read_f32 (pollDDay m) (day * n + i))
                && isFinite (read_f32 (pollRDay m) (day * n + i))) eqn:Ef;
        [left; exact Ef | right; reflexivity]. }
    destruct cell as [pDi pRi]. cbn [fst snd] in Hcell.
    destruct Hcell as [Hf|Hn].
    + apply andb_true_iff in Hf as [F1 F2]. rewrite F1, F2. cbn [negb orb andb].
      rewrite F1, F2. cbn [andb]. eauto.
    + injection Hn as -> ->. cbn [isFinite negb orb]. rewrite HD0, HR0, Fd, Fr.
      cbn [andb]. eauto.
  - unfold latest_pair. cbv zeta. rewrite E. cbn [poll_D poll_R]. rewrite Fd, Fr.
    cbn [andb]. eauto.
Qed.
End PollSignal.

Lemma odds_poll_signal_present_witness :
  is_Some (day_poll_pair None 0 1 0
             (seat_statics (DATA_of (applyLatestStatePollsToData sample_spd sample_data) senate)
                "OH"%string))
  /\ is_Some (latest_pair
                [ {| sp_date := 2; sp_D := 44; sp_R := 47; sp_sigma := 3 |};
                  {| sp_date := 2; sp_D := 46; sp_R := 45; sp_sigma := 3 |};
                  {| sp_date := 3; sp_D := 45; sp_R := 48; sp_sigma := 3 |} ]).
Proof.
  refine (odds_poll_signal_present sample_spd sample_data senate "OH"%string _ None 0 1 0
            _ eq_refl _ _).
  - discriminate.
  - discriminate.
  - repeat constructor; cbn; lra.
Defined.
(** ** The history of snapshots *)



(** ** Pollster allowlist *)

Lemma toLowerCase_unit_alnum c :
  is_lower_alnum c = true -> toLowerCase_unit c = c.
Proof.
  unfold is_lower_alnum, toLowerCase_unit. cbv zeta.
  generalize (Ascii.nat_of_ascii c). intros n Hn.
  destruct ((65 <=? n)%nat && (n <=? 90)%nat
            || (192 <=? n)%nat && (n <=? 222)%nat && negb (n =? 215)%nat) eqn:E;
    [|reflexivity].
  exfalso.
  repeat (apply orb_true_iff in Hn as [Hn|Hn] || apply andb_true_iff in Hn as [? Hn]);
  repeat (apply orb_true_iff in E as [E|E] || apply andb_true_iff in E as [? E]);
  repeat match goal with
         | H : (_ <=? _)%nat = true |- _ => apply Nat.leb_le in H
         | H : _ && _ = true |- _ => apply andb_true_iff in H as [? ?]
         end; lia.
Qed.

Lemma is_lower_alnum_not_amp c : is_lower_alnum c = true -> Ascii.eqb c amp_char = false.
Proof.
  intros Hc. destruct (Ascii.eqb c amp_char) eqn:E; [|reflexivity].
  apply Ascii.eqb_eq in E. subst c. vm_compute in Hc. discriminate.
Qed.

Lemma is_lower_alnum_word c : is_lower_alnum c = true -> is_word c = true.
Proof.
  unfold is_lower_alnum, is_word. cbv zeta. intros Hc.
  apply orb_true_iff in Hc as [Hc|Hc]; rewrite Hc; cbn;
    rewrite ?orb_true_r; reflexivity.
Qed.

Lemma strip_non_alnum_Forall s : Forall (fun c => is_lower_alnum c = true) (strip_non_alnum s).
Proof.
  apply Forall_forall. intros c Hc. apply list_elem_of_In in Hc.
  apply List.filter_In in Hc. tauto.
Qed.

Lemma normPollster_fixed s :
  Forall (fun c => is_lower_alnum c = true) s -> normPollster s = s.
Proof.
  unfold normPollster, strip_non_alnum, replace_amp, toLowerCase.
  induction 1 as [|c s Hc _ IH]; [reflexivity|].
  cbn [map flat_map]. rewrite (toLowerCase_unit_alnum c Hc), (is_lower_alnum_not_amp c Hc).
  cbn [app List.filter]. rewrite Hc, IH. reflexivity.
Qed.

Lemma starts_with_spec w s rest :
  starts_with w s = Some rest <-> s = w ++ rest.
Proof.
  revert s. induction w as [|c w IH]; intros s; cbn.
  - split; [intros [= ->]; reflexivity | intros ->; reflexivity].
  - destruct s as [|d s]; [split; discriminate|].
    destruct (Ascii.eqb c d) eqn:E.
    + apply Ascii.eqb_eq in E. subst d. rewrite IH. split; [intros ->; reflexivity|].
      intros [= ->]. reflexivity.
    + apply Ascii.eqb_neq in E. split; [discriminate|]. intros [= Hd _]. congruence.
Qed.

Lemma test_alt_spec a s :
  test_alt a s = true <-> exists before since, s = before ++ since /\ match_here a since = true.
Proof.
  induction s as [|c s IH]; cbn [test_alt].
  - rewrite orb_false_r. split.
    + intros Hm. exists [], []. split; [reflexivity | exact Hm].
    + intros (b & r & Hs & Hm). symmetry in Hs. apply app_eq_nil in Hs as [-> ->]. exact Hm.
  - rewrite orb_true_iff, IH. split.
    + intros [Hm | (b & r & -> & Hm)].
      * exists [], (c :: s). split; [reflexivity | exact Hm].
      * exists (c :: b), r. split; [reflexivity | exact Hm].
    + intros (b & r & Hs & Hm). destruct b as [|c' b].
      * left. cbn in Hs. subst r. exact Hm.
      * right. injection Hs as -> ->. exists b, r. split; [reflexivity | exact Hm].
Qed.

Lemma test_lit_contains w n : test_alt (Lit w) n = true <-> contains w n.
Proof.
  rewrite test_alt_spec. unfold contains, match_here. split.
  - intros (b & r & -> & Hm). apply bool_decide_eq_true in Hm as [rest Hr].
    apply starts_with_spec in Hr. subst r. exists b, rest. reflexivity.
  - intros (b & r & ->). exists b, (w ++ r). split; [reflexivity|].
    apply bool_decide_eq_true. exists r. apply starts_with_spec. reflexivity.
Qed.

Lemma contains_Forall (P : Ascii.ascii -> Prop) w n : contains w n -> Forall P n -> Forall P w.
Proof.
  intros (b & r & ->) Hn. apply Forall_app in Hn as [_ Hn].
  apply Forall_app in Hn as [Hn _]. exact Hn.
Qed.

Lemma test_litB_suffix w n :
  word_side (last w) = true -> Forall (fun c => is_lower_alnum c = true) n ->
  test_alt (LitB w) n = true <-> exists before, n = before ++ w.
Proof.
  intros Hw Hn. rewrite test_alt_spec. unfold match_here. rewrite Hw. split.
  - intros (b & r & -> & Hm). destruct (starts_with w r) as [rest|] eqn:Er; [|discriminate].
    apply starts_with_spec in Er. subst r. destruct rest as [|d rest].
    + exists b. rewrite app_nil_r. reflexivity.
    + exfalso. cbn in Hm. apply Forall_app in Hn as [_ Hn]. apply Forall_app in Hn as [_ Hn].
      apply Forall_cons in Hn as [Hd _]. rewrite (is_lower_alnum_word d Hd) in Hm.
      discriminate.
  - intros (b & ->). exists b, w. split; [reflexivity|].
    assert (E : starts_with w w = Some []) by (apply starts_with_spec; rewrite app_nil_r; reflexivity).
    rewrite E. reflexivity.
Qed.

Lemma test_alt_asks a n :
  boundary_ok a = true ->
  Forall (fun c => is_lower_alnum c = true) n ->
  test_alt a n = true <-> asks a n.
Proof.
  intros Ha Hn. destruct a as [w|w]; cbn [asks].
  - rewrite test_lit_contains. split; [|tauto]. intros Hc. split; [|exact Hc].
    apply List.forallb_forall. intros c Hcw.
    pose proof (contains_Forall _ w n Hc Hn) as Hw. rewrite Forall_forall in Hw.
    apply Hw, list_elem_of_In, Hcw.
  - apply test_litB_suffix; assumption.
Qed.

Lemma AP_boundaries : forallb boundary_ok (concat AP) = true.
Proof. vm_compute. reflexivity. Qed.

Lemma AP_words : forallb word_of_AP (concat AP) = true.
Proof. vm_compute. reflexivity. Qed.

Lemma allowed_words_AP : forallb word_in_AP allowed_words = true.
Proof. vm_compute. reflexivity. Qed.

Lemma AP_nonempty : forallb (fun a => negb (test_alt a [])) (concat AP) = true.
Proof. vm_compute. reflexivity. Qed.

Lemma AP_asks n :
  (exists a, a ∈ concat AP /\ asks a n)
  <-> (exists w, w ∈ allowed_words /\ contains w n)
      \/ exists before, n = before ++ String.list_ascii_of_string "arg".
Proof.
  split.
  - intros (a & Ha & Hasks).
    pose proof AP_words as Hw. rewrite List.forallb_forall in Hw.
    apply list_elem_of_In in Ha. specialize (Hw a Ha).
    destruct a as [w|w]; cbn [asks word_of_AP] in Hasks, Hw.
    + destruct Hasks as [Hl Hc]. rewrite Hl in Hw. cbn in Hw.
      apply bool_decide_eq_true in Hw. left. exists w. tauto.
    + apply bool_decide_eq_true in Hw. subst w. right. exact Hasks.
  - intros [(w & Hw & Hc) | Hs].
    + pose proof allowed_words_AP as Ha. rewrite List.forallb_forall in Ha.
      apply list_elem_of_In in Hw. specialize (Ha w Hw). unfold word_in_AP in Ha.
      apply andb_true_iff in Ha as [Ha Hl]. apply bool_decide_eq_true in Ha.
      exists (Lit w). split; [exact Ha|]. cbn [asks]. tauto.
    + exists (LitB (String.list_ascii_of_string "arg")). split; [|exact Hs].
      apply (proj1 (bool_decide_eq_true (LitB (String.list_ascii_of_string "arg") ∈ concat AP))).
      vm_compute. reflexivity.
Qed.

Lemma isAllowedPollster_test s :
  isAllowedPollster s = true
  <-> exists a, a ∈ concat AP /\ test_alt a (normPollster s) = true.
Proof.
  unfold isAllowedPollster. cbv zeta.
  assert (Hex : forall n, existsb (fun x => test x n) AP = true
                          <-> exists a, a ∈ concat AP /\ test_alt a n = true).
  { intros n. rewrite existsb_exists. unfold test. split.
    - intros (x & Hx & Ht). apply existsb_exists in Ht as (a & Ha & Ht).
      exists a. split; [|exact Ht]. apply list_elem_of_In. apply in_concat. exists x. tauto.
    - intros (a & Ha & Ht). apply list_elem_of_In in Ha. apply in_concat in Ha as (x & Hx & Ha).
      exists x. split; [exact Hx|]. apply existsb_exists. exists a. tauto. }
  destruct (normPollster s) as [|c n] eqn:En; [|apply Hex].
  split; [discriminate|]. intros (a & Ha & Ht). exfalso.
  pose proof AP_nonempty as Hne. rewrite List.forallb_forall in Hne.
  apply list_elem_of_In in Ha. specialize (Hne a Ha). rewrite Ht in Hne. discriminate.
Qed.

(** X28.  A pollster's name is normalised to lower-case letters and
    digits only; normalising twice changes nothing, so a name and its
    normalised form are allowed or refused together. *)
Theorem normPollster_idempotent (s : jstring) :
  Forall (fun c => is_lower_alnum c = true) (normPollster s)
  /\ normPollster (normPollster s) = normPollster s
  /\ isAllowedPollster (normPollster s) = isAllowedPollster s.
Proof.
  assert (H1 : Forall (fun c => is_lower_alnum c = true) (normPollster s))
    by apply strip_non_alnum_Forall.
  assert (H2 : normPollster (normPollster s) = normPollster s)
    by (apply normPollster_fixed; exact H1).
  split; [exact H1|]. split; [exact H2|].
  unfold isAllowedPollster. cbv zeta. rewrite H2. reflexivity.
Qed.

(** X29.  A pollster is allowed exactly when its normalised name contains
    one of the allowlist's words or ends in "arg": the word boundary after
    "arg" can only be the end of the name, and the alternatives written
    with a hyphen or a slash never match. *)
Theorem isAllowedPollster_words (s : jstring) :
  isAllowedPollster s = true
  <-> (exists w, w ∈ allowed_words /\ contains w (normPollster s))
      \/ exists before, normPollster s = before ++ String.list_ascii_of_string "arg".
Proof.
  rewrite isAllowedPollster_test, <- AP_asks.
  pose proof (strip_non_alnum_Forall (replace_amp (toLowerCase s))) as Hn.
  fold (normPollster s) in Hn.
  pose proof AP_boundaries as Hb. rewrite List.forallb_forall in Hb.
  split; intros (a & Ha & Ht); exists a; (split; [exact Ha|]);
    apply (test_alt_asks a (normPollster s) (Hb a (proj1 (list_elem_of_In _ _) Ha)) Hn);
    exact Ht.
Qed.

Example isAllowedPollster_sample :
  map (fun p => isAllowedPollster (String.list_ascii_of_string p))
    [ "YouGov/Economist"; "AP-NORC"; "ARG"; "Argyle Research"; "Bargain Polls";
      "Fabrizio & Anzalone"; EmptyString ]%string
  = [ true; true; true; false; false; false; false ].
Proof. vm_compute. reflexivity. Qed.
(** ** The cells of the poll matrix that hold no mean *)

Section BlankCells.
Context (src : gmap string (list state_poll)) (W n : nat) (dds : list (option Z)).

Lemma day_loop_unparsed polls i rest d0 st day :
  (d0 <= day)%nat -> (0 < n)%nat -> rest !! (day - d0)%nat = Some None ->
  r_D (day_loop polls (prefix_sums (map sp_D polls)) (prefix_sums (map sp_R polls))
         W n i rest d0 st) !! (day * n + i)%nat
  = r_D st !! (day * n + i)%nat
  /\ r_R (day_loop polls (prefix_sums (map sp_D polls)) (prefix_sums (map sp_R polls))
            W n i rest d0 st) !! (day * n + i)%nat
     = r_R st !! (day * n + i)%nat.
Proof.
  revert d0 st. induction rest as [|dt rest IH]; intros d0 st Hd Hn Hday; cbn [day_loop].
  - split; reflexivity.
  - destruct (decide (day = d0)) as [->|Hne].
    + replace (d0 - d0)%nat with 0%nat in Hday by lia. cbn in Hday. injection Hday as ->.
      cbn [day_step]. apply day_loop_frame. intros day' Hd' E.
      assert (S d0 * n <= day' * n)%nat by (apply Nat.mul_le_mono_r; lia). lia.
    + replace (day - d0)%nat with (S (day - S d0)) in Hday by lia.
      change ((dt :: rest) !! S (day - S d0)) with (rest !! (day - S d0)%nat) in Hday.
      destruct (IH (S d0) (day_step polls (prefix_sums (map sp_D polls))
                             (prefix_sums (map sp_R polls)) W n i st d0 dt))
        as [-> ->]; [lia | exact Hn | exact Hday |].
      apply day_step_frame. intros E.
      destruct (Nat.lt_trichotomy day d0) as [Hlt | [Heq | Hgt]]; [lia | lia |].
      assert (S d0 * n <= day * n)%nat by (apply Nat.mul_le_mono_r; lia). lia.
Qed.

(** A cell is left as it was when its day has no date or its seat has no
    polls. *)
Lemma seat_loop_pm_blank keys i0 m day i :
  (i < n)%nat -> (i0 + length keys <= n)%nat ->
  (dds !! day = Some None
   \/ forall k, (i0 <= i)%nat -> keys !! (i - i0)%nat = Some k ->
                default [] (src !! k) = []) ->
  fst (seat_loop_pm src W n dds keys i0 m) !! (day * n + i)%nat
  = fst m !! (day * n + i)%nat
  /\ snd (seat_loop_pm src W n dds keys i0 m) !! (day * n + i)%nat
     = snd m !! (day * n + i)%nat.
Proof.
  revert i0 m. induction keys as [|k0 keys IH]; intros i0 m Hi Hn Hb; cbn [seat_loop_pm].
  - split; reflexivity.
  - cbn [length] in Hn.
    destruct (IH (S i0) (seat_step src W n dds m i0 k0)) as [-> ->]; [exact Hi | lia | |].
    { destruct Hb as [Hb|Hb]; [left; exact Hb|]. right. intros k Hle Hk. apply Hb; [lia|].
      replace (i - i0)%nat with (S (i - S i0)) by lia. exact Hk. }
    destruct (decide (i = i0)) as [->|Hne].
    + destruct Hb as [Hb|Hb].
      * unfold seat_step. destruct (src !! k0) as [[|p ps]|]; try (split; reflexivity).
        cbv zeta. cbn [fst snd].
        apply (day_loop_unparsed (p :: ps) i0 dds 0
                 {| r_hi := 0; r_D := fst m; r_R := snd m |} day); [lia | lia |].
        replace (day - 0)%nat with day by lia. exact Hb.
      * specialize (Hb k0 (le_n _)). replace (i0 - i0)%nat with 0%nat in Hb by lia.
        specialize (Hb eq_refl). unfold seat_step.
        destruct (src !! k0) as [[|p ps]|]; try (split; reflexivity). discriminate.
    + apply seat_step_frame. intros day' E. apply cell_index_inj in E; lia.
Qed.
End BlankCells.

(** X30.  The poll matrix has one cell per seat and day in both of its
    arrays, and the cell of a seat that has no polls, or of a day whose
    date cannot be read, holds NaN in both. *)
Theorem buildPollMatrixForDays_blank_cells (parseDate : string -> option Z)
    (src : gmap string (list state_poll)) (keys dateStrs : list string) (windowN : Z)
    (pm : poll_matrix) :
  buildPollMatrixForDays parseDate (Some src) keys dateStrs windowN = Some pm ->
  nStates pm = length keys /\ nDays pm = length dateStrs
  /\ length (pollDDay pm) = (nStates pm * nDays pm)%nat
  /\ length (pollRDay pm) = (nStates pm * nDays pm)%nat
  /\ forall i k day ds,
       keys !! i = Some k -> dateStrs !! day = Some ds ->
       default [] (src !! k) = [] \/ parseDate ds = None ->
       read_f32 (pollDDay pm) (day * nStates pm + i) = NaN
       /\ read_f32 (pollRDay pm) (day * nStates pm + i) = NaN.
Proof.
  intros Hpm. unfold buildPollMatrixForDays in Hpm. cbv zeta in Hpm. injection Hpm as <-.
  cbn [nStates nDays pollDDay pollRDay].
  destruct (seat_loop_pm_length src (Z.to_nat (Z.max 1 (ToInt32 windowN))) (length keys)
              (map parseDate dateStrs) keys 0
              (replicate (length keys * length dateStrs) NaN,
               replicate (length keys * length dateStrs) NaN)) as [LD LR].
  cbn [fst snd] in LD, LR. rewrite length_replicate in LD, LR.
  set (nan := replicate (length keys * length dateStrs) NaN) in *.
  split; [reflexivity|]. split; [reflexivity|]. split; [exact LD|]. split; [exact LR|].
  intros i k day ds Hk Hds Hblank.
  assert (Hi : (i < length keys)%nat) by (eapply lookup_lt_Some; exact Hk).
  assert (Hd : (day < length dateStrs)%nat) by (eapply lookup_lt_Some; exact Hds).
  assert (Hidx : (day * length keys + i < length keys * length dateStrs)%nat).
  { assert (S day * length keys <= length dateStrs * length keys)%nat
      by (apply Nat.mul_le_mono_r; lia). lia. }
  destruct (seat_loop_pm_blank src (Z.to_nat (Z.max 1 (ToInt32 windowN))) (length keys)
              (map parseDate dateStrs) keys 0 (nan, nan) day i) as [HD HR].
  - exact Hi.
  - lia.
  - destruct Hblank as [Hb|Hb].
    + right. intros k' _ Hk'. replace (i - 0)%nat with i in Hk' by lia.
      rewrite Hk in Hk'. injection Hk' as <-. exact Hb.
    + left. change (map parseDate dateStrs) with (parseDate <$> dateStrs).
      rewrite list_lookup_fmap, Hds. cbn. rewrite Hb. reflexivity.
  - unfold read_f32. rewrite HD, HR. cbn [fst snd].
    assert (Hnan : nan !! (day * length keys + i)%nat = Some NaN).
    { unfold nan. apply lookup_replicate_2. exact Hidx. }
    rewrite Hnan. split; reflexivity.
Qed.

Lemma buildPollMatrixForDays_blank_cells_witness :
  exists pm,
    buildPollMatrixForDays sample_parseDate (Some sample_state_polls)
      ["OH"; "TX"]%string (sample_days ++ ["soon"%string]) 6 = Some pm
    /\ length (pollDDay pm) = 8%nat
    /\ read_f32 (pollDDay pm) (2 * nStates pm + 1) = NaN
    /\ read_f32 (pollRDay pm) (3 * nStates pm + 0) = NaN.
Proof.
  eexists. split; [reflexivity|].
  pose proof (buildPollMatrixForDays_blank_cells sample_parseDate sample_state_polls
                ["OH"; "TX"]%string (sample_days ++ ["soon"%string]) 6%Z _ eq_refl)
    as (_ & _ & HL & _ & Hcell).
  split; [exact HL|]. split.
  - apply (Hcell 1%nat "TX"%string 2%nat "2026-01-03"%string eq_refl eq_refl).
    left. reflexivity.
  - apply (Hcell 0%nat "OH"%string 3%nat "soon"%string eq_refl eq_refl).
    right. reflexivity.
Defined.
(** ** The pairs and the table index in binary64 *)

(** X7.  Normalising again a pair that [normalizePair] returned for
    non-negative shares changes each share by at most the tolerance
    [2^-40]; it does not always return the pair itself. *)
Theorem normalizePair_renormalised (d r : Q) :
  binary64 d -> binary64 r -> 0 <= d -> 0 <= r -> 0 < d + r ->
  100 * d <= 2 ^ 1023 -> 100 * r <= 2 ^ 1023 ->
  exists a b a' b',
    Binary64.normalizePair (Num d) (Num r) = {| D := Num a; R := Num b |}
    /\ Binary64.normalizePair (Num a) (Num b) = {| D := Num a'; R := Num b' |}
    /\ Qabs (a' - a) <= combine_tolerance /\ Qabs (b' - b) <= combine_tolerance.
Proof.
  intros Bd Br Hd Hr HS Md Mr.
  destruct (normalizePair_f64_near d r (binary64_quantum d Bd) (binary64_quantum r Br)
              Hd Hr HS Md Mr) as (a & b & E & Ha & Hb & Qa & Qb & _ & _ & S).
  assert (H43 : 0 < 2 ^ (-43)) by apply Qpow2_pos.
  destruct (normalizePair_near_pair a b a b Ha Hb S) as (a' & b' & E' & A & B);
    try assumption; try lra.
  exists a, b, a', b'. repeat split; assumption.
Qed.

Lemma normalizePair_renormalised_witness :
  exists a b a' b',
    Binary64.normalizePair (Num 45) (Num 30) = {| D := Num a; R := Num b |}
    /\ Binary64.normalizePair (Num a) (Num b) = {| D := Num a'; R := Num b' |}
    /\ Qabs (a' - a) <= combine_tolerance /\ Qabs (b' - b) <= combine_tolerance.
Proof.
  apply (normalizePair_renormalised 45 30); try (vm_compute; reflexivity);
    try (apply Qle_bool_imp_le; reflexivity); reflexivity.
Defined.

(** The pair of 45 and the binary64 value written 22.6 is not what
    normalising it again gives. *)
Example normalizePair_not_idempotent :
  let p := Binary64.normalizePair (Num 45) (f64 (Num 22.6)) in
  ~ num_eq (D (Binary64.normalizePair (D p) (R p))) (D p).
Proof. vm_compute. discriminate. Qed.

Section IndexBinary64.
Context `{MathLib}.

(** X9.  The entry [winProbD_fast] reads for a finite margin: its index,
    computed in binary64, is between 0 and 800, and the margin of that
    entry is within half a step of the margin clamped to [-40, 40], up to
    the rounding of the index computation ([2^-40]); so the entry read is
    that of a nearest grid margin, or of the other neighbour when the
    margin is within that rounding of the middle of two. *)
Theorem winProbD_fast_grid (m : Q) :
  exists idx : Z,
    Binary64.WINP_idx (Num m) = Num (inject_Z idx)
    /\ (0 <= idx <= 800)%Z
    /\ Qabs (WINP_margin (Z.to_nat idx) - Qclamp m (-40) 40) <= 0.05 + 2 ^ (-40)
    /\ Binary64.winProbD_fast (Num m) = WINP_entry (Z.to_nat idx).
Proof.
  unfold Binary64.winProbD_fast, Binary64.WINP_idx. cbn [isFinite negb].
  unfold WINP_MIN, WINP_MAX. rewrite clamp_Num.
  pose proof (Qclamp_bounds m (-40) 40 ltac:(lra)) as [Hlo Hhi].
  set (mm := Qclamp m (-40) 40) in *.
  unfold Binary64.sub, Binary64.div. cbn [jsub jneg jadd].
  assert (HM : 1000 <= 2 ^ 1023) by (apply Qle_bool_imp_le; reflexivity).
  destruct (f64_bounds (mm + - -40)) as (x1 & E1 & L1 & U1 & H10 & _); [lra | lra |].
  rewrite E1.
  assert (Ec : exists c, Binary64.WINP_STEP = Num c
                         /\ c == 3602879701896397 # 36028797018963968).
  { eexists. split; [vm_compute; reflexivity | reflexivity]. }
  destruct Ec as (c & Ec & Ecv). rewrite Ec. cbn [jdiv].
  assert (E0 : Qis0 c = false) by (apply Qis0_false; rewrite Ecv; discriminate).
  rewrite E0.
  assert (Ediv : x1 / c == x1 * (36028797018963968 # 3602879701896397))
    by (rewrite Ecv; reflexivity).
  destruct combine_constants as (Ee & _ & Htk & Ek & _ & _).
  assert (Ht0 : 0 <= f64_eta) by (apply Qlt_le_weak, f64_eps_eta).
  rewrite Ee in L1, U1. rewrite Ek in Htk.
  set (t := f64_eta) in *.
  assert (Hx1 : x1 <= 81) by lra.
  destruct (f64_bounds (x1 / c))
    as (q & Eq & Lq & Uq & Hq0 & _).
  { rewrite Ediv. lra. }
  { rewrite Ediv. lra. }
  rewrite Eq. cbn [Math_round].
  rewrite Ediv, Ee in Lq, Uq. fold t in Lq, Uq.
  set (idx := Qround_half_up q).
  destruct (Qfloor_bounds (q + (1 # 2))) as [F1 F2]. fold (Qround_half_up q) in F1, F2.
  fold idx in F1, F2.
  assert (Hidx : (0 <= idx <= 800)%Z).
  { split.
    - unfold idx, Qround_half_up. change 0%Z with (Qfloor 0). apply Qfloor_resp_le. lra.
    - apply Z.lt_succ_r. rewrite Zlt_Qlt. change (inject_Z (Z.succ 800)) with 801. lra. }
  exists idx. split; [reflexivity|]. split; [exact Hidx|].
  assert (Hn : Z.of_nat (Z.to_nat idx) = idx) by lia.
  split.
  - unfold WINP_margin. rewrite Hn.
    assert (E40 : 2 ^ (-40) == 1 # 1099511627776) by reflexivity. rewrite E40.
    apply Qabs_Qle_condition. split; lra.
  - rewrite to_index_inject. unfold array_get.
    destruct (Z.ltb_spec idx 0) as [Hneg|_]; [lia|].
    rewrite WINP_lookup by lia. reflexivity.
Qed.
End IndexBinary64.

(** The margin written 0.05 reads entry 400, the entry of margin 0, where
    the exact quotient would round to 401. *)
Example winProbD_fast_index_sample :
  Binary64.WINP_idx (f64 (Num 0.05)) = Num 400 /\ WINP_index 0.05 = 401%Z.
Proof. split; vm_compute; reflexivity. Qed.
